(** * LazyFox CLI: the [init] command (src/cli/commands/init.py)

    A shallow embedding of the command that resolves a version of the fixed
    upstream repository to an archive link, downloads and unpacks the archive
    into a temporary workspace and merges its root folder into a destination
    directory.

    Conventions of the embedding
    - The network is an oracle ([env]): every URL has one reply.  Each request
      is appended to a log, so that the order and number of calls can be
      stated.
    - Python exceptions are values of [exn]; a computation is a function from
      a state to a result-or-exception and a new state ([M]).
    - A file system is a finite map from paths (lists of components) to
      entries; a path is present exactly when it exists.  Its entries are
      directories and regular files: symbolic links, permissions and file
      metadata are not modelled, so that every statement about the file
      system is one about trees without symbolic links.
    - [run] starts where the destination path has been made absolute
      ([Path(args.dest).resolve()], the second statement of the function):
      [dest] is the resolved path, and a failure of that call is not part of
      the embedding.
    - The walk of the source root lists entries by depth; within that, the
      order in which [Path.rglob] yields them is not modelled.
    - A download is logged when [_download_file] is called, also for a link
      that [urllib] refuses before sending anything: the log is an upper
      bound of the requests.
    - The temporary workspace is a file system of its own, disjoint from the
      destination tree. *)

From Stdlib Require Import String Ascii NArith ZArith List DecimalString.
From stdpp Require Import base option list gmap strings sorting.

Set Warnings "-register-all".

(** ** Strings *)

Module Str.

(** [pat in s] *)
Fixpoint contains (pat s : string) : bool :=
  String.prefix pat s ||
  match s with
  | EmptyString => false
  | String _ s' => contains pat s'
  end.

(** [s.startswith(pat)] *)
Definition startswith (s pat : string) : bool := String.prefix pat s.

(** [f"{n}"] for a non-negative integer *)
Definition decimal (n : N) : string := NilZero.string_of_uint (N.to_uint n).

(** [s.split("/", 1)[0]]: the text before the first slash *)
Fixpoint before_slash (s : string) : string :=
  match s with
  | EmptyString => EmptyString
  | String c s' => if Ascii.eqb c "/"%char then EmptyString else String c (before_slash s')
  end.

(** [s.split("/")] *)
Fixpoint split_slash (s : string) : list string :=
  match s with
  | EmptyString => [EmptyString]
  | String c s' =>
      if Ascii.eqb c "/"%char then EmptyString :: split_slash s'
      else match split_slash s' with
           | [] => [String c EmptyString]
           | w :: ws => String c w :: ws
           end
  end.

(** [s.endswith("/")] *)
Fixpoint ends_with_slash (s : string) : bool :=
  match s with
  | EmptyString => false
  | String c EmptyString => Ascii.eqb c "/"%char
  | String _ s' => ends_with_slash s'
  end.

(** ["\n".join(l)] and ["/".join(l)] *)
Definition join (sep : string) (l : list string) : string := String.concat sep l.

End Str.

(** ** Exceptions and the state-and-exception monad *)

Inductive exn :=
| RuntimeError (msg : string)
| AttributeError
| ValueError
| BadZipFile
| FileExistsError
| NotADirectoryError
| IsADirectoryError
| FileNotFoundError.

Definition M (S A : Type) : Type := S → (exn + A) * S.

Definition ret {S A} (a : A) : M S A := λ s, (inr a, s).
Definition raise {S A} (e : exn) : M S A := λ s, (inl e, s).
Definition bind {S A B} (m : M S A) (k : A → M S B) : M S B :=
  λ s, match m s with
       | (inr a, s') => k a s'
       | (inl e, s') => (inl e, s')
       end.
(** A result that does not touch the state. *)
Definition lift {S A} (r : exn + A) : M S A := λ s, (r, s).

(** [try: m except: h] *)
Definition catch {S A} (m : M S A) (h : exn → M S A) : M S A :=
  λ s, match m s with
       | (inr a, s') => (inr a, s')
       | (inl e, s') => h e s'
       end.

Notation "'let!' x ':=' m 'in' k" := (bind m (λ x, k))
  (at level 10, x pattern, m at level 100, k at level 200, only parsing).

Definition is_ok {A B} (r : A + B) : bool :=
  match r with inr _ => true | inl _ => false end.

(** ** JSON values, as [json.load] returns them

    Numbers are kept as integers: the command only tests a value for truth
    and for equality with a string.  The pairs of a [JDict] are those of the
    parsed object, one per key. *)

Inductive json :=
| JNull
| JBool (b : bool)
| JNum (z : Z)
| JStr (s : string)
| JList (l : list json)
| JDict (d : list (string * json)).

Module Py.

(** Truth value of an object, as [if x] and [x or y] test it. *)
Definition truthy (j : json) : bool :=
  match j with
  | JNull => false
  | JBool b => b
  | JNum z => negb (Z.eqb z 0)
  | JStr s => negb (String.eqb s "")
  | JList l => match l with [] => false | _ => true end
  | JDict d => match d with [] => false | _ => true end
  end.

(** [x or y] *)
Definition or (x y : json) : json := if truthy x then x else y.

(** Lookup in the pairs of a dict. *)
Fixpoint assoc (k : string) (d : list (string * json)) : option json :=
  match d with
  | [] => None
  | (k', v) :: d' => if String.eqb k' k then Some v else assoc k d'
  end.

(** [d.get(k)] on a dict: [None] when the key is absent. *)
Definition dict_get (d : list (string * json)) (k : string) : json :=
  default JNull (assoc k d).

(** [x == s] for a string [s] *)
Definition eq_str (j : json) (s : string) : bool :=
  match j with JStr t => String.eqb t s | _ => false end.

(** [x.get(k)] on an arbitrary value: only dicts have the method. *)
Definition get {S : Type} (j : json) (k : string) : M S json :=
  match j with
  | JDict d => ret (dict_get d k)
  | _ => raise AttributeError
  end.

End Py.

(** ** The remote API *)

Definition REPO : string := "AmethystDev-Labs/LazyFox".
Definition API_BASE : string := "https://api.github.com/repos/" +:+ REPO.
Definition REPO_URL : string := "https://github.com/" +:+ REPO.

(** What [urlopen] followed by [json.load] can do for a metadata call. *)
Inductive reply :=
| Reply (j : json)                        (* a JSON document *)
| HTTPError (code : N) (body : string)    (* urllib.error.HTTPError *)
| URLError (reason : string)              (* urllib.error.URLError *)
| Garbled.                                (* the body is not JSON *)

(** What [urlopen] can do for the archive download. *)
Inductive download :=
| Body (raw : list Byte.byte)
| DlHTTPError (code : N) (body : string)
| DlURLError (reason : string)
| DlBadURL.                               (* [Request] rejects the URL *)

(** An archive link: a value copied from a reply, or the link that
    [_default_branch_source] formats from the branch value,
    [f"{REPO_URL}/archive/refs/heads/{branch}.zip"]. *)
Inductive link :=
| Given (j : json)
| BranchZip (branch : json).

Inductive request :=
| ApiGet (url : string)
| Download (url : link).

Definition requests := list request.

(** A member of a zip archive; a name that ends in a slash is a directory. *)
Record zentry := { zname : string; zdata : list Byte.byte }.

Inductive entry :=
| EDir
| EFile (content : list Byte.byte).

(** The environment of one invocation: what the metadata API answers, what
    the archive endpoint answers, and how archive bytes parse as a zip file. *)

Record env := {
  api : string → reply;
  fetch : link → download;
  unzip : list Byte.byte → option (list zentry);
  (* the directory that holds the temporary workspace, as a walk from it
     would list it *)
  tmp_parent : gmap (list string) entry
}.

(** ** Source descriptors *)

(** The [source_type] text: a constant, or [f"default branch ({branch})"]. *)
Inductive label :=
| Label (s : string)
| DefaultBranch (branch : json).

Record source := {
  source_type : label;
  tag_name : json;
  zipball_url : link
}.

(** [if not zip_url]: a formatted link is a non-empty string. *)
Definition link_truthy (l : link) : bool :=
  match l with
  | Given j => Py.truthy j
  | BranchZip _ => true
  end.

Section Resolver.
Context (E : env).

(** [_api_get]: one logged request; HTTP and network errors become
    [RuntimeError]s, the former with a text that starts with the status. *)
Definition _api_get (url : string) : M requests json :=
  λ log,
    let log' := log ++ [ApiGet url] in
    match api E url with
    | Reply j => (inr j, log')
    | HTTPError code body =>
        (inl (RuntimeError ("HTTP " +:+ Str.decimal code +:+ ": " +:+ body)), log')
    | URLError reason => (inl (RuntimeError reason), log')
    | Garbled => (inl ValueError, log')
    end.

(** [_default_branch_source] *)
Definition _default_branch_source : M requests source :=
  let! repo := _api_get API_BASE in
  match repo with
  | JDict d =>
      let branch := Py.dict_get d "default_branch" in
      if negb (Py.truthy branch) then raise (RuntimeError "仓库没有默认分支信息。")
      else ret {| source_type := DefaultBranch branch;
                  tag_name := branch;
                  zipball_url := BranchZip branch |}
  | _ => raise (RuntimeError "仓库信息格式异常。")
  end.

(** The guarded first step of both branches of [_resolve_source]:
    [Some] is the early return inside the [try], [None] falls through to the
    statements after it. *)
Definition try_release (url : string) (kind : string) (fallback_tag : string)
  : M requests (option source) :=
  catch
    (let! release := _api_get url in
     match release with
     | JDict d =>
         if Py.truthy (Py.dict_get d "zipball_url") then
           ret (Some {| source_type := Label kind;
                        tag_name := Py.or (Py.dict_get d "tag_name") (JStr fallback_tag);
                        zipball_url := Given (Py.dict_get d "zipball_url") |})
         else ret None
     | _ => ret None
     end)
    (λ exc,
       match exc with
       | RuntimeError msg =>
           if negb (Str.contains "HTTP 404" msg) then raise exc else ret None
       | _ => raise exc
       end).

(** [for item in tags: if item.get("name") == version: return ...] *)
Fixpoint scan_tags (version : string) (tags : list json) : M requests (option source) :=
  match tags with
  | [] => ret None
  | item :: rest =>
      let! name := Py.get item "name" in
      if Py.eq_str name version then
        let! url := Py.get item "zipball_url" in
        ret (Some {| source_type := Label "git tag";
                     tag_name := JStr version;
                     zipball_url := Given url |})
      else scan_tags version rest
  end.

Definition not_found_msg (version : string) : string :=
  "未找到版本 `" +:+ version +:+ "` 的 release 或 tag。".

Definition latest_url : string := API_BASE +:+ "/releases/latest".
Definition release_url (version : string) : string :=
  API_BASE +:+ "/releases/tags/" +:+ version.
Definition tags_url (per_page : string) : string :=
  API_BASE +:+ "/tags?per_page=" +:+ per_page.

(** [_resolve_source] *)
Definition _resolve_source (version : string) : M requests source :=
  if String.eqb version "latest" then
    let! early := try_release latest_url "latest release" "latest" in
    match early with
    | Some src => ret src
    | None =>
        let! tags := _api_get (tags_url "1") in
        match tags with
        | JList (first :: _) =>
            let! name := Py.get first "name" in
            let! url := Py.get first "zipball_url" in
            ret {| source_type := Label "latest tag";
                   tag_name := Py.or name (JStr "latest-tag");
                   zipball_url := Given url |}
        | _ => _default_branch_source
        end
    end
  else
    let! early := try_release (release_url version) "release tag" version in
    match early with
    | Some src => ret src
    | None =>
        let! tags := _api_get (tags_url "100") in
        let! found := match tags with
                      | JList items => scan_tags version items
                      | _ => ret None
                      end in
        match found with
        | Some src => ret src
        | None => raise (RuntimeError (not_found_msg version))
        end
    end.

End Resolver.

(** What the release lookup answers when it finds no release with an archive
    link: not-found, or a document without a usable [zipball_url]. *)
Definition no_release (r : reply) : bool :=
  match r with
  | HTTPError 404 _ => true
  | Reply (JDict d) => negb (Py.truthy (Py.dict_get d "zipball_url"))
  | Reply _ => true
  | _ => false
  end.

(** A tag object whose name is not [version]. *)
Definition other_tag (version : string) (item : json) : bool :=
  match item with
  | JDict d => negb (Py.eq_str (Py.dict_get d "name") version)
  | _ => false
  end.

Definition is_api (r : request) : bool :=
  match r with ApiGet _ => true | Download _ => false end.

(** A computation that only appends metadata requests to the log. *)
Definition api_only {A} (m : M requests A) : Prop :=
  ∀ l, ∃ k, (m l).2 = l ++ k ∧ forallb is_api k = true.

(** ** File systems *)

Abbreviation path := (list string) (only parsing).
Abbreviation bytes := (list Byte.byte) (only parsing).

Abbreviation fsys := (gmap (list string) entry) (only parsing).

Module Fs.

(** [Path.parent]; the root is its own parent. *)
Definition parent (p : path) : path := List.removelast p.

(** [Path.name] *)
Definition name (p : path) : string := List.last p "".

(** [Path.exists] *)
Definition exists_ (fs : fsys) (p : path) : bool :=
  match fs !! p with Some _ => true | None => false end.

(** [Path.is_dir] *)
Definition is_dir (fs : fsys) (p : path) : bool :=
  match fs !! p with Some EDir => true | _ => false end.

Definition is_file (fs : fsys) (p : path) : bool :=
  match fs !! p with Some (EFile _) => true | _ => false end.

(** A map is a file system when every entry sits in a directory. *)
Definition wf (fs : fsys) : Prop :=
  map_Forall (λ p _, is_dir fs (parent p) = true) fs.

#[global] Instance wf_dec (fs : fsys) : Decision (wf fs) :=
  ltac:(unfold wf; apply _).

(** [os.mkdir] *)
Definition mkdir (p : path) : M fsys unit :=
  λ fs,
    match fs !! p with
    | Some _ => (inl FileExistsError, fs)
    | None =>
        match fs !! parent p with
        | Some EDir => (inr tt, <[p := EDir]> fs)
        | Some (EFile _) => (inl NotADirectoryError, fs)
        | None => (inl FileNotFoundError, fs)
        end
    end.

(** [Path.mkdir(parents=True, exist_ok=True)] and [os.makedirs], walking
    from the root: [cur] is the part already inspected, [rest] what is left.
    A regular file in the way is an error; a missing component is created. *)
Fixpoint mkdirs_from (cur rest : path) : M fsys unit :=
  λ fs,
    match fs !! cur with
    | Some (EFile _) =>
        (inl (match rest with [] => FileExistsError | _ => NotADirectoryError end), fs)
    | Some EDir =>
        match rest with
        | [] => (inr tt, fs)
        | x :: rest' => mkdirs_from (cur ++ [x]) rest' fs
        end
    | None =>
        match rest with
        | [] => (inr tt, <[cur := EDir]> fs)
        | x :: rest' => mkdirs_from (cur ++ [x]) rest' (<[cur := EDir]> fs)
        end
    end.

Definition mkdir_p (p : path) : M fsys unit := mkdirs_from [] p.

(** [open(p, "wb")] followed by writing [data] *)
Definition write_file (p : path) (data : bytes) : M fsys unit :=
  λ fs,
    match fs !! p with
    | Some EDir => (inl IsADirectoryError, fs)
    | _ =>
        match fs !! parent p with
        | Some EDir => (inr tt, <[p := EFile data]> fs)
        | Some (EFile _) => (inl NotADirectoryError, fs)
        | None => (inl FileNotFoundError, fs)
        end
    end.

(** [shutil.copy2(source, dst)] for a source file called [src_name] that
    holds [data]: a destination that is a directory receives the file under
    the source's name. *)
Definition copy2 (data : bytes) (src_name : string) (dst : path) : M fsys unit :=
  λ fs, write_file (if is_dir fs dst then dst ++ [src_name] else dst) data fs.

(** [p.relative_to(root)] *)
Fixpoint strip (root p : path) : option path :=
  match root, p with
  | [], _ => Some p
  | r :: root', x :: p' => if decide (r = x) then strip root' p' else None
  | _ :: _, [] => None
  end.

Definition under (root : path) (pe : list string * entry) : option (list string * entry) :=
  match strip root pe.1 with
  | Some (x :: rel) => Some (x :: rel, pe.2)
  | _ => None
  end.

Definition shallower (a b : list string * entry) : Prop := length a.1 ≤ length b.1.

#[global] Instance shallower_dec : RelDecision shallower :=
  λ a b, decide (length a.1 ≤ length b.1).

(** [root.rglob("*")]: everything below [root] with its path relative to
    [root], a directory before its contents; nothing when [root] is not a
    directory. *)
Definition rglob (fs : fsys) (root : path) : list (list string * entry) :=
  if is_dir fs root then merge_sort shallower (omap (under root) (map_to_list fs))
  else [].

(** [str(p)] for a relative path *)
Definition show (p : path) : string := Str.join "/" p.

End Fs.

(** ** The tree copier *)

Definition nl : string := String "010"%char "".

(** The text of the error raised after a walk that recorded conflicts. *)
Definition conflict_report (conflicts : list path) : string :=
  let preview :=
    Str.join nl (map (λ item, "  - " +:+ Fs.show item) (take 20 conflicts)) in
  let more :=
    if decide (length conflicts ≤ 20) then ""
    else nl +:+ "  ... 还有 " +:+ Str.decimal (N.of_nat (length conflicts - 20))
            +:+ " 个冲突文件" in
  "目标目录存在同名文件，已停止写入。可使用 --force 覆盖。" +:+ nl +:+
  "冲突文件示例:" +:+ nl +:+ preview +:+ more.

(** The report as the specification words it: a heading, one line for each
    example path, and a last line with the number of conflicts that are not
    shown, when there are any. *)
Definition report_text (examples : list path) (remaining : option nat) : string :=
  "目标目录存在同名文件，已停止写入。可使用 --force 覆盖。" +:+ nl +:+
  "冲突文件示例:" +:+ nl +:+
  Str.join nl (map (λ item, "  - " +:+ Fs.show item) examples) +:+
  match remaining with
  | None => ""
  | Some n => nl +:+ "  ... 还有 " +:+ Str.decimal (N.of_nat n) +:+ " 个冲突文件"
  end.

(** The exceptions that the file-system operations raise. *)
Definition os_error (e : exn) : bool :=
  match e with
  | FileExistsError | NotADirectoryError | IsADirectoryError
  | FileNotFoundError => true
  | _ => false
  end.

(** The [for] loop of [_copy_tree] over the entries that the walk of the
    source root yields; [conflicts] is the list built so far. *)
Fixpoint copy_loop (dest : path) (force : bool) (walk : list (list string * entry))
    (conflicts : list path) : M fsys (list path) :=
  match walk with
  | [] => ret conflicts
  | (relative, source) :: rest =>
      let target := dest ++ relative in
      match source with
      | EDir =>
          let! _ := Fs.mkdir_p target in
          copy_loop dest force rest conflicts
      | EFile content =>
          λ fs,
            if Fs.exists_ fs target && negb force then
              copy_loop dest force rest (conflicts ++ [relative]) fs
            else
              (let! _ := Fs.mkdir_p (Fs.parent target) in
               let! _ := Fs.copy2 content (Fs.name relative) target in
               copy_loop dest force rest conflicts) fs
      end
  end.

(** [_copy_tree]: [src] is the file system that holds [source_root], the
    state is the one that holds [dest]. *)
Definition _copy_tree (src : fsys) (source_root dest : path) (force : bool)
  : M fsys unit :=
  let! conflicts := copy_loop dest force (Fs.rglob src source_root) [] in
  match conflicts with
  | [] => ret tt
  | _ => raise (RuntimeError (conflict_report conflicts))
  end.

(** *** Notions used to state what the copier does *)

(** [fs'] is [fs] with new directories at paths that satisfy [P]. *)
Definition grows (P : path → Prop) (fs fs' : fsys) : Prop :=
  ∀ q, fs' !! q = fs !! q ∨ (fs !! q = None ∧ fs' !! q = Some EDir ∧ P q).

(** The test that makes the loop record an entry as a conflict, read
    against the destination as it is before the walk. *)
Definition conflicting (fs0 : fsys) (dest : path) (force : bool)
    (pe : list string * entry) : bool :=
  match pe.2 with
  | EFile _ => Fs.exists_ fs0 (dest ++ pe.1) && negb force
  | EDir => false
  end.

Definition conflicts_of (fs0 : fsys) (dest : path) (force : bool)
    (walk : list (list string * entry)) : list path :=
  (List.filter (conflicting fs0 dest force) walk).*1.

(** No regular file of the destination lies where the source has a
    directory. *)
Definition dirs_free (fs0 : fsys) (dest : path)
    (walk : list (list string * entry)) : bool :=
  forallb (λ pe, match pe.2 with
                 | EDir => negb (Fs.is_file fs0 (dest ++ pe.1))
                 | EFile _ => true
                 end) walk.

(** No directory of the destination lies where the source has a file. *)
Definition files_free (fs0 : fsys) (dest : path)
    (walk : list (list string * entry)) : bool :=
  forallb (λ pe, match pe.2 with
                 | EFile _ => negb (Fs.is_dir fs0 (dest ++ pe.1))
                 | EDir => true
                 end) walk.

(** Nothing of the destination lies where the source has a file. *)
Definition targets_free (fs0 : fsys) (dest : path)
    (walk : list (list string * entry)) : bool :=
  forallb (λ pe, match pe.2 with
                 | EFile _ => negb (Fs.exists_ fs0 (dest ++ pe.1))
                 | EDir => true
                 end) walk.

(** Every directory of [fs] is a directory of [fs']. *)
Definition keeps_dirs (fs fs' : fsys) : Prop :=
  ∀ p, fs !! p = Some EDir → fs' !! p = Some EDir.

(** What the walk leaves at the target of a source file that holds
    [content]: the old entry when the file is a conflict, the file itself
    otherwise. *)
Definition copied (fs0 : fsys) (dest : path) (force : bool) (rel : path)
    (content : bytes) : option entry :=
  if Fs.exists_ fs0 (dest ++ rel) && negb force then fs0 !! (dest ++ rel)
  else Some (EFile content).

(** The state of the destination when the entries with paths in [seen] have
    been processed, in terms of the destination [fs0] before the walk. *)
Record copy_inv (walk : list (list string * entry)) (dest : path) (force : bool)
    (fs0 : fsys) (seen : list path) (fs : fsys) : Prop := {
  inv_frame : ∀ q, (∀ rel e, (rel, e) ∈ walk → q ≠ dest ++ rel) → fs !! q = fs0 !! q;
  inv_dir : ∀ rel, (rel, EDir) ∈ walk → Fs.is_file fs (dest ++ rel) = false;
  inv_dir_seen : ∀ rel, (rel, EDir) ∈ walk → rel ∈ seen →
    fs !! (dest ++ rel) = Some EDir;
  inv_file_todo : ∀ rel c, (rel, EFile c) ∈ walk → rel ∉ seen →
    fs !! (dest ++ rel) = fs0 !! (dest ++ rel);
  inv_file_seen : ∀ rel c, (rel, EFile c) ∈ walk → rel ∈ seen →
    fs !! (dest ++ rel) = copied fs0 dest force rel c
}.

(** ** The archive extractor *)

(** [ZipFile._extract_member] cleans a member name: it drops empty, [.] and
    [..] components, so that nothing is written outside the workspace. *)
Definition arc_path (name : string) : path :=
  filter (λ x, x ≠ "" ∧ x ≠ "." ∧ x ≠ "..") (Str.split_slash name).

Definition extract_member (z : zentry) : M fsys unit :=
  let target := arc_path (zname z) in
  let upperdirs := Fs.parent target in
  let! _ := (λ fs, if Fs.exists_ fs upperdirs then ret tt fs
                   else Fs.mkdir_p upperdirs fs) in
  if Str.ends_with_slash (zname z) then
    λ fs, if Fs.is_dir fs target then ret tt fs else Fs.mkdir target fs
  else Fs.write_file target (zdata z).

(** [archive.extractall(tmp_dir)] *)
Fixpoint extractall (archive : list zentry) : M fsys unit :=
  match archive with
  | [] => ret tt
  | z :: rest => let! _ := extract_member z in extractall rest
  end.

(** [_detect_root_folder] *)
Definition _detect_root_folder (archive : list zentry) : exn + string :=
  let names :=
    filter (λ name, name ≠ "" ∧ Str.startswith name "__MACOSX/" = false)
           (map zname archive) in
  match names with
  | [] => inl (RuntimeError "压缩包为空。")
  | first :: _ => inr (Str.before_slash first)
  end.

(** Where [Path(tmp_dir) / root_name] points: into the workspace, or, for
    the name [..], at the directory that holds the workspace. *)
Inductive place :=
| Inside (p : path)
| Above.

Definition workspace_join (root_name : string) : place :=
  if decide (root_name = "" ∨ root_name = ".") then Inside []
  else if decide (root_name = "..") then Above
  else Inside [root_name].

(** ** The command *)

Record args := {
  version : option string;
  dest : path;                 (* [Path(args.dest).resolve()] *)
  force : bool
}.

(** The lines that [run] prints. *)
Inductive line :=
| PResolveFailed (msg : string)   (* [init] 获取下载源失败: {exc} *)
| PNoZipball                      (* [init] 下载源缺少 zipball_url，无法下载源码。 *)
| PRepo                           (* [init] 仓库: {REPO_URL} *)
| PSource (kind : label)          (* [init] 来源: {source_type} *)
| PVersion (tag : json)           (* [init] 版本: {tag} *)
| PDest (dest : path)             (* [init] 目标目录: {dest} *)
| PInitFailed (msg : string)      (* [init] 初始化失败: {exc} *)
| PDone.                          (* [init] 完成。 *)

Record state := {
  fs : gmap (list string) entry;
  log : requests;
  stdout : list line
}.

Definition on_fs {A} (m : M fsys A) : M state A :=
  λ s, let '(r, fs') := m (fs s) in
       (r, {| fs := fs'; log := log s; stdout := stdout s |}).

Definition on_net {A} (m : M requests A) : M state A :=
  λ s, let '(r, log') := m (log s) in
       (r, {| fs := fs s; log := log'; stdout := stdout s |}).

Definition print (l : line) : M state unit :=
  λ s, (inr tt, {| fs := fs s; log := log s; stdout := stdout s ++ [l] |}).

(** A computation on a file system of its own (the workspace): its result
    is the workspace it leaves. *)
Definition in_workspace {A : Type} (m : M fsys A) (ws : fsys)
  : exn + gmap (list string) entry :=
  match m ws with
  | (inr _, ws') => inr ws'
  | (inl e, _) => inl e
  end.

(** [try: m except RuntimeError as exc: ...]: the message on the left. *)
Definition attempt {S A : Type} (m : M S A) : M S (string + A) :=
  λ s, match m s with
       | (inr a, s') => (inr (inr a), s')
       | (inl (RuntimeError msg), s') => (inr (inl msg), s')
       | (inl e, s') => (inl e, s')
       end.

Section Command.
Context (E : env).

(** [_download_file]: the request is logged; the body ends up in the file
    [source.zip] of the workspace. *)
Definition _download_file (url : link) (output_path : path) (ws : fsys)
  : M state (gmap (list string) entry) :=
  let! _ := on_net (λ l, (inr tt, l ++ [Download url])) in
  match fetch E url with
  | Body raw => lift (in_workspace (Fs.write_file output_path raw) ws)
  | DlHTTPError code body =>
      raise (RuntimeError ("下载失败 HTTP " +:+ Str.decimal code +:+ ": " +:+ body))
  | DlURLError reason => raise (RuntimeError ("下载失败: " +:+ reason))
  | DlBadURL => raise ValueError
  end.

(** [zipfile.ZipFile(zip_path, "r")] *)
Definition open_zip (ws : fsys) (zip_path : path) : exn + list zentry :=
  match ws !! zip_path with
  | Some (EFile raw) =>
      match unzip E raw with
      | Some archive => inr archive
      | None => inl BadZipFile
      end
  | Some EDir => inl IsADirectoryError
  | None => inl FileNotFoundError
  end.

(** [_download_and_extract]; the workspace [tmp_dir] starts as an empty
    directory and is dropped at the end, whatever happens. *)
Definition _download_and_extract (zip_url : link) (dest : path) (force : bool)
  : M state unit :=
  let tmp_dir : fsys := {[ [] := EDir ]} in
  let zip_path := ["source.zip"] in
  let! ws := _download_file zip_url zip_path tmp_dir in
  let! archive := lift (open_zip ws zip_path) in
  let! root_name := lift (_detect_root_folder archive) in
  let! ws := lift (in_workspace (extractall archive) ws) in
  match workspace_join root_name with
  | Inside source_root =>
      if negb (Fs.exists_ ws source_root) then
        raise (RuntimeError "解压后未找到源码目录。")
      else on_fs (_copy_tree ws source_root dest force)
  | Above => on_fs (_copy_tree (tmp_parent E) [] dest force)
  end.

(** The part of [_download_and_extract] that works on the workspace, as a
    function of the environment: the tree that the copier will walk and the
    source root in it. *)
Definition unpack (zip_url : link) : exn + (gmap (list string) entry * list string) :=
  match fetch E zip_url with
  | Body raw =>
      match in_workspace (Fs.write_file ["source.zip"] raw) {[ [] := EDir ]} with
      | inr ws =>
          match open_zip ws ["source.zip"] with
          | inr archive =>
              match _detect_root_folder archive with
              | inr root_name =>
                  match in_workspace (extractall archive) ws with
                  | inr ws' =>
                      match workspace_join root_name with
                      | Inside source_root =>
                          if Fs.exists_ ws' source_root then inr (ws', source_root)
                          else inl (RuntimeError "解压后未找到源码目录。")
                      | Above => inr (tmp_parent E, [])
                      end
                  | inl e => inl e
                  end
              | inl e => inl e
              end
          | inl e => inl e
          end
      | inl e => inl e
      end
  | DlHTTPError code body =>
      inl (RuntimeError ("下载失败 HTTP " +:+ Str.decimal code +:+ ": " +:+ body))
  | DlURLError reason => inl (RuntimeError ("下载失败: " +:+ reason))
  | DlBadURL => inl ValueError
  end.

(** [args.version or "latest"] *)
Definition version_of (a : args) : string :=
  match version a with
  | Some v => if decide (v = "") then "latest" else v
  | None => "latest"
  end.

(** [run], from [dest.mkdir(parents=True, exist_ok=True)] on; [dest a] is the
    resolved destination. *)
Definition run (a : args) : M state Z :=
  let version := version_of a in
  let dest := dest a in
  let! _ := on_fs (Fs.mkdir_p dest) in
  let! resolved := attempt (on_net (_resolve_source E version)) in
  match resolved with
  | inl exc => let! _ := print (PResolveFailed exc) in ret 1%Z
  | inr source =>
      let tag := Py.or (tag_name source) (JStr version) in
      let zip_url := zipball_url source in
      let source_type := source_type source in
      if negb (link_truthy zip_url) then
        let! _ := print PNoZipball in ret 1%Z
      else
        let! _ := print PRepo in
        let! _ := print (PSource source_type) in
        let! _ := print (PVersion tag) in
        let! _ := print (PDest dest) in
        let! done := attempt (_download_and_extract zip_url dest (force a)) in
        match done with
        | inl exc => let! _ := print (PInitFailed exc) in ret 1%Z
        | inr _ => let! _ := print PDone in ret 0%Z
        end
  end.

(** The four lines printed before the download starts. *)
Definition banner (a : args) (src : source) : list line :=
  [PRepo; PSource (source_type src);
   PVersion (Py.or (tag_name src) (JStr (version_of a))); PDest (dest a)].

(** The invocation gets as far as the tree copier: the destination could be
    created ([fs0] is the file system at that point), a source with an
    archive link was resolved, and the archive was unpacked into [tree]
    with [source_root] in it. *)
Record reaches_copy (a : args) (s : state) (fs0 : fsys) (log1 : requests)
    (src : source) (tree : fsys) (source_root : path) : Prop := {
  rc_mkdir : Fs.mkdir_p (dest a) (fs s) = (inr tt, fs0);
  rc_resolved : _resolve_source E (version_of a) (log s) = (inr src, log1);
  rc_link : link_truthy (zipball_url src) = true;
  rc_unpacked : unpack (zipball_url src) = inr (tree, source_root)
}.

End Command.

(** ** Sample environments *)

Module Sample.
Import Byte.

Definition tag_v1 : json :=
  JDict [("name", JStr "v1.0.0"); ("zipball_url", JStr "https://example.org/v1.zip")].

Definition release_v2 : json :=
  JDict [("tag_name", JStr "v2.0.0"); ("zipball_url", JStr "https://example.org/v2.zip")].

Definition repo_info : json := JDict [("default_branch", JStr "main")].

Definition offline (api : string → reply) : env :=
  {| api := api; fetch := λ _, DlBadURL; unzip := λ _, None; tmp_parent := ∅ |}.

(** A published release. *)
Definition released : env :=
  offline (λ url, if String.eqb url latest_url then Reply release_v2
                  else URLError "unreachable").

(** No release, one tag. *)
Definition tagged : env :=
  offline (λ url, if String.eqb url latest_url then HTTPError 404 "Not Found"
                  else if String.eqb url (tags_url "1") then Reply (JList [tag_v1])
                  else if String.eqb url (tags_url "100") then Reply (JList [tag_v1])
                  else if String.eqb url API_BASE then Reply repo_info
                  else HTTPError 404 "Not Found").

(** Neither releases nor tags. *)
Definition bare : env :=
  offline (λ url, if String.eqb url (tags_url "1") then Reply (JList [])
                  else if String.eqb url API_BASE then Reply repo_info
                  else HTTPError 404 "Not Found").

(** The release endpoint answers 500 with a body that quotes another status. *)
Definition proxy_error : env :=
  offline (λ url, if String.eqb url latest_url
                  then HTTPError 500 "upstream replied HTTP 404"
                  else if String.eqb url (tags_url "1") then Reply (JList [tag_v1])
                  else URLError "unreachable").

(** No release, and a tag entry that carries no archive link. *)
Definition tag_without_link : env :=
  offline (λ url, if String.eqb url (tags_url "1")
                  then Reply (JList [JDict [("name", JStr "v0.1.0")]])
                  else HTTPError 404 "Not Found").

Definition home : gmap (list string) entry :=
  list_to_map [([], EDir); (["home"], EDir)].

Definition start (fs : gmap (list string) entry) : state :=
  {| fs := fs; log := []; stdout := [] |}.

(** An archive as the upstream serves it: one wrapper folder. *)
Definition archive : list zentry :=
  [ {| zname := "LazyFox-abc123/"; zdata := [] |};
    {| zname := "LazyFox-abc123/README.md"; zdata := [x23; x20; x4c] |};
    {| zname := "LazyFox-abc123/cli/"; zdata := [] |};
    {| zname := "LazyFox-abc123/cli/app.py"; zdata := [x69; x6d] |} ].

Definition serving (archive : list zentry) : env :=
  {| api := λ url, if String.eqb url latest_url then Reply release_v2
                   else URLError "unreachable";
     fetch := λ _, Body [x50; x4b];
     unzip := λ _, Some archive;
     tmp_parent := {[ [] := EDir ]} |}.

Definition online : env := serving archive.

(** An archive whose first member is a file at the top level. *)
Definition flat : env :=
  serving [ {| zname := "README.md"; zdata := [x23] |} ].

(** What unpacking leaves for the copier: the workspace and the source
    root in it. *)
Definition unpacked (E : env) (url : link) : gmap (list string) entry * list string :=
  match unpack E url with
  | inr x => x
  | inl _ => (∅, [])
  end.

Definition tree : gmap (list string) entry :=
  (unpacked online (Given (JStr "https://example.org/v2.zip"))).1.

Definition tree_root : list string :=
  (unpacked online (Given (JStr "https://example.org/v2.zip"))).2.

(** A destination that already has a README. *)
Definition occupied : gmap (list string) entry :=
  list_to_map [([], EDir); (["home"], EDir); (["home"; "README.md"], EFile [x6f])].

(** A destination with a README and a regular file called [cli]. *)
Definition blocked : gmap (list string) entry :=
  list_to_map [([], EDir); (["home"], EDir); (["home"; "README.md"], EFile [x6f]);
               (["home"; "cli"], EFile [x78])].

(** A destination in which nothing lies at the target of a source file, but
    [cli] is a regular file. *)
Definition free_but_blocked : gmap (list string) entry :=
  list_to_map [([], EDir); (["home"], EDir); (["home"; "cli"], EFile [x78])].

(** What [online] resolves "latest" to. *)
Definition release_source : source :=
  {| source_type := Label "latest release";
     tag_name := JStr "v2.0.0";
     zipball_url := Given (JStr "https://example.org/v2.zip") |}.

(** Twenty-one files that exist on both sides. *)
Definition names : list string :=
  ["a"; "b"; "c"; "d"; "e"; "f"; "g"; "h"; "i"; "j"; "k"; "l"; "m"; "n"; "o";
   "p"; "q"; "r"; "s"; "t"; "u"].

Definition crowd (top : string) : gmap (list string) entry :=
  list_to_map (([], EDir) :: ([top], EDir)
               :: map (λ n, ([top; n], EFile [x00])) names).

(** Copying one crowd onto the other without force. *)
Definition crowd_walk : list (list string * entry) := Fs.rglob (crowd "pkg") ["pkg"].

Definition crowd_conflicts : list (list string) :=
  conflicts_of (crowd "home") ["home"] false crowd_walk.

Definition into_home (force : bool) : args :=
  {| version := None; dest := ["home"]; force := force |}.

(** The destination is the path of the regular file [cli] of [blocked]. *)
Definition onto_file : args :=
  {| version := None; dest := ["home"; "cli"]; force := false |}.

Definition into_new_dir : args :=
  {| version := Some "v9.9.9"; dest := ["home"; "work"; "fox"]; force := false |}.

(** The file system once the destination of [a] has been created. *)
Definition prepared (a : args) (fs : gmap (list string) entry)
  : gmap (list string) entry :=
  (Fs.mkdir_p (dest a) fs).2.

End Sample.

(** ** Further notions and samples *)

(** A computation that appends at most [n] requests, all of them metadata
    requests. *)
Definition api_upto {A} (n : nat) (m : M requests A) : Prop :=
  ∀ l, ∃ k, (m l).2 = l ++ k ∧ forallb is_api k = true ∧ length k ≤ n.


(** [except RuntimeError as exc] in [run]: the exit code 1 with a line that
    quotes the message; any other exception goes through, with no line. *)
Definition caught (report : string → line) (e : exn) : (exn + Z) * list line :=
  match e with
  | RuntimeError msg => (inr 1%Z, [report msg])
  | _ => (inl e, [])
  end.

(** [isinstance(x, dict)] *)
Definition is_object (j : json) : bool :=
  match j with JDict _ => true | _ => false end.

(** The release endpoint that [_resolve_source] asks first. *)
Definition first_url (version : string) : string :=
  if String.eqb version "latest" then latest_url else release_url version.

(** A member name that [_detect_root_folder] passes over. *)
Definition skipped (z : zentry) : Prop :=
  zname z = "" ∨ Str.startswith (zname z) "__MACOSX/" = true.

(** Every path of [fs] is a path of [fs']. *)
Definition keeps_paths (fs fs' : gmap (list string) entry) : Prop :=
  ∀ p, is_Some (fs !! p) → is_Some (fs' !! p).

Module Sample2.
Import Byte.

(** A release published under the tag [v2.0.0], without a [tag_name]. *)
Definition by_tag : env :=
  Sample.offline
    (λ url, if String.eqb url (release_url "v2.0.0")
            then Reply (JDict [("zipball_url", JStr "https://example.org/v2.zip")])
            else URLError "unreachable").

(** No release; the tags listing holds names instead of objects. *)
Definition bare_names : env :=
  Sample.offline
    (λ url, if String.eqb url (tags_url "1") then Reply (JList [JStr "v1.0.0"])
            else HTTPError 404 "Not Found").

(** The archive endpoint answers 503. *)
Definition archive_down : env :=
  {| api := api Sample.released;
     fetch := λ _, DlHTTPError 503 "Service Unavailable";
     unzip := λ _, None;
     tmp_parent := {[ [] := EDir ]} |}.

(** The archive endpoint answers with something that is not a zip file. *)
Definition not_a_zip : env :=
  {| api := api Sample.released;
     fetch := λ _, Body [x3c; x68];
     unzip := λ _, None;
     tmp_parent := {[ [] := EDir ]} |}.

(** An archive that holds only metadata. *)
Definition only_metadata : env :=
  Sample.serving [ {| zname := "__MACOSX/._README.md"; zdata := [x00] |} ].


(** A destination in which [README.md] is a directory. *)
Definition dir_in_the_way : gmap (list string) entry :=
  list_to_map [([], EDir); (["home"], EDir); (["home"; "README.md"], EDir)].

(** The source that resolving [v1.0.0] gives where it is a tag without a
    release. *)
Definition tag_source : source :=
  {| source_type := Label "git tag";
     tag_name := JStr "v1.0.0";
     zipball_url := Given (JStr "https://example.org/v1.zip") |}.

(** No network. *)
Definition unreachable : env :=
  Sample.offline (λ _, URLError "connection refused").

End Sample2.

(** * Properties *)

(** ** The version resolver *)

Section ResolverFacts.
Context (E : env).

Lemma api_get_log url l : (_api_get E url l).2 = l ++ [ApiGet url].
Proof. unfold _api_get. by destruct (api E url). Qed.

Lemma api_get_reply url j l :
  api E url = Reply j → _api_get E url l = (inr j, l ++ [ApiGet url]).
Proof. intros H. unfold _api_get. by rewrite H. Qed.

Lemma contains_404 body :
  Str.contains "HTTP 404" ("HTTP " +:+ Str.decimal 404 +:+ ": " +:+ body) = true.
Proof. reflexivity. Qed.

(** A not-found reply makes the guarded step fall through. *)
Lemma try_release_404 url kind fb body l :
  api E url = HTTPError 404 body →
  try_release E url kind fb l = (inr None, l ++ [ApiGet url]).
Proof.
  intros H. unfold try_release, catch, bind, _api_get. rewrite H.
  by rewrite contains_404.
Qed.

(** A release with an archive link is returned at once. *)
Lemma try_release_found url kind fb d l :
  api E url = Reply (JDict d) →
  Py.truthy (Py.dict_get d "zipball_url") = true →
  try_release E url kind fb l =
    (inr (Some {| source_type := Label kind;
                  tag_name := Py.or (Py.dict_get d "tag_name") (JStr fb);
                  zipball_url := Given (Py.dict_get d "zipball_url") |}),
     l ++ [ApiGet url]).
Proof.
  intros H Ht. unfold try_release, catch, bind, _api_get. rewrite H.
  by rewrite Ht.
Qed.

(** An error whose text does not contain "HTTP 404" leaves the step as an
    exception. *)
Lemma try_release_propagates url kind fb code body l :
  api E url = HTTPError code body →
  Str.contains "HTTP 404" ("HTTP " +:+ Str.decimal code +:+ ": " +:+ body) = false →
  try_release E url kind fb l =
    (inl (RuntimeError ("HTTP " +:+ Str.decimal code +:+ ": " +:+ body)),
     l ++ [ApiGet url]).
Proof.
  intros H Hc. unfold try_release, catch, bind, _api_get. rewrite H.
  by rewrite Hc.
Qed.

Lemma default_branch_log l :
  (_default_branch_source E l).2 = l ++ [ApiGet API_BASE].
Proof.
  unfold _default_branch_source, bind, _api_get.
  destruct (api E API_BASE) as [[]| | |]; simpl; try done.
  by destruct (negb _).
Qed.

End ResolverFacts.

Lemma bind_api_reply (E : env) {B} url j (k : json → M requests B) l :
  api E url = Reply j → bind (_api_get E url) k l = k j (l ++ [ApiGet url]).
Proof. intros H. unfold bind. by rewrite (api_get_reply E _ _ _ H). Qed.

Lemma bind_try_release_404 (E : env) {B} url kind fb body
    (k : option source → M requests B) l :
  api E url = HTTPError 404 body →
  bind (try_release E url kind fb) k l = k None (l ++ [ApiGet url]).
Proof. intros H. unfold bind. by rewrite (try_release_404 E _ _ _ body). Qed.

Lemma resolve_source_latest (E : env) :
  _resolve_source E "latest" =
    (let! early := try_release E latest_url "latest release" "latest" in
     match early with
     | Some src => ret src
     | None =>
         let! tags := _api_get E (tags_url "1") in
         match tags with
         | JList (first :: _) =>
             let! name := Py.get first "name" in
             let! url := Py.get first "zipball_url" in
             ret {| source_type := Label "latest tag";
                    tag_name := Py.or name (JStr "latest-tag");
                    zipball_url := Given url |}
         | _ => _default_branch_source E
         end
     end).
Proof. reflexivity. Qed.

Lemma resolve_source_explicit (E : env) (version : string) :
  version ≠ "latest" →
  _resolve_source E version =
    (let! early := try_release E (release_url version) "release tag" version in
     match early with
     | Some src => ret src
     | None =>
         let! tags := _api_get E (tags_url "100") in
         let! found := match tags with
                       | JList items => scan_tags version items
                       | _ => ret None
                       end in
         match found with
         | Some src => ret src
         | None => raise (RuntimeError (not_found_msg version))
         end
     end).
Proof.
  intros Hv. unfold _resolve_source.
  by destruct (String.eqb_spec version "latest").
Qed.

(** C1. For the version "latest" the resolver goes through a fixed chain and
    stops at the first success.  A latest release with an archive link is
    returned after that single request.  When the release endpoint answers
    not-found, the next request is the tags listing limited to one entry: a
    non-empty listing ends the chain with its first entry (two requests, the
    repository endpoint is not asked), and an empty listing hands over to the
    default-branch lookup, which asks the repository endpoint as the third
    request. *)
Theorem resolve_latest_order (E : env) (l : requests) :
  (∀ d, api E latest_url = Reply (JDict d) →
        Py.truthy (Py.dict_get d "zipball_url") = true →
        _resolve_source E "latest" l =
          (inr {| source_type := Label "latest release";
                  tag_name := Py.or (Py.dict_get d "tag_name") (JStr "latest");
                  zipball_url := Given (Py.dict_get d "zipball_url") |},
           l ++ [ApiGet latest_url]))
  ∧ (∀ body, api E latest_url = HTTPError 404 body →
       (l ++ [ApiGet latest_url; ApiGet (tags_url "1")])
         `prefix_of` (_resolve_source E "latest" l).2
       ∧ (∀ first rest, api E (tags_url "1") = Reply (JList (first :: rest)) →
            (_resolve_source E "latest" l).2 =
              l ++ [ApiGet latest_url; ApiGet (tags_url "1")]
            ∧ ∀ d, first = JDict d →
                (_resolve_source E "latest" l).1 =
                  inr {| source_type := Label "latest tag";
                         tag_name := Py.or (Py.dict_get d "name") (JStr "latest-tag");
                         zipball_url := Given (Py.dict_get d "zipball_url") |})
       ∧ (api E (tags_url "1") = Reply (JList []) →
            _resolve_source E "latest" l =
              _default_branch_source E (l ++ [ApiGet latest_url; ApiGet (tags_url "1")])
            ∧ (_resolve_source E "latest" l).2 =
                l ++ [ApiGet latest_url; ApiGet (tags_url "1"); ApiGet API_BASE])).
Proof.
  split.
  - intros d H Ht. rewrite resolve_source_latest.
    unfold bind at 1. by rewrite (try_release_found E _ _ _ d).
  - intros body H.
    rewrite resolve_source_latest, (bind_try_release_404 E _ _ _ body _ _ H).
    split; [|split].
    + unfold bind, _api_get.
      destruct (api E (tags_url "1")) as [[| | | |[|first rest]|]| | |]; simpl;
        rewrite <- ?app_assoc; simpl;
        rewrite ?default_branch_log; try (by apply prefix_app_r); try done.
      by destruct first.
    + intros first rest Ht. rewrite (bind_api_reply E _ _ _ _ Ht), <- app_assoc.
      simpl. split.
      * by destruct first.
      * by intros d ->.
    + intros Ht. rewrite (bind_api_reply E _ _ _ _ Ht), <- app_assoc. simpl.
      split; [done|]. by rewrite default_branch_log, <- app_assoc.
Qed.

Lemma resolve_latest_order_witness :
  _resolve_source Sample.released "latest" [] =
    (inr {| source_type := Label "latest release";
            tag_name := JStr "v2.0.0";
            zipball_url := Given (JStr "https://example.org/v2.zip") |},
     [ApiGet latest_url])
  ∧ (_resolve_source Sample.tagged "latest" []).2 =
      [ApiGet latest_url; ApiGet (tags_url "1")]
  ∧ (_resolve_source Sample.bare "latest" []).2 =
      [ApiGet latest_url; ApiGet (tags_url "1"); ApiGet API_BASE].
Proof.
  split; [|split].
  - apply (proj1 (resolve_latest_order Sample.released [])
             [("tag_name", JStr "v2.0.0");
              ("zipball_url", JStr "https://example.org/v2.zip")]);
      reflexivity.
  - destruct (resolve_latest_order Sample.tagged []) as [_ H].
    destruct (H "Not Found" eq_refl) as (_ & Htag & _).
    exact (proj1 (Htag Sample.tag_v1 [] eq_refl)).
  - destruct (resolve_latest_order Sample.bare []) as [_ H].
    destruct (H "Not Found" eq_refl) as (_ & _ & Hnone).
    exact (proj2 (Hnone eq_refl)).
Defined.
Lemma scan_tags_none version items l :
  forallb (other_tag version) items = true →
  scan_tags version items l = (inr None, l).
Proof.
  induction items as [|item items IH]; simpl; [done|].
  intros [Hi Hr]%andb_true_iff. destruct item; try done.
  simpl in Hi. unfold bind. simpl.
  destruct (Py.eq_str _ _); [done|]. by apply IH.
Qed.

Lemma try_release_none (E : env) url kind fb l :
  no_release (api E url) = true →
  try_release E url kind fb l = (inr None, l ++ [ApiGet url]).
Proof.
  intros H. unfold try_release, catch, bind, _api_get.
  destruct (api E url) as [j|code body| |]; try done.
  - destruct j; try done. simpl in H. by destruct (Py.truthy _).
  - destruct code as [|p]; [done|].
    assert (p = 404%positive) as ->.
    { simpl in H. repeat (destruct p as [p|p|]; try done). }
    by rewrite contains_404.
Qed.

(** C3. An explicit version that names no release (the release-by-tag
    endpoint answers not-found or has no archive link) and equals the name of
    none of the tag objects in the listing of up to 100 tags is reported as
    not found, and the log ends with those two requests. *)
Theorem resolve_unknown_version (E : env) (version : string)
    (items : list json) (l : requests) :
  version ≠ "latest" →
  no_release (api E (release_url version)) = true →
  api E (tags_url "100") = Reply (JList items) →
  forallb (other_tag version) items = true →
  _resolve_source E version l =
    (inl (RuntimeError (not_found_msg version)),
     l ++ [ApiGet (release_url version); ApiGet (tags_url "100")]).
Proof.
  intros Hv Hrel Htags Hnames. rewrite (resolve_source_explicit E _ Hv).
  unfold bind at 1. rewrite (try_release_none E _ _ _ _ Hrel).
  rewrite (bind_api_reply E _ _ _ _ Htags), <- app_assoc. simpl.
  unfold bind. by rewrite (scan_tags_none _ _ _ Hnames).
Qed.

Lemma resolve_unknown_version_witness :
  _resolve_source Sample.tagged "v9.9.9" [] =
    (inl (RuntimeError (not_found_msg "v9.9.9")),
     [ApiGet (release_url "v9.9.9"); ApiGet (tags_url "100")]).
Proof.
  apply (resolve_unknown_version Sample.tagged "v9.9.9" [Sample.tag_v1] []);
    [discriminate | reflexivity | reflexivity | reflexivity].
Defined.

(** C4 (the code departs from it). The latest-release endpoint answers with
    status 500 and a body that quotes "HTTP 404"; the resolver does not pass
    the error on but goes on to the tags listing and returns its first
    entry. *)
Theorem http_500_quoting_404_falls_through :
  api Sample.proxy_error latest_url = HTTPError 500 "upstream replied HTTP 404"
  ∧ _resolve_source Sample.proxy_error "latest" [] =
      (inr {| source_type := Label "latest tag";
              tag_name := JStr "v1.0.0";
              zipball_url := Given (JStr "https://example.org/v1.zip") |},
       [ApiGet latest_url; ApiGet (tags_url "1")]).
Proof. split; reflexivity. Qed.

(** What the code does guarantee: an error of the release endpoint whose
    text does not contain "HTTP 404" ends the resolution after that single
    request. *)
Lemma resolve_latest_propagates (E : env) code body l :
  api E latest_url = HTTPError code body →
  Str.contains "HTTP 404" ("HTTP " +:+ Str.decimal code +:+ ": " +:+ body) = false →
  _resolve_source E "latest" l =
    (inl (RuntimeError ("HTTP " +:+ Str.decimal code +:+ ": " +:+ body)),
     l ++ [ApiGet latest_url]).
Proof.
  intros H Hc. rewrite resolve_source_latest. unfold bind at 1.
  by rewrite (try_release_propagates E _ _ _ _ _ _ H Hc).
Qed.

Lemma resolve_explicit_propagates (E : env) version code body l :
  version ≠ "latest" →
  api E (release_url version) = HTTPError code body →
  Str.contains "HTTP 404" ("HTTP " +:+ Str.decimal code +:+ ": " +:+ body) = false →
  _resolve_source E version l =
    (inl (RuntimeError ("HTTP " +:+ Str.decimal code +:+ ": " +:+ body)),
     l ++ [ApiGet (release_url version)]).
Proof.
  intros Hv H Hc. rewrite (resolve_source_explicit E _ Hv). unfold bind at 1.
  by rewrite (try_release_propagates E _ _ _ _ _ _ H Hc).
Qed.

(** *** The resolver only appends metadata requests to the log *)

Create HintDb api_only.

Lemma api_only_ret {A} (a : A) : api_only (ret a).
Proof. intros l. exists []. by rewrite app_nil_r. Qed.

Lemma api_only_raise {A} e : api_only (raise (A:=A) e).
Proof. intros l. exists []. by rewrite app_nil_r. Qed.

Lemma api_only_bind {A B} (m : M requests A) (k : A → M requests B) :
  api_only m → (∀ a, api_only (k a)) → api_only (bind m k).
Proof.
  intros Hm Hk l. unfold bind. destruct (Hm l) as (k1 & E1 & F1).
  destruct (m l) as [[e|a] l1]; simpl in E1; subst l1.
  - by exists k1.
  - destruct (Hk a (l ++ k1)) as (k2 & E2 & F2). exists (k1 ++ k2).
    rewrite E2, app_assoc. split; [done|]. rewrite forallb_app.
    by rewrite F1, F2.
Qed.

Lemma api_only_catch {A} (m : M requests A) (h : exn → M requests A) :
  api_only m → (∀ e, api_only (h e)) → api_only (catch m h).
Proof.
  intros Hm Hh l. unfold catch. destruct (Hm l) as (k1 & E1 & F1).
  destruct (m l) as [[e|a] l1]; simpl in E1; subst l1.
  - destruct (Hh e (l ++ k1)) as (k2 & E2 & F2). exists (k1 ++ k2).
    rewrite E2, app_assoc. split; [done|]. rewrite forallb_app.
    by rewrite F1, F2.
  - by exists k1.
Qed.

Lemma api_only_api_get (E : env) url : api_only (_api_get E url).
Proof. intros l. exists [ApiGet url]. by rewrite api_get_log. Qed.

Lemma api_only_get j k : api_only (Py.get j k).
Proof. destruct j; simpl; auto using @api_only_ret, @api_only_raise. Qed.

#[local] Hint Resolve api_only_ret api_only_raise api_only_api_get
  api_only_get : api_only.

Lemma api_only_default_branch (E : env) : api_only (_default_branch_source E).
Proof.
  apply api_only_bind; [auto with api_only|]. intros [| | | | |d]; auto with api_only.
  cbv zeta. destruct (negb (Py.truthy _)); auto with api_only.
Qed.

Lemma api_only_try_release (E : env) url kind fb :
  api_only (try_release E url kind fb).
Proof.
  apply api_only_catch.
  - apply api_only_bind; [auto with api_only|]. intros [| | | | |d]; auto with api_only.
    destruct (Py.truthy _); auto with api_only.
  - intros [msg| | | | | | |]; auto with api_only.
    destruct (negb _); auto with api_only.
Qed.

Lemma api_only_scan_tags version items : api_only (scan_tags version items).
Proof.
  induction items as [|item items IH]; simpl; [auto with api_only|].
  apply api_only_bind; [auto with api_only|]. intros name.
  destruct (Py.eq_str _ _); [|done].
  apply api_only_bind; auto with api_only.
Qed.

Lemma api_only_resolve (E : env) version : api_only (_resolve_source E version).
Proof.
  unfold _resolve_source. destruct (String.eqb _ _).
  - apply api_only_bind; [apply api_only_try_release|].
    intros [src|]; [auto with api_only|].
    apply api_only_bind; [auto with api_only|].
    intros [| | | |[|first rest]|]; try apply api_only_default_branch.
    repeat (apply api_only_bind; [auto with api_only|]; intros ?).
    auto with api_only.
  - apply api_only_bind; [apply api_only_try_release|].
    intros [src|]; [auto with api_only|].
    apply api_only_bind; [auto with api_only|]. intros tags.
    apply api_only_bind.
    + destruct tags; auto using api_only_scan_tags with api_only.
    + intros [src|]; auto with api_only.
Qed.

(** No download is requested while a version is resolved. *)
Lemma resolve_no_download (E : env) version l r l' u :
  _resolve_source E version l = (r, l') → Download u ∈ l' → Download u ∈ l.
Proof.
  intros Hr. destruct (api_only_resolve E version l) as (k & Hk & Hall).
  rewrite Hr in Hk. simpl in Hk. subst l'.
  intros [H|H]%elem_of_app; [done|].
  rewrite forallb_forall in Hall. apply list_elem_of_In, Hall in H. done.
Qed.

(** ** File systems *)

Section FsFacts.
Implicit Types (fs : gmap (list string) entry) (P Q : list string → Prop).
Implicit Types (p q cur rest : list string) (e : entry).

Lemma grows_refl P fs : grows P fs fs.
Proof. intros q. by left. Qed.

Lemma grows_trans P (fs1 fs2 fs3 : gmap (list string) entry) :
  grows P fs1 fs2 → grows P fs2 fs3 → grows P fs1 fs3.
Proof.
  intros H12 H23 q. destruct (H23 q) as [->|(Hn & Hd & HP)]; [apply H12|].
  destruct (H12 q) as [<-|(_ & ? & _)]; [|congruence]. right. by rewrite Hd.
Qed.

Lemma grows_weaken P Q (fs fs' : gmap (list string) entry) :
  (∀ q, P q → Q q) → grows P fs fs' → grows Q fs fs'.
Proof. intros HPQ H q. destruct (H q) as [?|(? & ? & ?)]; [by left|right; auto]. Qed.

(** What is there stays there. *)
Lemma grows_keeps P (fs fs' : gmap (list string) entry) q e :
  grows P fs fs' → fs !! q = Some e → fs' !! q = Some e.
Proof. intros H Hq. destruct (H q) as [->|(? & _)]; [done|congruence]. Qed.

Lemma grows_insert P fs p :
  fs !! p = None → P p → grows P fs (<[p := EDir]> fs).
Proof.
  intros Hn HP q. destruct (decide (p = q)) as [<-|Hne].
  - right. by rewrite lookup_insert_eq.
  - left. by rewrite lookup_insert_ne.
Qed.

Lemma is_file_false fs p :
  Fs.is_file fs p = false ↔ fs !! p = None ∨ fs !! p = Some EDir.
Proof.
  unfold Fs.is_file. destruct (fs !! p) as [[|c]|].
  - split; [by right|done].
  - split; [done|]. by intros [|].
  - split; [by left|done].
Qed.

Lemma is_dir_true fs p :
  Fs.is_dir fs p = true ↔ fs !! p = Some EDir.
Proof. unfold Fs.is_dir. destruct (fs !! p) as [[|c]|]; naive_solver. Qed.

(** [mkdirs_from] succeeds when no regular file lies on the way; it then
    leaves a directory at every step of the way and adds nothing else. *)
Lemma mkdirs_from_ok rest : ∀ cur fs,
  (∀ k, k `prefix_of` rest → Fs.is_file fs (cur ++ k) = false) →
  ∃ fs', Fs.mkdirs_from cur rest fs = (inr tt, fs')
    ∧ (∀ k, k `prefix_of` rest → fs' !! (cur ++ k) = Some EDir)
    ∧ grows (λ q, ∃ k, k `prefix_of` rest ∧ q = cur ++ k) fs fs'.
Proof.
  induction rest as [|x rest IH]; intros cur fs Hfree.
  - pose proof (Hfree [] (prefix_nil _)) as H0. rewrite app_nil_r in H0.
    apply is_file_false in H0. simpl. destruct H0 as [H0|H0]; rewrite H0.
    + eexists. split; [done|]. split.
      * intros k ->%prefix_nil_inv. by rewrite app_nil_r, lookup_insert_eq.
      * apply grows_insert; [done|]. exists []. by rewrite app_nil_r.
    + eexists. split; [done|]. split.
      * intros k ->%prefix_nil_inv. by rewrite app_nil_r.
      * apply grows_refl.
  - pose proof (Hfree [] (prefix_nil _)) as H0. rewrite app_nil_r in H0.
    apply is_file_false in H0.
    assert (Hstep : ∀ fs1 : gmap (list string) entry,
      grows (λ q, q = cur) fs fs1 → fs1 !! cur = Some EDir →
      ∃ fs', Fs.mkdirs_from (cur ++ [x]) rest fs1 = (inr tt, fs')
        ∧ (∀ k, k `prefix_of` x :: rest → fs' !! (cur ++ k) = Some EDir)
        ∧ grows (λ q, ∃ k, k `prefix_of` x :: rest ∧ q = cur ++ k) fs fs').
    { intros fs1 Hg Hcur.
      destruct (IH (cur ++ [x]) fs1) as (fs' & Hrun & Hdirs & Hgrow).
      { intros k Hk. rewrite <- app_assoc. simpl.
        pose proof (Hfree (x :: k) (prefix_cons _ _ _ Hk)) as Hf.
        apply is_file_false. apply is_file_false in Hf.
        destruct (Hg (cur ++ x :: k)) as [->|(_ & -> & _)]; [done|by right]. }
      exists fs'. split; [done|]. split.
      - intros [|y k] Hk.
        + rewrite app_nil_r. eapply grows_keeps; [exact Hgrow|done].
        + pose proof (prefix_cons_inv_1 _ _ _ _ Hk) as ->.
          apply prefix_cons_inv_2 in Hk.
          specialize (Hdirs k Hk). by rewrite <- app_assoc in Hdirs.
      - eapply grows_trans.
        + eapply grows_weaken; [|exact Hg]. intros q ->. exists [].
          split; [apply prefix_nil|by rewrite app_nil_r].
        + eapply grows_weaken; [|exact Hgrow]. intros q (k & Hk & ->).
          exists (x :: k). split; [by apply prefix_cons|].
          by rewrite <- app_assoc. }
    simpl. destruct H0 as [H0|H0]; rewrite H0.
    + apply Hstep; [by apply grows_insert|by rewrite lookup_insert_eq].
    + apply Hstep; [apply grows_refl|done].
Qed.

Lemma mkdir_p_ok p fs :
  (∀ k, k `prefix_of` p → Fs.is_file fs k = false) →
  ∃ fs', Fs.mkdir_p p fs = (inr tt, fs')
    ∧ (∀ k, k `prefix_of` p → fs' !! k = Some EDir)
    ∧ grows (λ q, q `prefix_of` p) fs fs'.
Proof.
  intros H. destruct (mkdirs_from_ok p [] fs H) as (fs' & ? & ? & Hg).
  exists fs'. split; [done|]. split; [done|].
  eapply grows_weaken; [|exact Hg]. by intros q (k & ? & ->).
Qed.

End FsFacts.

(** ** Paths *)

Lemma prefix_app_cases {A} (k l1 l2 : list A) :
  k `prefix_of` l1 ++ l2 →
  k `prefix_of` l1 ∨ ∃ k', k' ≠ [] ∧ k = l1 ++ k' ∧ k' `prefix_of` l2.
Proof.
  revert k. induction l1 as [|a l1 IH]; intros k Hk; simpl in *.
  - destruct k as [|b k]; [left; apply prefix_nil|].
    right. by exists (b :: k).
  - destruct k as [|b k]; [left; apply prefix_nil|].
    pose proof (prefix_cons_inv_1 _ _ _ _ Hk) as ->.
    apply prefix_cons_inv_2 in Hk.
    destruct (IH k Hk) as [H|(k' & ? & -> & ?)].
    + left. by apply prefix_cons.
    + right. by exists k'.
Qed.

Lemma prefix_shorter {A} (q l r : list A) :
  q `prefix_of` l → r ≠ [] → q ≠ l ++ r.
Proof.
  intros Hq Hr ->. apply prefix_length in Hq. rewrite length_app in Hq.
  destruct r; [done|simpl in Hq; lia].
Qed.

Lemma parent_snoc (p : list string) x : Fs.parent (p ++ [x]) = p.
Proof. apply removelast_last. Qed.

Lemma parent_app (p r : list string) :
  r ≠ [] → Fs.parent (p ++ r) = p ++ Fs.parent r.
Proof. intros Hr. by apply removelast_app. Qed.

Lemma path_snoc (r : list string) :
  r ≠ [] → r = Fs.parent r ++ [Fs.name r].
Proof. intros Hr. by apply app_removelast_last. Qed.

Lemma NoDup_fst_functional {A B} (l : list (A * B)) a b1 b2 :
  NoDup l.*1 → (a, b1) ∈ l → (a, b2) ∈ l → b1 = b2.
Proof.
  induction l as [|[a' b'] l IH]; simpl; intros Hnd H1 H2.
  - by apply elem_of_nil in H1.
  - apply NoDup_cons in Hnd as [Hnot Hnd].
    apply elem_of_cons in H1 as [H1|H1]; apply elem_of_cons in H2 as [H2|H2];
      simplify_eq; try done.
    + exfalso. apply Hnot. apply list_elem_of_fmap. by exists (a', b2).
    + exfalso. apply Hnot. apply list_elem_of_fmap. by exists (a', b1).
    + by apply IH.
Qed.

(** ** The copy loop *)

Section CopyLoop.
Context (w : list (list string * entry)) (dest : list string) (force : bool).
Context (fs0 : gmap (list string) entry).
Implicit Types (fs : gmap (list string) entry) (rel r q : list string).
Implicit Types (seen : list (list string)).

Hypothesis Hnodup : NoDup w.*1.
Hypothesis Hne : ∀ rel e, (rel, e) ∈ w → rel ≠ [].
Hypothesis Hclosed :
  ∀ rel x e, (rel ++ [x], e) ∈ w → rel ≠ [] → (rel, EDir) ∈ w.
Hypothesis Hdest : ∀ q, q `prefix_of` dest → fs0 !! q = Some EDir.
Hypothesis Hdirs : ∀ rel, (rel, EDir) ∈ w → Fs.is_file fs0 (dest ++ rel) = false.
Hypothesis Hfiles :
  force = true → ∀ rel c, (rel, EFile c) ∈ w → Fs.is_dir fs0 (dest ++ rel) = false.

Lemma walk_ancestor rel e r :
  (rel, e) ∈ w → r `prefix_of` rel → r ≠ [] → r = rel ∨ (r, EDir) ∈ w.
Proof.
  intros Hin [k ->] Hr. revert e Hin.
  induction k as [|x k IH] using rev_ind; intros e Hin.
  - left. by rewrite app_nil_r.
  - right. rewrite app_assoc in Hin.
    assert (Hup : (r ++ k, EDir) ∈ w).
    { eapply Hclosed; [exact Hin|]. by destruct r. }
    destruct (IH _ Hup) as [H|H]; [|done].
    apply (f_equal length) in H. rewrite length_app in H.
    destruct k; [|simpl in H; lia]. by rewrite app_nil_r in Hup.
Qed.

Lemma chain_cases r k :
  r = [] ∨ (r, EDir) ∈ w → k `prefix_of` dest ++ r →
  k `prefix_of` dest ∨ ∃ r', k = dest ++ r' ∧ (r', EDir) ∈ w.
Proof.
  intros Hr Hk. apply prefix_app_cases in Hk as [Hk|(r' & Hr' & -> & Hp)].
  { by left. }
  right. exists r'. split; [done|]. destruct Hr as [->|Hr].
  - by apply prefix_nil_inv in Hp.
  - by destruct (walk_ancestor _ _ _ Hr Hp Hr') as [->|?].
Qed.

(** The target of a source file never lies on the way to a directory of
    the source. *)
Lemma file_off_chain rel c r :
  (rel, EFile c) ∈ w → r = [] ∨ (r, EDir) ∈ w →
  ¬ (dest ++ rel) `prefix_of` (dest ++ r).
Proof.
  intros Hf Hr Hp. apply prefix_app_inv in Hp.
  pose proof (Hne _ _ Hf) as Hrel. destruct Hr as [->|Hr].
  - by apply prefix_nil_inv in Hp.
  - destruct (walk_ancestor _ _ _ Hr Hp Hrel) as [->|Hd].
    + by pose proof (NoDup_fst_functional _ _ _ _ Hnodup Hf Hr).
    + by pose proof (NoDup_fst_functional _ _ _ _ Hnodup Hf Hd).
Qed.

Lemma inv_start : copy_inv w dest force fs0 [] fs0.
Proof.
  split.
  - done.
  - exact Hdirs.
  - intros rel _ H. by apply elem_of_nil in H.
  - done.
  - intros rel c _ H. by apply elem_of_nil in H.
Qed.

Lemma inv_more seen fs rel :
  copy_inv w dest force fs0 seen fs →
  (∀ e, (rel, e) ∈ w →
     match e with
     | EDir => fs !! (dest ++ rel) = Some EDir
     | EFile c => fs !! (dest ++ rel) = copied fs0 dest force rel c
     end) →
  copy_inv w dest force fs0 (seen ++ [rel]) fs.
Proof.
  intros [HF HD HDs HTo HTs] Hnew. split; try done.
  - intros r Hr [H| ->%list_elem_of_singleton]%elem_of_app; [by apply HDs|].
    by apply (Hnew EDir).
  - intros r c Hr Hn. apply HTo with c; [done|]. intros ?. apply Hn.
    apply elem_of_app. by left.
  - intros r c Hr [H| ->%list_elem_of_singleton]%elem_of_app; [by apply HTs|].
    by apply (Hnew (EFile c)).
Qed.

(** Creating the directories down to the target of a source directory (or
    down to the destination itself) succeeds and keeps the invariant. *)
Lemma inv_mkdir seen fs r :
  copy_inv w dest force fs0 seen fs → r = [] ∨ (r, EDir) ∈ w →
  ∃ fs1, Fs.mkdir_p (dest ++ r) fs = (inr tt, fs1)
    ∧ fs1 !! (dest ++ r) = Some EDir
    ∧ copy_inv w dest force fs0 seen fs1.
Proof.
  intros [HF HD HDs HTo HTs] Hr.
  assert (Hold : ∀ k, k `prefix_of` dest → fs !! k = Some EDir).
  { intros k Hk. rewrite HF; [by apply Hdest|].
    intros rel e He. apply prefix_shorter; [done|]. by eapply Hne. }
  destruct (mkdir_p_ok (dest ++ r) fs) as (fs1 & Hrun & Hmade & Hg).
  { intros k Hk. destruct (chain_cases _ _ Hr Hk) as [Hd|(r' & -> & Hr')].
    - apply is_file_false. right. by apply Hold.
    - by apply HD. }
  exists fs1. split; [done|]. split; [by apply Hmade|].
  assert (Hsame : ∀ q, ¬ q `prefix_of` dest ++ r → fs1 !! q = fs !! q).
  { intros q Hq. by destruct (Hg q) as [?|(_ & _ & ?)]. }
  split.
  - intros q Hq. destruct (Hg q) as [->|(Hn & _ & Hp)]; [by apply HF|].
    destruct (chain_cases _ _ Hr Hp) as [Hd|(r' & -> & Hr')].
    + rewrite (Hold _ Hd) in Hn. done.
    + by destruct (Hq _ _ Hr').
  - intros rel Hrel. apply is_file_false.
    destruct (Hg (dest ++ rel)) as [->|(_ & -> & _)]; [|by right].
    apply is_file_false. by apply HD.
  - intros rel Hrel Hs. eapply grows_keeps; [exact Hg|]. by apply HDs.
  - intros rel c Hrel Hs. rewrite Hsame; [by eapply HTo|].
    by eapply file_off_chain.
  - intros rel c Hrel Hs. rewrite Hsame; [by eapply HTs|].
    by eapply file_off_chain.
Qed.

Lemma write_file_ok fs p c :
  Fs.is_dir fs p = false → fs !! Fs.parent p = Some EDir →
  Fs.write_file p c fs = (inr tt, <[p := EFile c]> fs).
Proof.
  unfold Fs.write_file, Fs.is_dir. intros Hd ->.
  by destruct (fs !! p) as [[|?]|].
Qed.

(** Writing a source file to its target keeps the invariant. *)
Lemma inv_write seen fs rel c :
  copy_inv w dest force fs0 seen fs → (rel, EFile c) ∈ w → rel ∉ seen →
  copied fs0 dest force rel c = Some (EFile c) →
  copy_inv w dest force fs0 (seen ++ [rel]) (<[dest ++ rel := EFile c]> fs).
Proof.
  intros [HF HD HDs HTo HTs] Hin Hfresh Hcopied.
  assert (Hother : ∀ r e, (r, e) ∈ w → r ≠ rel → dest ++ rel ≠ dest ++ r).
  { intros r e _ Hr Heq. by apply app_inv_head in Heq. }
  assert (Hdir : ∀ r, (r, EDir) ∈ w → r ≠ rel).
  { intros r Hr ->. by pose proof (NoDup_fst_functional _ _ _ _ Hnodup Hin Hr). }
  split.
  - intros q Hq. rewrite lookup_insert_ne; [by apply HF|].
    intros <-. by eapply Hq.
  - intros r Hr. unfold Fs.is_file. rewrite lookup_insert_ne; [by apply HD|].
    eapply Hother; eauto.
  - intros r Hr [Hs| ->%list_elem_of_singleton]%elem_of_app.
    + rewrite lookup_insert_ne; [by apply HDs|]. eapply Hother; eauto.
    + by destruct (Hdir rel).
  - intros r c' Hr Hs. rewrite lookup_insert_ne.
    + apply HTo with c'; [done|]. intros ?. apply Hs, elem_of_app. by left.
    + eapply Hother; [done|]. intros ->. apply Hs, elem_of_app. right.
      by apply list_elem_of_singleton.
  - intros r c' Hr [Hs| ->%list_elem_of_singleton]%elem_of_app.
    + rewrite lookup_insert_ne; [by eapply HTs|].
      eapply Hother; [done|]. by intros ->.
    + pose proof (NoDup_fst_functional _ _ _ _ Hnodup Hin Hr) as [= <-].
      by rewrite lookup_insert_eq.
Qed.

Lemma parent_in_walk rel e :
  (rel, e) ∈ w → Fs.parent rel = [] ∨ (Fs.parent rel, EDir) ∈ w.
Proof.
  intros Hin. destruct (Fs.parent rel) as [|x r] eqn:Hp; [by left|]. right.
  rewrite <- Hp. apply Hclosed with (Fs.name rel) e; [|by rewrite Hp].
  rewrite <- path_snoc; [done|]. by eapply Hne.
Qed.

(** The loop runs to the end of the walk, records the conflicts among the
    entries it is given, and ends in a state that satisfies the invariant
    for the whole walk. *)
Lemma copy_loop_spec todo : ∀ (done : list (list string * entry)) fs cs,
  w = done ++ todo → copy_inv w dest force fs0 done.*1 fs →
  ∃ fs', copy_loop dest force todo cs fs =
           (inr (cs ++ conflicts_of fs0 dest force todo), fs')
       ∧ copy_inv w dest force fs0 w.*1 fs'.
Proof.
  induction todo as [|[rel e] todo IH]; intros done fs cs Hw Hinv.
  - exists fs. rewrite app_nil_r in Hw. subst done. unfold conflicts_of. simpl.
    by rewrite app_nil_r.
  - assert (Hin : (rel, e) ∈ w).
    { rewrite Hw. apply elem_of_app. right. by left. }
    assert (Hfresh : rel ∉ done.*1).
    { intros Hs. pose proof Hnodup as Hnd. rewrite Hw, fmap_app in Hnd.
      apply NoDup_app in Hnd as (_ & Hnd & _). apply (Hnd _ Hs). by left. }
    assert (Hnext : w = (done ++ [(rel, e)]) ++ todo) by by rewrite <- app_assoc.
    assert (Hseen : (done ++ [(rel, e)]).*1 = done.*1 ++ [rel]) by by rewrite fmap_app.
    destruct e as [|c]; simpl.
    + destruct (inv_mkdir _ _ rel Hinv (or_intror Hin)) as (fs1 & Hrun & Hd & Hinv1).
      unfold bind at 1. rewrite Hrun.
      destruct (IH (done ++ [(rel, EDir)]) fs1 cs Hnext) as (fs' & Hloop & Hfin).
      { rewrite Hseen. apply inv_more; [done|]. intros e He.
        by rewrite <- (NoDup_fst_functional _ _ _ _ Hnodup Hin He). }
      exists fs'. by rewrite Hloop.
    + pose proof (inv_file_todo _ _ _ _ _ _ Hinv rel c Hin Hfresh) as Hsame.
      assert (Hex : Fs.exists_ fs (dest ++ rel) = Fs.exists_ fs0 (dest ++ rel)).
      { unfold Fs.exists_. by rewrite Hsame. }
      rewrite Hex.
      assert (Hcf : conflicts_of fs0 dest force ((rel, EFile c) :: todo) =
                    if Fs.exists_ fs0 (dest ++ rel) && negb force
                    then rel :: conflicts_of fs0 dest force todo
                    else conflicts_of fs0 dest force todo).
      { unfold conflicts_of. simpl. unfold conflicting at 1. simpl.
        by destruct (Fs.exists_ fs0 (dest ++ rel) && negb force). }
      rewrite Hcf. destruct (Fs.exists_ fs0 (dest ++ rel) && negb force) eqn:Hc.
      * destruct (IH (done ++ [(rel, EFile c)]) fs (cs ++ [rel]) Hnext)
          as (fs' & Hloop & Hfin).
        { rewrite Hseen. apply inv_more; [done|]. intros e He.
          rewrite <- (NoDup_fst_functional _ _ _ _ Hnodup Hin He).
          unfold copied. by rewrite Hc. }
        exists fs'. rewrite Hloop. by rewrite <- app_assoc.
      * rewrite parent_app by by eapply Hne.
        destruct (inv_mkdir _ _ (Fs.parent rel) Hinv (parent_in_walk _ _ Hin))
          as (fs1 & Hrun & Hpd & Hinv1).
        unfold bind at 1. rewrite Hrun.
        pose proof (inv_file_todo _ _ _ _ _ _ Hinv1 rel c Hin Hfresh) as Hsame1.
        assert (Hnd : Fs.is_dir fs1 (dest ++ rel) = false).
        { unfold Fs.is_dir. rewrite Hsame1. destruct force eqn:Hforce.
          - by apply (Hfiles eq_refl rel c).
          - rewrite andb_true_r in Hc. unfold Fs.exists_ in Hc.
            by destruct (fs0 !! (dest ++ rel)). }
        unfold bind at 1, Fs.copy2. rewrite Hnd.
        rewrite write_file_ok; [|done|by rewrite parent_app by by eapply Hne].
        destruct (IH (done ++ [(rel, EFile c)]) (<[dest ++ rel := EFile c]> fs1)
                    cs Hnext) as (fs' & Hloop & Hfin).
        { rewrite Hseen. apply inv_write; try done. unfold copied. by rewrite Hc. }
        exists fs'. by rewrite Hloop.
Qed.

End CopyLoop.

(** ** The walk of the source *)

Section WalkFacts.
Implicit Types (fs : gmap (list string) entry) (root p rel : list string).

Lemma strip_Some root : ∀ p rel, Fs.strip root p = Some rel ↔ p = root ++ rel.
Proof.
  induction root as [|r root IH]; intros p rel; simpl.
  - split; congruence.
  - destruct p as [|x p]; [split; intros; discriminate|].
    destruct (decide (r = x)) as [->|Hne].
    + rewrite IH. split; congruence.
    + split; [done|]. intros [= ? _]. done.
Qed.

Lemma under_Some root (pe : list string * entry) rel e :
  Fs.under root pe = Some (rel, e) ↔ rel ≠ [] ∧ pe = (root ++ rel, e).
Proof.
  unfold Fs.under. destruct pe as [p e']. simpl.
  destruct (Fs.strip root p) as [[|x r]|] eqn:Hs.
  - split; [done|]. intros [Hne [= -> ->]].
    pose proof (proj2 (strip_Some root (root ++ rel) rel) eq_refl). congruence.
  - apply strip_Some in Hs as ->. split.
    + by intros [= <- <-].
    + intros [_ [= ->%app_inv_head ->]]. done.
  - split; [done|]. intros [Hne [= -> ->]].
    pose proof (proj2 (strip_Some root (root ++ rel) rel) eq_refl). congruence.
Qed.

Lemma elem_of_rglob fs root rel e :
  (rel, e) ∈ Fs.rglob fs root ↔
  Fs.is_dir fs root = true ∧ rel ≠ [] ∧ fs !! (root ++ rel) = Some e.
Proof.
  unfold Fs.rglob. destruct (Fs.is_dir fs root).
  - rewrite merge_sort_Permutation, list_elem_of_omap. split.
    + intros ([p e'] & Hin & (Hne & [= -> ->])%under_Some).
      by apply elem_of_map_to_list in Hin.
    + intros (_ & Hne & Hl). exists (root ++ rel, e). split.
      * by apply elem_of_map_to_list.
      * by apply under_Some.
  - split; [by intros ?%elem_of_nil|]. by intros [? _].
Qed.

Lemma NoDup_under root (l : list (list string * entry)) :
  NoDup l.*1 → NoDup (omap (Fs.under root) l).*1.
Proof.
  induction l as [|[p e] l IH]; simpl; [constructor|].
  intros [Hnot Hnd]%NoDup_cons.
  destruct (Fs.under root (p, e)) as [[rel e']|] eqn:Hu; [|by apply IH].
  simpl. apply NoDup_cons. split; [|by apply IH].
  apply under_Some in Hu as [_ [= -> ->]].
  intros ([r e2] & Heq & ([p2 e3] & Hin & [_ [= -> ->]]%under_Some)%list_elem_of_omap)%list_elem_of_fmap.
  simpl in Heq. subst r. apply Hnot. apply list_elem_of_fmap.
  by exists (root ++ rel, e2).
Qed.

Lemma rglob_NoDup fs root : NoDup (Fs.rglob fs root).*1.
Proof.
  unfold Fs.rglob. destruct (Fs.is_dir fs root); [|constructor].
  rewrite merge_sort_Permutation. apply NoDup_under, NoDup_fst_map_to_list.
Qed.

(** The walk lists a directory before its contents. *)
Lemma rglob_sorted fs root : Sorted Fs.shallower (Fs.rglob fs root).
Proof.
  unfold Fs.rglob. destruct (Fs.is_dir fs root); [|constructor].
  apply Sorted_merge_sort. intros a b. unfold Fs.shallower. lia.
Qed.

Lemma rglob_nonempty fs root rel e : (rel, e) ∈ Fs.rglob fs root → rel ≠ [].
Proof. by intros (_ & ? & _)%elem_of_rglob. Qed.

Lemma wf_parent fs p e :
  Fs.wf fs → fs !! p = Some e → fs !! Fs.parent p = Some EDir.
Proof.
  intros Hwf Hp. apply is_dir_true.
  by apply (map_Forall_lookup_1 _ _ _ _ Hwf Hp).
Qed.

(** In a file system, everything above an entry is a directory. *)
Lemma wf_above fs p q e :
  Fs.wf fs → fs !! p = Some e → q `prefix_of` p → q ≠ p → fs !! q = Some EDir.
Proof.
  intros Hwf Hp [k ->]. revert e Hp.
  induction k as [|x k IH] using rev_ind; intros e Hp Hne.
  - by rewrite app_nil_r in Hne.
  - rewrite app_assoc in Hp. pose proof (wf_parent _ _ _ Hwf Hp) as Hup.
    rewrite parent_snoc in Hup. destruct k as [|y k].
    + by rewrite app_nil_r in Hup.
    + eapply IH; [exact Hup|]. intros Heq.
      apply (f_equal length) in Heq. rewrite length_app in Heq. simpl in Heq. lia.
Qed.

Lemma rglob_closed fs root rel x e :
  Fs.wf fs → (rel ++ [x], e) ∈ Fs.rglob fs root → rel ≠ [] →
  (rel, EDir) ∈ Fs.rglob fs root.
Proof.
  intros Hwf (Hd & _ & Hl)%elem_of_rglob Hne. apply elem_of_rglob.
  split; [done|]. split; [done|].
  rewrite app_assoc in Hl. apply (wf_parent _ _ _ Hwf) in Hl.
  by rewrite parent_snoc in Hl.
Qed.

Lemma is_dir_above fs p q :
  Fs.wf fs → Fs.is_dir fs p = true → q `prefix_of` p → fs !! q = Some EDir.
Proof.
  intros Hwf Hp%is_dir_true Hq. destruct (decide (q = p)) as [->|Hne]; [done|].
  by eapply wf_above.
Qed.

End WalkFacts.

(** ** The tree copier *)

Lemma dirs_free_elem fs0 dest (w : list (list string * entry)) rel :
  dirs_free fs0 dest w = true → (rel, EDir) ∈ w →
  Fs.is_file fs0 (dest ++ rel) = false.
Proof.
  unfold dirs_free. rewrite forallb_forall. intros H Hin.
  apply list_elem_of_In, H in Hin. by apply negb_true_iff.
Qed.

Lemma files_free_elem fs0 dest (w : list (list string * entry)) rel c :
  files_free fs0 dest w = true → (rel, EFile c) ∈ w →
  Fs.is_dir fs0 (dest ++ rel) = false.
Proof.
  unfold files_free. rewrite forallb_forall. intros H Hin.
  apply list_elem_of_In, H in Hin. by apply negb_true_iff.
Qed.

Lemma targets_free_elem fs0 dest (w : list (list string * entry)) rel c :
  targets_free fs0 dest w = true → (rel, EFile c) ∈ w →
  Fs.exists_ fs0 (dest ++ rel) = false.
Proof.
  unfold targets_free. rewrite forallb_forall. intros H Hin.
  apply list_elem_of_In, H in Hin. by apply negb_true_iff.
Qed.

Section CopyTree.
Context (src : gmap (list string) entry) (root dest : list string) (force : bool).
Context (fs0 : gmap (list string) entry).

Hypothesis Hsrc : Fs.wf src.
Hypothesis Hwf : Fs.wf fs0.
Hypothesis Hdest : Fs.is_dir fs0 dest = true.
Hypothesis Hdirs : dirs_free fs0 dest (Fs.rglob src root) = true.
Hypothesis Hfiles : force = true → files_free fs0 dest (Fs.rglob src root) = true.

(** With a destination whose entries do not clash in kind with the source,
    the loop visits the whole walk and returns the conflicts. *)
Lemma copy_walk_complete :
  ∃ fs', copy_loop dest force (Fs.rglob src root) [] fs0 =
           (inr (conflicts_of fs0 dest force (Fs.rglob src root)), fs')
       ∧ copy_inv (Fs.rglob src root) dest force fs0 (Fs.rglob src root).*1 fs'.
Proof.
  assert (Hd : ∀ rel, (rel, EDir) ∈ Fs.rglob src root →
                 Fs.is_file fs0 (dest ++ rel) = false).
  { intros rel Hin. by eapply dirs_free_elem. }
  assert (Hf : force = true → ∀ rel c, (rel, EFile c) ∈ Fs.rglob src root →
                 Fs.is_dir fs0 (dest ++ rel) = false).
  { intros Hforce rel c Hin. by eapply files_free_elem; [apply Hfiles|]. }
  apply copy_loop_spec with (done := []) (cs := []) (w := Fs.rglob src root); try done.
  - apply rglob_NoDup.
  - apply rglob_nonempty.
  - intros rel x e. by apply rglob_closed.
  - intros q. by apply is_dir_above.
  - by apply inv_start.
Qed.

Lemma copy_tree_result fs' :
  copy_loop dest force (Fs.rglob src root) [] fs0 =
    (inr (conflicts_of fs0 dest force (Fs.rglob src root)), fs') →
  _copy_tree src root dest force fs0 =
    (match conflicts_of fs0 dest force (Fs.rglob src root) with
     | [] => inr tt
     | cs => inl (RuntimeError (conflict_report cs))
     end, fs').
Proof.
  intros H. unfold _copy_tree, bind. rewrite H.
  by destruct (conflicts_of _ _ _ _).
Qed.

End CopyTree.

Lemma elem_of_conflicts fs0 dest force (w : list (list string * entry)) rel :
  rel ∈ conflicts_of fs0 dest force w ↔
  ∃ c, (rel, EFile c) ∈ w ∧ Fs.exists_ fs0 (dest ++ rel) = true ∧ force = false.
Proof.
  unfold conflicts_of. rewrite list_elem_of_fmap. split.
  - intros ([r e] & -> & [Hin Hc]%list_elem_of_In%filter_In).
    unfold conflicting in Hc. simpl in *. destruct e as [|c]; [done|].
    apply andb_true_iff in Hc as [? ?%negb_true_iff].
    exists c. by rewrite list_elem_of_In.
  - intros (c & Hin & Hex & ->). exists (rel, EFile c). split; [done|].
    apply list_elem_of_In, filter_In. split; [by apply list_elem_of_In|].
    unfold conflicting. simpl. by rewrite Hex.
Qed.

Lemma conflicts_of_force fs0 dest (w : list (list string * entry)) :
  conflicts_of fs0 dest true w = [].
Proof.
  unfold conflicts_of. induction w as [|[rel [|c]] w IH]; simpl; try done.
  unfold conflicting at 1. simpl. by rewrite andb_false_r.
Qed.

Lemma targets_free_no_conflicts fs0 dest force (w : list (list string * entry)) :
  targets_free fs0 dest w = true → conflicts_of fs0 dest force w = [].
Proof.
  intros H. apply elem_of_nil_inv.
  intros rel (c & Hin & Hex & _)%elem_of_conflicts.
  by rewrite (targets_free_elem _ _ _ _ _ H Hin) in Hex.
Qed.

Lemma targets_free_files_free fs0 dest (w : list (list string * entry)) :
  targets_free fs0 dest w = true → files_free fs0 dest w = true.
Proof.
  unfold targets_free, files_free. rewrite !forallb_forall.
  intros H pe Hin. specialize (H pe Hin). destruct pe as [rel [|c]]; [done|].
  simpl in *. unfold Fs.exists_, Fs.is_dir in *.
  by destruct (fs0 !! (dest ++ rel)) as [[|?]|].
Qed.

Lemma walk_lists (src : gmap (list string) entry) (root rel : list string) e :
  Fs.wf src → rel ≠ [] → src !! (root ++ rel) = Some e →
  (rel, e) ∈ Fs.rglob src root.
Proof.
  intros Hwf Hne Hl. apply elem_of_rglob. split; [|done].
  apply is_dir_true. eapply wf_above; [done|exact Hl|by eexists|].
  intros Heq. apply (f_equal length) in Heq. rewrite length_app in Heq.
  destruct rel; [done|simpl in Heq; lia].
Qed.

Lemma walk_seen (w : list (list string * entry)) (rel : list string) e :
  (rel, e) ∈ w → rel ∈ w.*1.
Proof. intros H. apply list_elem_of_fmap. by exists (rel, e). Qed.

(** C6 (as amended). When nothing in the destination lies at the target of a
    source file and no regular file of the destination lies at the target of
    a source directory, the walk records no conflict, the copy does not fail,
    and every file under the source root is found with the same content at
    the same relative path under the destination. *)
Theorem copy_into_free_destination
    (src : gmap (list string) entry) (root dest : list string) (force : bool)
    (fs0 : gmap (list string) entry) :
  Fs.wf src → Fs.wf fs0 → Fs.is_dir fs0 dest = true →
  targets_free fs0 dest (Fs.rglob src root) = true →
  dirs_free fs0 dest (Fs.rglob src root) = true →
  ∃ fs',
    copy_loop dest force (Fs.rglob src root) [] fs0 = (inr [], fs')
    ∧ _copy_tree src root dest force fs0 = (inr tt, fs')
    ∧ ∀ rel c, rel ≠ [] → src !! (root ++ rel) = Some (EFile c) →
               fs' !! (dest ++ rel) = Some (EFile c).
Proof.
  intros Hsrc Hwf Hdest Hfree Hdirs.
  destruct (copy_walk_complete src root dest force fs0 Hsrc Hwf Hdest Hdirs)
    as (fs' & Hloop & Hinv).
  { intros _. by apply targets_free_files_free. }
  pose proof (copy_tree_result _ _ _ _ _ _ Hloop) as Htree.
  rewrite (targets_free_no_conflicts _ _ _ _ Hfree) in Hloop, Htree.
  exists fs'. split; [done|]. split; [done|].
  intros rel c Hne Hl. pose proof (walk_lists _ _ _ _ Hsrc Hne Hl) as Hin.
  rewrite (inv_file_seen _ _ _ _ _ _ Hinv rel c Hin (walk_seen _ _ _ Hin)).
  unfold copied. by rewrite (targets_free_elem _ _ _ _ _ Hfree Hin).
Qed.

(** ** Operations keep a file system well formed and never remove a
    directory *)

Section Preservation.
Implicit Types (fs : gmap (list string) entry) (p q cur rest : list string).

Lemma wf_insert_dir fs p :
  Fs.wf fs → fs !! p = None → fs !! Fs.parent p = Some EDir ∨ p = [] →
  Fs.wf (<[p := EDir]> fs).
Proof.
  intros Hwf Hn Hp. apply map_Forall_lookup. intros q e Hq.
  apply is_dir_true. destruct (decide (p = q)) as [<-|Hne].
  - destruct Hp as [Hp| ->]; [|by rewrite lookup_insert_eq].
    rewrite lookup_insert_ne; [done|]. intros Heq. congruence.
  - rewrite lookup_insert_ne in Hq by done.
    pose proof (wf_parent _ _ _ Hwf Hq) as Hup.
    rewrite lookup_insert_ne; [done|]. intros Heq. congruence.
Qed.

Lemma wf_insert_file fs p c :
  Fs.wf fs → Fs.is_dir fs p = false → fs !! Fs.parent p = Some EDir →
  Fs.wf (<[p := EFile c]> fs).
Proof.
  intros Hwf Hnd Hp. apply map_Forall_lookup. intros q e Hq.
  assert (Hnot : fs !! p ≠ Some EDir).
  { intros H. apply is_dir_true in H. congruence. }
  apply is_dir_true. destruct (decide (p = q)) as [<-|Hne].
  - rewrite lookup_insert_ne; [done|]. intros Heq. congruence.
  - rewrite lookup_insert_ne in Hq by done.
    pose proof (wf_parent _ _ _ Hwf Hq) as Hup.
    rewrite lookup_insert_ne; [done|]. intros Heq. congruence.
Qed.

Lemma mkdirs_from_wf rest : ∀ cur fs r fs',
  Fs.wf fs → cur = [] ∨ fs !! Fs.parent cur = Some EDir →
  Fs.mkdirs_from cur rest fs = (r, fs') → Fs.wf fs'.
Proof.
  induction rest as [|x rest IH]; intros cur fs r fs' Hwf Hcur; simpl.
  - destruct (fs !! cur) as [[|c]|] eqn:Hl; intros [= _ <-]; try done.
    apply wf_insert_dir; [done..|]. destruct Hcur; auto.
  - destruct (fs !! cur) as [[|c]|] eqn:Hl.
    + apply IH; [done|]. right. by rewrite parent_snoc.
    + by intros [= _ <-].
    + apply IH.
      * apply wf_insert_dir; [done..|]. destruct Hcur; auto.
      * right. by rewrite parent_snoc, lookup_insert_eq.
Qed.

Lemma mkdir_p_wf p fs r fs' :
  Fs.wf fs → Fs.mkdir_p p fs = (r, fs') → Fs.wf fs'.
Proof. intros Hwf. apply mkdirs_from_wf; auto. Qed.

Lemma mkdirs_from_made rest : ∀ cur fs fs',
  Fs.mkdirs_from cur rest fs = (inr tt, fs') → fs' !! (cur ++ rest) = Some EDir.
Proof.
  induction rest as [|x rest IH]; intros cur fs fs'; simpl.
  - rewrite app_nil_r.
    destruct (fs !! cur) as [[|c]|] eqn:Hl; intros [= <-]; try done.
    by rewrite lookup_insert_eq.
  - destruct (fs !! cur) as [[|c]|] eqn:Hl; try done.
    + intros H%IH. by rewrite <- app_assoc in H.
    + intros H%IH. by rewrite <- app_assoc in H.
Qed.

Lemma mkdir_p_made p fs fs' :
  Fs.mkdir_p p fs = (inr tt, fs') → Fs.is_dir fs' p = true.
Proof. intros H%mkdirs_from_made. by apply is_dir_true. Qed.

Lemma mkdir_wf p fs r fs' :
  Fs.wf fs → Fs.mkdir p fs = (r, fs') → Fs.wf fs'.
Proof.
  intros Hwf. unfold Fs.mkdir.
  destruct (fs !! p) eqn:Hp; [by intros [= _ <-]|].
  destruct (fs !! Fs.parent p) as [[|c]|] eqn:Hup; intros [= _ <-]; try done.
  apply wf_insert_dir; auto.
Qed.

Lemma write_file_wf p c fs r fs' :
  Fs.wf fs → Fs.write_file p c fs = (r, fs') → Fs.wf fs'.
Proof.
  intros Hwf. unfold Fs.write_file.
  destruct (fs !! p) as [[|c']|] eqn:Hp; [by intros [= _ <-]|..];
    (destruct (fs !! Fs.parent p) as [[|c'']|] eqn:Hup; intros [= _ <-]; try done;
     apply wf_insert_file; [done| |done]; unfold Fs.is_dir; by rewrite Hp).
Qed.

Lemma keeps_dirs_refl fs : keeps_dirs fs fs.
Proof. by intros p. Qed.

Lemma keeps_dirs_trans (fs1 fs2 fs3 : gmap (list string) entry) :
  keeps_dirs fs1 fs2 → keeps_dirs fs2 fs3 → keeps_dirs fs1 fs3.
Proof. intros H12 H23 p Hp. by apply H23, H12. Qed.

Lemma keeps_dirs_insert fs p e :
  fs !! p ≠ Some EDir → keeps_dirs fs (<[p := e]> fs).
Proof.
  intros Hp q Hq. rewrite lookup_insert_ne; [done|]. intros ->. done.
Qed.

Lemma mkdirs_from_keeps rest : ∀ cur fs r fs',
  Fs.mkdirs_from cur rest fs = (r, fs') → keeps_dirs fs fs'.
Proof.
  induction rest as [|x rest IH]; intros cur fs r fs'; simpl.
  - destruct (fs !! cur) as [[|c]|] eqn:Hl; intros [= _ <-];
      try apply keeps_dirs_refl.
    apply keeps_dirs_insert. congruence.
  - destruct (fs !! cur) as [[|c]|] eqn:Hl.
    + apply IH.
    + intros [= _ <-]. apply keeps_dirs_refl.
    + intros H%IH. eapply keeps_dirs_trans; [|exact H].
      apply keeps_dirs_insert. congruence.
Qed.

Lemma write_file_keeps p c fs r fs' :
  Fs.write_file p c fs = (r, fs') → keeps_dirs fs fs'.
Proof.
  unfold Fs.write_file.
  destruct (fs !! p) as [[|c']|] eqn:Hp; [intros [= _ <-]; apply keeps_dirs_refl|..];
    (destruct (fs !! Fs.parent p) as [[|c'']|];
     intros [= _ <-]; try apply keeps_dirs_refl;
     apply keeps_dirs_insert; congruence).
Qed.

Lemma copy_loop_keeps dest force (w : list (list string * entry)) :
  ∀ cs fs r fs', copy_loop dest force w cs fs = (r, fs') → keeps_dirs fs fs'.
Proof.
  induction w as [|[rel [|c]] w IH]; intros cs fs r fs'; simpl.
  - intros [= _ <-]. apply keeps_dirs_refl.
  - unfold bind. destruct (Fs.mkdir_p (dest ++ rel) fs) as [[e|[]] fs1] eqn:Hm.
    + intros [= _ <-]. by eapply mkdirs_from_keeps.
    + intros H%IH. eapply keeps_dirs_trans; [|exact H].
      by eapply mkdirs_from_keeps.
  - destruct (Fs.exists_ fs (dest ++ rel) && negb force); [apply IH|].
    unfold bind.
    destruct (Fs.mkdir_p (Fs.parent (dest ++ rel)) fs) as [[e|[]] fs1] eqn:Hm.
    + intros [= _ <-]. by eapply mkdirs_from_keeps.
    + destruct (Fs.copy2 c (Fs.name rel) (dest ++ rel) fs1) as [[e|[]] fs2] eqn:Hc.
      * intros [= _ <-]. eapply keeps_dirs_trans; [by eapply mkdirs_from_keeps|].
        by eapply write_file_keeps.
      * intros H%IH. eapply keeps_dirs_trans; [by eapply mkdirs_from_keeps|].
        eapply keeps_dirs_trans; [|exact H]. by eapply write_file_keeps.
Qed.

Lemma copy_tree_keeps (src : gmap (list string) entry) root dest force fs r fs' :
  _copy_tree src root dest force fs = (r, fs') → keeps_dirs fs fs'.
Proof.
  unfold _copy_tree, bind.
  destruct (copy_loop _ _ _ _ _) as [[e|cs] fs1] eqn:Hl.
  - intros [= _ <-]. by eapply copy_loop_keeps.
  - destruct cs; intros [= _ <-]; by eapply copy_loop_keeps.
Qed.

End Preservation.

(** ** The archive extractor *)

Lemma extract_member_wf (z : zentry) (ws : gmap (list string) entry) r ws' :
  Fs.wf ws → extract_member z ws = (r, ws') → Fs.wf ws'.
Proof.
  intros Hwf. unfold extract_member, bind.
  destruct (Fs.exists_ ws (Fs.parent (arc_path (zname z)))).
  - simpl. destruct (Str.ends_with_slash (zname z)).
    + destruct (Fs.is_dir ws (arc_path (zname z))); [by intros [= _ <-]|].
      by apply mkdir_wf.
    + by apply write_file_wf.
  - destruct (Fs.mkdir_p _ ws) as [[e|[]] ws1] eqn:Hm.
    + intros [= _ <-]. by eapply mkdir_p_wf.
    + apply mkdir_p_wf in Hm; [|done].
      destruct (Str.ends_with_slash (zname z)).
      * destruct (Fs.is_dir ws1 (arc_path (zname z))); [by intros [= _ <-]|].
        by apply mkdir_wf.
      * by apply write_file_wf.
Qed.

Lemma extractall_wf (archive : list zentry) : ∀ (ws : gmap (list string) entry) r ws',
  Fs.wf ws → extractall archive ws = (r, ws') → Fs.wf ws'.
Proof.
  induction archive as [|z archive IH]; intros ws r ws' Hwf; simpl.
  - by intros [= _ <-].
  - unfold bind. destruct (extract_member z ws) as [[e|[]] ws1] eqn:Hm.
    + intros [= _ <-]. by eapply extract_member_wf.
    + apply IH. by eapply extract_member_wf.
Qed.

Lemma in_workspace_wf {A} (m : M (gmap (list string) entry) A)
    (ws ws' : gmap (list string) entry) :
  (∀ r ws1, m ws = (r, ws1) → Fs.wf ws1) → in_workspace m ws = inr ws' → Fs.wf ws'.
Proof.
  intros Hm. unfold in_workspace. destruct (m ws) as [[e|a] ws1] eqn:Hrun; [done|].
  intros [= <-]. by eapply Hm.
Qed.

Lemma workspace_wf : Fs.wf ({[ [] := EDir ]} : gmap (list string) entry).
Proof.
  apply map_Forall_lookup. intros q e Hq.
  apply lookup_singleton_Some in Hq as [<- _]. by apply is_dir_true.
Qed.

(** What the copier is given to walk is a file system. *)
Lemma unpack_wf (E : env) (url : link) (tree : gmap (list string) entry) root :
  Fs.wf (tmp_parent E) → unpack E url = inr (tree, root) → Fs.wf tree.
Proof.
  intros Hout. unfold unpack. destruct (fetch E url); try done.
  destruct (in_workspace _ _) as [e|ws] eqn:Hw; [done|].
  apply in_workspace_wf in Hw;
    [|intros r ws1; apply write_file_wf, workspace_wf].
  destruct (open_zip E ws _) as [e|archive]; [done|].
  destruct (_detect_root_folder archive) as [e|root_name]; [done|].
  destruct (in_workspace (extractall archive) ws) as [e|ws'] eqn:Hx; [done|].
  apply in_workspace_wf in Hx; [|intros r ws1; by apply extractall_wf].
  destruct (workspace_join root_name) as [source_root|].
  - destruct (Fs.exists_ ws' source_root); [|done]. by intros [= <- _].
  - by intros [= <- _].
Qed.

(** ** The command *)

Section CommandFacts.
Context (E : env).

Lemma download_and_extract_unpack url dest force (s : state) :
  _download_and_extract E url dest force s =
    let s1 := {| fs := fs s; log := log s ++ [Download url]; stdout := stdout s |} in
    match unpack E url with
    | inr (tree, root) => on_fs (_copy_tree tree root dest force) s1
    | inl e => (inl e, s1)
    end.
Proof.
  unfold _download_and_extract, unpack, _download_file, bind, on_net, lift, raise.
  simpl. destruct (fetch E url); try done.
  destruct (in_workspace _ _) as [e|ws]; [done|].
  destruct (open_zip E ws _) as [e|archive]; [done|].
  destruct (_detect_root_folder archive) as [e|root_name]; [done|].
  destruct (in_workspace (extractall archive) ws) as [e|ws']; [done|].
  destruct (workspace_join root_name) as [source_root|]; [|done].
  by destruct (Fs.exists_ ws' source_root).
Qed.

(** The outcome of an invocation that reaches the tree copier is decided by
    the copier. *)
Lemma run_copy a s fs0 log1 src tree root :
  reaches_copy E a s fs0 log1 src tree root →
  run E a s =
    let out := stdout s ++ banner a src in
    let log2 := log1 ++ [Download (zipball_url src)] in
    match _copy_tree tree root (dest a) (force a) fs0 with
    | (inr _, fs') =>
        (inr 0%Z, {| fs := fs'; log := log2; stdout := out ++ [PDone] |})
    | (inl (RuntimeError msg), fs') =>
        (inr 1%Z, {| fs := fs'; log := log2; stdout := out ++ [PInitFailed msg] |})
    | (inl e, fs') => (inl e, {| fs := fs'; log := log2; stdout := out |})
    end.
Proof.
  intros [Hmk Hres Hlink Hunp]. unfold run.
  unfold bind at 1, on_fs at 1. rewrite Hmk.
  unfold bind at 1, attempt at 1, on_net at 1. simpl. rewrite Hres. rewrite Hlink.
  simpl. unfold bind at 1 2 3 4, print. simpl.
  unfold bind at 1, attempt at 1. rewrite download_and_extract_unpack, Hunp.
  simpl. unfold on_fs. simpl.
  destruct (_copy_tree tree root (dest a) (force a) fs0) as [[e|[]] fs'].
  - destruct e; unfold bind, print, ret, banner; simpl;
      by rewrite <- !app_assoc.
  - unfold bind, print, ret, banner. simpl. by rewrite <- !app_assoc.
Qed.

End CommandFacts.




(** C2 (as amended). Without force, and provided no regular file of the
    destination lies where the source has a directory, the walk is never cut
    short: the loop returns the list of conflicts after visiting every entry,
    every source file whose target was free is there with its content, every
    source file whose target existed is left as it was and is listed as a
    conflict, and only then, when that list is not empty, the copier raises
    the conflict error and the command returns 1. *)
Theorem conflicts_reported_after_full_walk (E : env) (a : args) (s : state)
    (fs0 : gmap (list string) entry) (log1 : requests) (src : source)
    (tree : gmap (list string) entry) (root : list string) :
  reaches_copy E a s fs0 log1 src tree root →
  force a = false →
  Fs.wf (fs s) → Fs.wf (tmp_parent E) →
  dirs_free fs0 (dest a) (Fs.rglob tree root) = true →
  let cs := conflicts_of fs0 (dest a) false (Fs.rglob tree root) in
  ∃ fs',
    copy_loop (dest a) false (Fs.rglob tree root) [] fs0 = (inr cs, fs')
    ∧ (∀ rel c, rel ≠ [] → tree !! (root ++ rel) = Some (EFile c) →
         fs0 !! (dest a ++ rel) = None →
         fs' !! (dest a ++ rel) = Some (EFile c))
    ∧ (∀ rel c, rel ≠ [] → tree !! (root ++ rel) = Some (EFile c) →
         is_Some (fs0 !! (dest a ++ rel)) →
         fs' !! (dest a ++ rel) = fs0 !! (dest a ++ rel) ∧ rel ∈ cs)
    ∧ (∀ rel, rel ∈ cs →
         ∃ c, tree !! (root ++ rel) = Some (EFile c)
              ∧ is_Some (fs0 !! (dest a ++ rel)))
    ∧ (cs ≠ [] →
         _copy_tree tree root (dest a) false fs0 =
           (inl (RuntimeError (conflict_report cs)), fs')
         ∧ run E a s =
             (inr 1%Z,
              {| fs := fs';
                 log := log1 ++ [Download (zipball_url src)];
                 stdout := (stdout s ++ banner a src)
                             ++ [PInitFailed (conflict_report cs)] |})).
Proof.
  intros Hreach Hforce Hwf Hout Hdirs cs.
  pose proof (rc_mkdir _ _ _ _ _ _ _ _ Hreach) as Hmk.
  pose proof (mkdir_p_wf _ _ _ _ Hwf Hmk) as Hwf0.
  pose proof (mkdir_p_made _ _ _ Hmk) as Hdest.
  pose proof (unpack_wf _ _ _ _ Hout (rc_unpacked _ _ _ _ _ _ _ _ Hreach)) as Hsrc.
  destruct (copy_walk_complete tree root (dest a) false fs0 Hsrc Hwf0 Hdest Hdirs)
    as (fs' & Hloop & Hinv); [done|].
  exists fs'. split; [done|]. split; [|split; [|split]].
  - intros rel c Hne Hl Hfree.
    pose proof (walk_lists _ _ _ _ Hsrc Hne Hl) as Hin.
    rewrite (inv_file_seen _ _ _ _ _ _ Hinv rel c Hin (walk_seen _ _ _ Hin)).
    unfold copied, Fs.exists_. by rewrite Hfree.
  - intros rel c Hne Hl [e He].
    pose proof (walk_lists _ _ _ _ Hsrc Hne Hl) as Hin. split.
    + rewrite (inv_file_seen _ _ _ _ _ _ Hinv rel c Hin (walk_seen _ _ _ Hin)).
      unfold copied, Fs.exists_. by rewrite He.
    + apply elem_of_conflicts. exists c. unfold Fs.exists_. by rewrite He.
  - intros rel (c & Hin & Hex & _)%elem_of_conflicts. exists c.
    apply elem_of_rglob in Hin as (_ & _ & Hl). split; [done|].
    unfold Fs.exists_ in Hex. by destruct (fs0 !! (dest a ++ rel)).
  - intros Hcs.
    pose proof (copy_tree_result _ _ _ _ _ _ Hloop) as Htree. fold cs in Htree.
    assert (Hraise : _copy_tree tree root (dest a) false fs0 =
                       (inl (RuntimeError (conflict_report cs)), fs')).
    { rewrite Htree. by destruct cs. }
    split; [done|].
    rewrite (run_copy E _ _ _ _ _ _ _ Hreach), Hforce. simpl. by rewrite Hraise.
Qed.

(** C5 (as amended). With force, and provided no entry of the destination
    clashes in kind with the source (no regular file where the source has a
    directory, no directory where it has a file), no conflict is recorded,
    every source file is found at its target with the content of the source,
    whether the target existed or not, and the command returns 0. *)
Theorem force_overwrites_everything (E : env) (a : args) (s : state)
    (fs0 : gmap (list string) entry) (log1 : requests) (src : source)
    (tree : gmap (list string) entry) (root : list string) :
  reaches_copy E a s fs0 log1 src tree root →
  force a = true →
  Fs.wf (fs s) → Fs.wf (tmp_parent E) →
  dirs_free fs0 (dest a) (Fs.rglob tree root) = true →
  files_free fs0 (dest a) (Fs.rglob tree root) = true →
  ∃ fs',
    copy_loop (dest a) true (Fs.rglob tree root) [] fs0 = (inr [], fs')
    ∧ (∀ rel c, rel ≠ [] → tree !! (root ++ rel) = Some (EFile c) →
         fs' !! (dest a ++ rel) = Some (EFile c))
    ∧ run E a s =
        (inr 0%Z,
         {| fs := fs';
            log := log1 ++ [Download (zipball_url src)];
            stdout := (stdout s ++ banner a src) ++ [PDone] |}).
Proof.
  intros Hreach Hforce Hwf Hout Hdirs Hfiles.
  pose proof (rc_mkdir _ _ _ _ _ _ _ _ Hreach) as Hmk.
  pose proof (mkdir_p_wf _ _ _ _ Hwf Hmk) as Hwf0.
  pose proof (mkdir_p_made _ _ _ Hmk) as Hdest.
  pose proof (unpack_wf _ _ _ _ Hout (rc_unpacked _ _ _ _ _ _ _ _ Hreach)) as Hsrc.
  destruct (copy_walk_complete tree root (dest a) true fs0 Hsrc Hwf0 Hdest Hdirs)
    as (fs' & Hloop & Hinv); [done|].
  pose proof (copy_tree_result _ _ _ _ _ _ Hloop) as Htree.
  rewrite conflicts_of_force in Hloop, Htree.
  exists fs'. split; [done|]. split.
  - intros rel c Hne Hl.
    pose proof (walk_lists _ _ _ _ Hsrc Hne Hl) as Hin.
    rewrite (inv_file_seen _ _ _ _ _ _ Hinv rel c Hin (walk_seen _ _ _ Hin)).
    unfold copied. by rewrite andb_false_r.
  - rewrite (run_copy E _ _ _ _ _ _ _ Hreach), Hforce. simpl. by rewrite Htree.
Qed.

(** C2 as stated fails: the destination has a README (a target that already
    exists) and a regular file [cli] where the source has a directory; force
    is off.  The walk stops with [FileExistsError] at that directory, the
    source file [cli/app.py], whose target does not exist, is not copied, and
    the conflict error is never raised. *)
Lemma conflict_walk_cut_short :
  Fs.exists_ Sample.blocked ["home"; "README.md"] = true
  ∧ Fs.exists_ Sample.blocked ["home"; "cli"; "app.py"] = false
  ∧ (run Sample.online (Sample.into_home false) (Sample.start Sample.blocked)).1
      = inl FileExistsError
  ∧ fs (run Sample.online (Sample.into_home false)
          (Sample.start Sample.blocked)).2 !! ["home"; "cli"; "app.py"] = None.
Proof. repeat split; vm_compute; reflexivity. Qed.

(** C5 as stated fails: with force on and the same destination, the command
    does not return 0 but ends with [FileExistsError] when the walk reaches
    the source directory [cli]. *)
Lemma force_stopped_by_blocking_file :
  Fs.exists_ Sample.blocked ["home"; "README.md"] = true
  ∧ force (Sample.into_home true) = true
  ∧ (run Sample.online (Sample.into_home true) (Sample.start Sample.blocked)).1
      = inl FileExistsError.
Proof. repeat split; vm_compute; reflexivity. Qed.

(** C6 as stated fails: nothing in the destination lies at the target of a
    source file, so that the walk's own test finds no conflicting file, with
    or without force; but [cli] is a regular file where the source has a
    directory.  The copy fails with [FileExistsError] at that directory and
    the source file [cli/app.py] is not copied. *)
Lemma free_destination_blocked_by_file :
  targets_free Sample.free_but_blocked ["home"]
    (Fs.rglob Sample.tree Sample.tree_root) = true
  ∧ conflicts_of Sample.free_but_blocked ["home"] false
      (Fs.rglob Sample.tree Sample.tree_root) = []
  ∧ Sample.tree !! (Sample.tree_root ++ ["cli"; "app.py"])
      = Some (EFile [Byte.x69; Byte.x6d])
  ∧ (_copy_tree Sample.tree Sample.tree_root ["home"] false
       Sample.free_but_blocked).1 = inl FileExistsError
  ∧ (_copy_tree Sample.tree Sample.tree_root ["home"] false
       Sample.free_but_blocked).2 !! ["home"; "cli"; "app.py"] = None
  ∧ (_copy_tree Sample.tree Sample.tree_root ["home"] true
       Sample.free_but_blocked).1 = inl FileExistsError.
Proof. repeat split; vm_compute; reflexivity. Qed.

(** ** The conflict report *)

Lemma mkdirs_from_error rest : ∀ cur (fs : gmap (list string) entry) e fs',
  Fs.mkdirs_from cur rest fs = (inl e, fs') → os_error e = true.
Proof.
  induction rest as [|x rest IH]; intros cur fs e fs'; simpl.
  - destruct (fs !! cur) as [[|c]|]; by intros [= <- _].
  - destruct (fs !! cur) as [[|c]|]; [apply IH|by intros [= <- _]|apply IH].
Qed.

Lemma write_file_error (p : list string) (c : list Byte.byte)
    (fs : gmap (list string) entry) e fs' :
  Fs.write_file p c fs = (inl e, fs') → os_error e = true.
Proof.
  unfold Fs.write_file.
  destruct (fs !! p) as [[|c']|]; [by intros [= <- _]|..];
    destruct (fs !! Fs.parent p) as [[|c'']|]; by intros [= <- _].
Qed.

Lemma copy_loop_error dest force (w : list (list string * entry)) :
  ∀ cs (fs : gmap (list string) entry) e fs',
    copy_loop dest force w cs fs = (inl e, fs') → os_error e = true.
Proof.
  induction w as [|[rel [|c]] w IH]; intros cs fs e fs'; simpl.
  - done.
  - unfold bind. destruct (Fs.mkdir_p (dest ++ rel) fs) as [[e1|[]] fs1] eqn:Hm.
    + intros [= <- _]. by eapply mkdirs_from_error.
    + apply IH.
  - destruct (Fs.exists_ fs (dest ++ rel) && negb force); [apply IH|].
    unfold bind.
    destruct (Fs.mkdir_p (Fs.parent (dest ++ rel)) fs) as [[e1|[]] fs1] eqn:Hm.
    + intros [= <- _]. by eapply mkdirs_from_error.
    + destruct (Fs.copy2 c (Fs.name rel) (dest ++ rel) fs1) as [[e2|[]] fs2] eqn:Hc.
      * intros [= <- _]. by eapply write_file_error.
      * apply IH.
Qed.

Lemma conflict_report_text (cs : list (list string)) :
  conflict_report cs =
    report_text (take 20 cs)
      (if decide (length cs ≤ 20) then None else Some (length cs - 20)).
Proof. unfold conflict_report, report_text. by destruct (decide _). Qed.

(** C7. When the copier fails because of conflicts, its message is the
    report built from the first 20 recorded conflicts at most; when more
    than 20 were recorded, the report also gives the number of the others,
    the total minus 20, and otherwise it gives no such number. *)
Theorem conflict_report_bounded (tree : gmap (list string) entry)
    (root dest : list string) (force : bool) (fs : gmap (list string) entry)
    (msg : string) (fs' : gmap (list string) entry) :
  _copy_tree tree root dest force fs = (inl (RuntimeError msg), fs') →
  ∃ cs examples remaining,
    copy_loop dest force (Fs.rglob tree root) [] fs = (inr cs, fs')
    ∧ cs ≠ []
    ∧ msg = report_text examples remaining
    ∧ examples = take 20 cs
    ∧ length examples = Nat.min 20 (length cs)
    ∧ (20 < length cs → remaining = Some (length cs - 20))
    ∧ (length cs ≤ 20 → remaining = None ∧ examples = cs).
Proof.
  unfold _copy_tree, bind.
  destruct (copy_loop dest force (Fs.rglob tree root) [] fs) as [[e|cs] fs1] eqn:Hl.
  - intros [= -> _]. by apply copy_loop_error in Hl.
  - destruct cs as [|c0 cs]; [done|]. intros [= <- <-].
    exists (c0 :: cs), (take 20 (c0 :: cs)),
      (if decide (length (c0 :: cs) ≤ 20) then None
       else Some (length (c0 :: cs) - 20)).
    split; [done|]. split; [done|]. split; [apply conflict_report_text|].
    split; [done|]. split; [by rewrite length_take|]. split.
    + intros Hlen. destruct (decide _); [lia|done].
    + intros Hlen. destruct (decide _); [|lia]. split; [done|].
      by apply take_ge.
Qed.


(** ** The command: failures before the download *)

Section EarlyExits.
Context (E : env).

Lemma run_mkdir_failed a s e fs1 :
  Fs.mkdir_p (dest a) (fs s) = (inl e, fs1) →
  run E a s = (inl e, {| fs := fs1; log := log s; stdout := stdout s |}).
Proof. intros H. unfold run, bind at 1, on_fs at 1. by rewrite H. Qed.

Lemma run_resolve_failed a s fs0 msg log1 :
  Fs.mkdir_p (dest a) (fs s) = (inr tt, fs0) →
  _resolve_source E (version_of a) (log s) = (inl (RuntimeError msg), log1) →
  run E a s =
    (inr 1%Z, {| fs := fs0; log := log1; stdout := stdout s ++ [PResolveFailed msg] |}).
Proof.
  intros Hmk Hres. unfold run, bind at 1, on_fs at 1. rewrite Hmk.
  unfold bind at 1, attempt at 1, on_net at 1. simpl. by rewrite Hres.
Qed.

Lemma run_no_link a s fs0 src log1 :
  Fs.mkdir_p (dest a) (fs s) = (inr tt, fs0) →
  _resolve_source E (version_of a) (log s) = (inr src, log1) →
  link_truthy (zipball_url src) = false →
  run E a s =
    (inr 1%Z, {| fs := fs0; log := log1; stdout := stdout s ++ [PNoZipball] |}).
Proof.
  intros Hmk Hres Hlink. unfold run, bind at 1, on_fs at 1. rewrite Hmk.
  unfold bind at 1, attempt at 1, on_net at 1. simpl. by rewrite Hres, Hlink.
Qed.

(** Once the destination has been created, nothing that the command does
    removes a directory. *)
Lemma run_keeps_dirs a s fs0 r s' :
  Fs.mkdir_p (dest a) (fs s) = (inr tt, fs0) →
  run E a s = (r, s') → keeps_dirs fs0 (fs s').
Proof.
  intros Hmk.
  destruct (_resolve_source E (version_of a) (log s)) as [[e|src] log1] eqn:Hres.
  - unfold run, bind at 1, on_fs at 1. rewrite Hmk.
    unfold bind at 1, attempt at 1, on_net at 1. simpl. rewrite Hres.
    destruct e; intros [= _ <-]; apply keeps_dirs_refl.
  - destruct (link_truthy (zipball_url src)) eqn:Hlink.
    + destruct (unpack E (zipball_url src)) as [e|[tree root]] eqn:Hunp.
      * unfold run, bind at 1, on_fs at 1. rewrite Hmk.
        unfold bind at 1, attempt at 1, on_net at 1. simpl. rewrite Hres, Hlink.
        simpl. unfold bind at 1 2 3 4, print. simpl.
        unfold bind at 1, attempt at 1.
        rewrite download_and_extract_unpack, Hunp. simpl.
        destruct e; intros [= _ <-]; apply keeps_dirs_refl.
      * rewrite (run_copy E a s fs0 log1 src tree root); [|by split]. simpl.
        destruct (_copy_tree tree root (dest a) (force a) fs0)
          as [[e|[]] fs'] eqn:Hc; apply copy_tree_keeps in Hc;
          [destruct e|]; by intros [= _ <-].
    + rewrite (run_no_link _ _ _ _ _ Hmk Hres Hlink).
      intros [= _ <-]. apply keeps_dirs_refl.
Qed.

End EarlyExits.

(** C9 (as amended). The destination directory is created before anything
    else.  When its creation succeeds, the destination is a directory at the
    end of the run, whatever the outcome; when it fails, the run ends with
    that error of the file system, with nothing requested and nothing
    printed.  So a run that returns an exit code, or that has sent any
    request, ends with the destination present as a directory.  In
    particular, when the directory could be created and resolution then
    fails, the command returns 1, the file system is the one left by the
    creation of the destination, which is a directory in it, and no download
    has been requested. *)
Theorem destination_created_first (E : env) (a : args) (s : state) :
  (∀ fs0 r s', Fs.mkdir_p (dest a) (fs s) = (inr tt, fs0) →
       run E a s = (r, s') → Fs.is_dir (fs s') (dest a) = true)
  ∧ (∀ e fs1, Fs.mkdir_p (dest a) (fs s) = (inl e, fs1) →
       run E a s = (inl e, {| fs := fs1; log := log s; stdout := stdout s |})
       ∧ os_error e = true)
  ∧ (∀ c s', run E a s = (inr c, s') → Fs.is_dir (fs s') (dest a) = true)
  ∧ (∀ r s', run E a s = (r, s') → log s' ≠ log s →
       Fs.is_dir (fs s') (dest a) = true)
  ∧ (∀ fs0 msg log1,
       Fs.mkdir_p (dest a) (fs s) = (inr tt, fs0) →
       _resolve_source E (version_of a) (log s) = (inl (RuntimeError msg), log1) →
       run E a s =
         (inr 1%Z,
          {| fs := fs0; log := log1; stdout := stdout s ++ [PResolveFailed msg] |})
       ∧ Fs.is_dir fs0 (dest a) = true
       ∧ ∀ u, Download u ∈ log1 → Download u ∈ log s).
Proof.
  assert (Hmade : ∀ fs0 r s', Fs.mkdir_p (dest a) (fs s) = (inr tt, fs0) →
            run E a s = (r, s') → Fs.is_dir (fs s') (dest a) = true).
  { intros fs0 r s' Hmk Hrun. apply is_dir_true.
    apply (run_keeps_dirs E _ _ _ _ _ Hmk Hrun).
    apply is_dir_true. by eapply mkdir_p_made. }
  assert (Hcases : ∀ r s', run E a s = (r, s') →
            (∃ e, r = inl e ∧ log s' = log s) ∨ Fs.is_dir (fs s') (dest a) = true).
  { intros r s' Hrun.
    destruct (Fs.mkdir_p (dest a) (fs s)) as [[e|[]] fs0] eqn:Hmk.
    - left. rewrite (run_mkdir_failed E _ _ _ _ Hmk) in Hrun.
      injection Hrun as <- <-. by exists e.
    - right. by eapply Hmade. }
  split; [exact Hmade|]. split; [|split; [|split]].
  - intros e fs1 Hmk. split; [by apply run_mkdir_failed|].
    by eapply mkdirs_from_error.
  - intros c s' Hrun. by destruct (Hcases _ _ Hrun) as [(e & ? & _)|?].
  - intros r s' Hrun Hlog. by destruct (Hcases _ _ Hrun) as [(e & _ & ?)|?].
  - intros fs0 msg log1 Hmk Hres. split; [by apply run_resolve_failed|].
    split; [by eapply mkdir_p_made|].
    intros u. by eapply resolve_no_download.
Qed.

(** C9 as stated fails: the destination is the path of a regular file.  The
    creation of the directory raises [FileExistsError], the command ends
    with it before any request, and no directory exists at the destination
    afterwards. *)
Lemma destination_is_a_regular_file :
  Fs.is_file Sample.blocked (dest Sample.onto_file) = true
  ∧ (run Sample.online Sample.onto_file (Sample.start Sample.blocked)).1
      = inl FileExistsError
  ∧ log (run Sample.online Sample.onto_file (Sample.start Sample.blocked)).2 = []
  ∧ Fs.is_dir (fs (run Sample.online Sample.onto_file
                     (Sample.start Sample.blocked)).2)
      (dest Sample.onto_file) = false.
Proof. repeat split; vm_compute; reflexivity. Qed.



(** C10. When the resolved source has no usable archive link, which the
    tag fallbacks allow since they copy the tag's [zipball_url] as it
    is, the command prints the missing-link message and returns 1; the log
    is the one left by the resolver, so that no download is requested, and
    the file system is the one left by the creation of the destination. *)
Theorem missing_link_stops_before_download (E : env) (a : args) (s : state)
    (fs0 : gmap (list string) entry) (src : source) (log1 : requests) :
  Fs.mkdir_p (dest a) (fs s) = (inr tt, fs0) →
  _resolve_source E (version_of a) (log s) = (inr src, log1) →
  link_truthy (zipball_url src) = false →
  run E a s =
    (inr 1%Z, {| fs := fs0; log := log1; stdout := stdout s ++ [PNoZipball] |})
  ∧ ∀ u, Download u ∈ log1 → Download u ∈ log s.
Proof.
  intros Hmk Hres Hlink. split; [by eapply run_no_link|].
  intros u. by eapply resolve_no_download.
Qed.



(** ** Sample runs *)

Lemma mkdir_p_succeeds (p : list string) (fs : gmap (list string) entry) :
  is_ok (Fs.mkdir_p p fs).1 = true →
  Fs.mkdir_p p fs = (inr tt, (Fs.mkdir_p p fs).2).
Proof. by destruct (Fs.mkdir_p p fs) as [[e|[]] fs']. Qed.

Lemma unpack_succeeds (E : env) (url : link) :
  is_ok (unpack E url) = true → unpack E url = inr (Sample.unpacked E url).
Proof. unfold Sample.unpacked. by destruct (unpack E url). Qed.

Lemma online_reaches_copy (fs0 : gmap (list string) entry) (force : bool) :
  is_ok (Fs.mkdir_p ["home"] fs0).1 = true →
  reaches_copy Sample.online (Sample.into_home force) (Sample.start fs0)
    (Sample.prepared (Sample.into_home force) fs0)
    [ApiGet latest_url] Sample.release_source Sample.tree Sample.tree_root.
Proof.
  intros H. split.
  - by apply mkdir_p_succeeds.
  - vm_compute. reflexivity.
  - reflexivity.
  - unfold Sample.tree, Sample.tree_root. rewrite <- surjective_pairing.
    apply unpack_succeeds. vm_compute. reflexivity.
Qed.

Lemma copy_into_free_destination_witness :
  ∃ fs', _copy_tree Sample.tree Sample.tree_root ["home"] false Sample.home
           = (inr tt, fs')
    ∧ fs' !! ["home"; "cli"; "app.py"] = Some (EFile [Byte.x69; Byte.x6d]).
Proof.
  destruct (copy_into_free_destination Sample.tree Sample.tree_root ["home"]
              false Sample.home) as (fs' & _ & Htree & Hfiles).
  - apply (bool_decide_unpack (Fs.wf Sample.tree)). vm_compute. exact I.
  - apply (bool_decide_unpack (Fs.wf Sample.home)). vm_compute. exact I.
  - vm_compute. reflexivity.
  - vm_compute. reflexivity.
  - vm_compute. reflexivity.
  - exists fs'. split; [exact Htree|].
    apply (Hfiles ["cli"; "app.py"]); [discriminate|]. vm_compute. reflexivity.
Defined.

Lemma conflicts_reported_after_full_walk_witness :
  (run Sample.online (Sample.into_home false) (Sample.start Sample.occupied)).1
    = inr 1%Z.
Proof.
  destruct (conflicts_reported_after_full_walk Sample.online
              (Sample.into_home false) (Sample.start Sample.occupied)
              (Sample.prepared (Sample.into_home false) Sample.occupied)
              [ApiGet latest_url] Sample.release_source
              Sample.tree Sample.tree_root)
    as (fs' & _ & _ & _ & _ & Hfail).
  - apply online_reaches_copy. vm_compute. reflexivity.
  - reflexivity.
  - apply (bool_decide_unpack (Fs.wf Sample.occupied)). vm_compute. exact I.
  - apply workspace_wf.
  - vm_compute. reflexivity.
  - destruct Hfail as [_ Hrun]; [vm_compute; discriminate|].
    rewrite Hrun. reflexivity.
Defined.

Lemma force_overwrites_everything_witness :
  ∃ s', run Sample.online (Sample.into_home true) (Sample.start Sample.occupied)
          = (inr 0%Z, s')
    ∧ fs s' !! ["home"; "README.md"] = Some (EFile [Byte.x23; Byte.x20; Byte.x4c]).
Proof.
  destruct (force_overwrites_everything Sample.online
              (Sample.into_home true) (Sample.start Sample.occupied)
              (Sample.prepared (Sample.into_home true) Sample.occupied)
              [ApiGet latest_url] Sample.release_source
              Sample.tree Sample.tree_root)
    as (fs' & _ & Hfiles & Hrun).
  - apply online_reaches_copy. vm_compute. reflexivity.
  - reflexivity.
  - apply (bool_decide_unpack (Fs.wf Sample.occupied)). vm_compute. exact I.
  - apply workspace_wf.
  - vm_compute. reflexivity.
  - vm_compute. reflexivity.
  - eexists. split; [exact Hrun|].
    apply (Hfiles ["README.md"]); [discriminate|]. vm_compute. reflexivity.
Defined.

Lemma conflict_report_bounded_witness :
  ∃ examples,
    (_copy_tree (Sample.crowd "pkg") ["pkg"] ["home"] false (Sample.crowd "home")).1
      = inl (RuntimeError (report_text examples (Some 1)))
    ∧ length examples = 20.
Proof.
  assert (H1 : (_copy_tree (Sample.crowd "pkg") ["pkg"] ["home"] false
                  (Sample.crowd "home")).1
               = inl (RuntimeError (conflict_report Sample.crowd_conflicts)))
    by (vm_compute; reflexivity).
  assert (Hl0 : (copy_loop ["home"] false (Fs.rglob (Sample.crowd "pkg") ["pkg"])
                   [] (Sample.crowd "home")).1 = inr Sample.crowd_conflicts)
    by (vm_compute; reflexivity).
  assert (Hn : length Sample.crowd_conflicts = 21) by (vm_compute; reflexivity).
  destruct (conflict_report_bounded (Sample.crowd "pkg") ["pkg"] ["home"] false
              (Sample.crowd "home") (conflict_report Sample.crowd_conflicts)
              (_copy_tree (Sample.crowd "pkg") ["pkg"] ["home"] false
                 (Sample.crowd "home")).2)
    as (cs & examples & remaining & Hloop & _ & Hmsg & _ & Hlen & Hmore & _).
  { rewrite <- H1. apply surjective_pairing. }
  assert (Hcs : length cs = 21).
  { rewrite Hloop in Hl0. rewrite <- Hn.
    exact (f_equal (λ r : exn + list (list string),
                      match r with inr l => length l | inl _ => 0 end) Hl0). }
  exists examples. split.
  - rewrite H1, Hmsg, Hmore by lia. rewrite Hcs. reflexivity.
  - rewrite Hlen, Hcs. reflexivity.
Defined.

Lemma destination_created_first_witness :
  (run Sample.tagged Sample.into_new_dir (Sample.start Sample.home)).1 = inr 1%Z
  ∧ Fs.is_dir (Sample.prepared Sample.into_new_dir Sample.home)
      ["home"; "work"; "fox"] = true.
Proof.
  destruct (destination_created_first Sample.tagged Sample.into_new_dir
              (Sample.start Sample.home)) as (_ & _ & _ & _ & H).
  destruct (H (Sample.prepared Sample.into_new_dir Sample.home)
              (not_found_msg "v9.9.9")
              [ApiGet (release_url "v9.9.9"); ApiGet (tags_url "100")])
    as (Hrun & Hdir & _).
  - apply mkdir_p_succeeds. vm_compute. reflexivity.
  - vm_compute. reflexivity.
  - split; [|exact Hdir]. rewrite Hrun. reflexivity.
Defined.

Lemma missing_link_stops_before_download_witness :
  (run Sample.tag_without_link (Sample.into_home false)
     (Sample.start Sample.home)).1 = inr 1%Z
  ∧ stdout (run Sample.tag_without_link (Sample.into_home false)
              (Sample.start Sample.home)).2 = [PNoZipball].
Proof.
  destruct (missing_link_stops_before_download Sample.tag_without_link
              (Sample.into_home false) (Sample.start Sample.home)
              (Sample.prepared (Sample.into_home false) Sample.home)
              {| source_type := Label "latest tag"; tag_name := JStr "v0.1.0";
                 zipball_url := Given JNull |}
              [ApiGet latest_url; ApiGet (tags_url "1")]) as [Hrun _].
  - apply mkdir_p_succeeds. vm_compute. reflexivity.
  - vm_compute. reflexivity.
  - reflexivity.
  - rewrite Hrun. split; reflexivity.
Defined.

(** ** The archive extractor: root folder *)

Lemma before_slash_sample :
  Str.before_slash "projectname-abcdef/" = "projectname-abcdef".
Proof. reflexivity. Qed.

(** A name that [_detect_root_folder] skips: empty, or metadata. *)
Lemma detect_root_skips (z : zentry) (archive : list zentry) :
  zname z = "" ∨ Str.startswith (zname z) "__MACOSX/" = true →
  _detect_root_folder (z :: archive) = _detect_root_folder archive.
Proof.
  intros H. unfold _detect_root_folder. simpl. rewrite filter_cons_False; [done|].
  intros [Hne Hs]. destruct H as [H|H]; congruence.
Qed.

(** The first name that is neither empty nor metadata gives the root: the
    text before its first slash. *)
Lemma detect_root_first (z : zentry) (archive : list zentry) :
  zname z ≠ "" → Str.startswith (zname z) "__MACOSX/" = false →
  _detect_root_folder (z :: archive) = inr (Str.before_slash (zname z)).
Proof.
  intros Hne Hs. unfold _detect_root_folder. simpl.
  by rewrite filter_cons_True.
Qed.

Lemma detect_root_empty (archive : list zentry) :
  Forall (λ z, zname z = "" ∨ Str.startswith (zname z) "__MACOSX/" = true) archive →
  _detect_root_folder archive = inl (RuntimeError "压缩包为空。").
Proof.
  induction 1 as [|z archive Hz _ IH]; [done|]. by rewrite detect_root_skips.
Qed.

(** What [unpack] hands to the copier is the place that the root name
    designates; inside the workspace that place exists. *)
Lemma unpack_root (E : env) (url : link) (tree : gmap (list string) entry)
    (root : list string) :
  unpack E url = inr (tree, root) →
  ∃ raw archive root_name,
    fetch E url = Body raw ∧ unzip E raw = Some archive
    ∧ _detect_root_folder archive = inr root_name
    ∧ match workspace_join root_name with
      | Inside p => root = p ∧ Fs.exists_ tree p = true
      | Above => root = [] ∧ tree = tmp_parent E
      end.
Proof.
  unfold unpack. destruct (fetch E url) as [raw| | |] eqn:Hf; try done.
  destruct (in_workspace _ _) as [e|ws] eqn:Hw; [done|].
  assert (Hzip : ws !! ["source.zip"] = Some (EFile raw)).
  { unfold in_workspace, Fs.write_file in Hw. simpl in Hw.
    rewrite lookup_singleton_ne in Hw by done.
    rewrite lookup_singleton_eq in Hw. injection Hw as <-.
    by rewrite lookup_insert_eq. }
  unfold open_zip. rewrite Hzip.
  destruct (unzip E raw) as [archive|] eqn:Hu; [|done].
  destruct (_detect_root_folder archive) as [e|root_name] eqn:Hd; [done|].
  destruct (in_workspace (extractall archive) ws) as [e|ws'] eqn:Hx; [done|].
  intros H. exists raw, archive, root_name. repeat (split; [done|]).
  destruct (workspace_join root_name) as [p|].
  - destruct (Fs.exists_ ws' p) eqn:Hex; [|done]. by injection H as <- <-.
  - by injection H as <- <-.
Qed.

(** C8 (the code departs from it). The archive holds one file, [README.md],
    at the top level.  The root name is taken from it; after extraction
    something with that name exists but it is not a directory; the extractor
    does not fail: the walk of a regular file is empty, nothing is copied,
    and the command returns 0 after printing that it is done. *)
Theorem top_level_file_taken_for_root :
  _detect_root_folder [ {| zname := "README.md"; zdata := [Byte.x23] |} ]
    = inr "README.md"
  ∧ is_ok (unpack Sample.flat (zipball_url Sample.release_source)) = true
  ∧ (Sample.unpacked Sample.flat (zipball_url Sample.release_source)).2
      = ["README.md"]
  ∧ Fs.is_dir (Sample.unpacked Sample.flat (zipball_url Sample.release_source)).1
      ["README.md"] = false
  ∧ (run Sample.flat (Sample.into_home false) (Sample.start Sample.home)).1
      = inr 0%Z
  ∧ last (stdout (run Sample.flat (Sample.into_home false)
                    (Sample.start Sample.home)).2) = Some PDone
  ∧ Fs.exists_ (fs (run Sample.flat (Sample.into_home false)
                      (Sample.start Sample.home)).2) ["home"; "README.md"] = false.
Proof. repeat split; vm_compute; reflexivity. Qed.

(** With the archive that the upstream serves, only what is inside the
    wrapper folder arrives in the destination, at paths relative to that
    folder; the folder itself is not created there. *)
Lemma wrapper_folder_not_copied :
  Sample.tree_root = ["LazyFox-abc123"]
  ∧ (run Sample.online (Sample.into_home false) (Sample.start Sample.home)).1
      = inr 0%Z
  ∧ fs (run Sample.online (Sample.into_home false)
          (Sample.start Sample.home)).2 !! ["home"; "cli"; "app.py"]
      = Some (EFile [Byte.x69; Byte.x6d])
  ∧ Fs.exists_ (fs (run Sample.online (Sample.into_home false)
                      (Sample.start Sample.home)).2) ["home"; "LazyFox-abc123"]
      = false.
Proof. repeat split; vm_compute; reflexivity. Qed.

(** * Further properties *)

(** ** The resolver: requests *)

Lemma api_upto_weaken {A} n n' (m : M requests A) :
  n ≤ n' → api_upto n m → api_upto n' m.
Proof.
  intros Hn Hm l. destruct (Hm l) as (k & ? & ? & ?). exists k.
  repeat split; [done..|lia].
Qed.

Lemma api_upto_ret {A} (a : A) : api_upto 0 (ret a).
Proof. intros l. exists []. by rewrite app_nil_r. Qed.

Lemma api_upto_raise {A} e : api_upto 0 (raise (A:=A) e).
Proof. intros l. exists []. by rewrite app_nil_r. Qed.

Lemma api_upto_get j k : api_upto 0 (Py.get j k).
Proof. destruct j; simpl; auto using @api_upto_ret, @api_upto_raise. Qed.

Lemma api_upto_api_get (E : env) url : api_upto 1 (_api_get E url).
Proof. intros l. exists [ApiGet url]. by rewrite api_get_log. Qed.

Lemma api_upto_bind {A B} n1 n2 (m : M requests A) (k : A → M requests B) :
  api_upto n1 m → (∀ a, api_upto n2 (k a)) → api_upto (n1 + n2) (bind m k).
Proof.
  intros Hm Hk l. unfold bind. destruct (Hm l) as (k1 & E1 & F1 & L1).
  destruct (m l) as [[e|a] l1]; simpl in E1; subst l1.
  - exists k1. repeat split; [done..|lia].
  - destruct (Hk a (l ++ k1)) as (k2 & E2 & F2 & L2). exists (k1 ++ k2).
    rewrite E2, app_assoc. split; [done|]. rewrite forallb_app, length_app.
    rewrite F1, F2. split; [done|lia].
Qed.

Lemma api_upto_scan_tags version items : api_upto 0 (scan_tags version items).
Proof.
  induction items as [|item items IH]; simpl; [apply api_upto_ret|].
  apply (api_upto_bind 0 0); [apply api_upto_get|]. intros name.
  destruct (Py.eq_str _ _); [|done].
  apply (api_upto_bind 0 0); [apply api_upto_get|]. intros. apply api_upto_ret.
Qed.

Lemma api_upto_default_branch (E : env) : api_upto 1 (_default_branch_source E).
Proof.
  apply (api_upto_bind 1 0); [apply api_upto_api_get|].
  intros [| | | | |d]; try apply api_upto_raise.
  cbv zeta. destruct (negb (Py.truthy _)); [apply api_upto_raise|apply api_upto_ret].
Qed.

Lemma try_release_log (E : env) url kind fb l :
  (try_release E url kind fb l).2 = l ++ [ApiGet url].
Proof.
  unfold try_release, catch, bind, _api_get.
  destruct (api E url) as [[| | | | |d]|code body|reason|]; simpl; try done.
  - by destruct (Py.truthy _).
  - by destruct (negb _).
  - by destruct (negb _).
Qed.

(** What follows the guarded first step. *)
Lemma resolve_rest (E : env) (version : string) :
  ∃ k : option source → M requests source,
    _resolve_source E version = bind (try_release E (first_url version)
        (if String.eqb version "latest" then "latest release" else "release tag")
        version) k
    ∧ ∀ early, api_upto (if String.eqb version "latest" then 2 else 1) (k early).
Proof.
  unfold _resolve_source, first_url.
  destruct (String.eqb_spec version "latest") as [->|Hv].
  - eexists. split; [reflexivity|]. intros [src|].
    + apply (api_upto_weaken 0); [lia|apply api_upto_ret].
    + apply (api_upto_bind 1 1); [apply api_upto_api_get|].
      intros [| | | |[|first rest]|]; try apply api_upto_default_branch.
      apply (api_upto_weaken 0); [lia|].
      apply (api_upto_bind 0 0); [apply api_upto_get|]. intros.
      apply (api_upto_bind 0 0); [apply api_upto_get|]. intros.
      apply api_upto_ret.
  - eexists. split; [reflexivity|]. intros [src|].
    + apply (api_upto_weaken 0); [lia|apply api_upto_ret].
    + apply (api_upto_bind 1 0); [apply api_upto_api_get|]. intros tags.
      apply (api_upto_bind 0 0).
      * destruct tags; try apply api_upto_ret. apply api_upto_scan_tags.
      * intros [src|]; [apply api_upto_ret|apply api_upto_raise].
Qed.

(** X1. Whatever the replies, resolving a version sends metadata requests
    only, the first of them to the release endpoint of that version, and
    no more than three for "latest" and two for an explicit version. *)
Theorem resolve_requests_bounded (E : env) (version : string) (l : requests) :
  ∃ k, (_resolve_source E version l).2 = l ++ ApiGet (first_url version) :: k
    ∧ forallb is_api k = true
    ∧ length k ≤ (if String.eqb version "latest" then 2 else 1).
Proof.
  destruct (resolve_rest E version) as (K & -> & HK).
  unfold bind. pose proof (try_release_log E (first_url version)
    (if String.eqb version "latest" then "latest release" else "release tag")
    version l) as Hlog.
  destruct (try_release _ _ _ _ l) as [[e|early] l1]; simpl in Hlog; subst l1.
  - exists []. split; [done|]. split; [done|].
    destruct (String.eqb version "latest"); simpl; lia.
  - destruct (HK early (l ++ [ApiGet (first_url version)])) as (k & Hk & Hall & Hlen).
    exists k. by rewrite Hk, <- app_assoc.
Qed.

(** ** The resolver: what it returns *)

Lemma try_release_some (E : env) url kind fb l src l' :
  try_release E url kind fb l = (inr (Some src), l') →
  link_truthy (zipball_url src) = true ∧ source_type src = Label kind.
Proof.
  unfold try_release, catch, bind, _api_get.
  destruct (api E url) as [[| | | | |d]|code body|reason|]; simpl; try done.
  - destruct (Py.truthy (Py.dict_get d "zipball_url")) eqn:Ht; [|done].
    by intros [= <- _].
  - by destruct (negb _).
  - by destruct (negb _).
Qed.

Lemma scan_tags_some version items l src l' :
  scan_tags version items l = (inr (Some src), l') →
  source_type src = Label "git tag" ∧ tag_name src = JStr version.
Proof.
  induction items as [|item items IH]; simpl; [done|].
  unfold bind. destruct item; simpl; try done.
  destruct (Py.eq_str _ _); [|done]. by intros [= <- _].
Qed.

Lemma default_branch_some (E : env) l src l' :
  _default_branch_source E l = (inr src, l') →
  link_truthy (zipball_url src) = true.
Proof.
  unfold _default_branch_source, bind, _api_get.
  destruct (api E API_BASE) as [[| | | | |d]| | |]; simpl; try done.
  destruct (negb _); [done|]. by intros [= <- _].
Qed.

(** X2. A resolved source that lacks a usable archive link always comes from
    one of the two tag fallbacks: the release steps return only after
    testing the link, and the default-branch step builds the link itself. *)
Theorem missing_link_only_from_tags (E : env) (version : string)
    (l l' : requests) (src : source) :
  _resolve_source E version l = (inr src, l') →
  link_truthy (zipball_url src) = false →
  source_type src = Label "latest tag" ∨ source_type src = Label "git tag".
Proof.
  unfold _resolve_source. destruct (String.eqb version "latest").
  - unfold bind at 1.
    destruct (try_release _ _ _ _ l) as [[e|[found|]] l1] eqn:Ht; [done|..].
    + intros [= <- _] Hl. apply try_release_some in Ht as [Ht _]. congruence.
    + unfold bind at 1, _api_get.
      destruct (api E (tags_url "1")) as [[| | | |[|first rest]|]| | |];
        simpl; try done;
        try (intros H%default_branch_some Hl; congruence).
      destruct first; try done. unfold bind. simpl. intros [= <- _] _. by left.
  - unfold bind at 1.
    destruct (try_release _ _ _ _ l) as [[e|[found|]] l1] eqn:Ht; [done|..].
    + intros [= <- _] Hl. apply try_release_some in Ht as [Ht _]. congruence.
    + unfold bind at 1, _api_get.
      destruct (api E (tags_url "100")) as [tags| | |]; simpl; try done.
      unfold bind. destruct tags as [| | | |items|]; simpl; try done.
      destruct (scan_tags version items _) as [[e|[found|]] l2] eqn:Hs; try done.
      intros [= <- _] _. right. by apply scan_tags_some in Hs as [? _].
Qed.

Lemma missing_link_only_from_tags_witness :
  source_type {| source_type := Label "latest tag"; tag_name := JStr "v0.1.0";
                 zipball_url := Given JNull |} = Label "latest tag"
  ∨ source_type {| source_type := Label "latest tag"; tag_name := JStr "v0.1.0";
                   zipball_url := Given JNull |} = Label "git tag".
Proof.
  apply (missing_link_only_from_tags Sample.tag_without_link "latest" []
           [ApiGet latest_url; ApiGet (tags_url "1")]); reflexivity.
Defined.

Lemma scan_tags_first version pre : ∀ d rest l,
  forallb (other_tag version) pre = true →
  Py.dict_get d "name" = JStr version →
  scan_tags version (pre ++ JDict d :: rest) l =
    (inr (Some {| source_type := Label "git tag";
                  tag_name := JStr version;
                  zipball_url := Given (Py.dict_get d "zipball_url") |}), l).
Proof.
  induction pre as [|item pre IH]; intros d rest l Hpre Hname; simpl.
  - unfold bind. simpl. rewrite Hname. simpl. by rewrite String.eqb_refl.
  - simpl in Hpre. apply andb_true_iff in Hpre as [Hi Hpre].
    destruct item; try done. simpl in Hi. unfold bind. simpl.
    destruct (Py.eq_str _ _); [done|]. by apply IH.
Qed.

(** X3. For an explicit version without a release, the tags page is scanned
    in order and the first tag object whose name equals the version is
    returned as a "git tag" source with that object's link; tags after it
    are not looked at, and two requests were sent. *)
Theorem resolve_first_matching_tag (E : env) (version : string)
    (pre rest : list json) (d : list (string * json)) (l : requests) :
  version ≠ "latest" →
  no_release (api E (release_url version)) = true →
  api E (tags_url "100") = Reply (JList (pre ++ JDict d :: rest)) →
  forallb (other_tag version) pre = true →
  Py.dict_get d "name" = JStr version →
  _resolve_source E version l =
    (inr {| source_type := Label "git tag";
            tag_name := JStr version;
            zipball_url := Given (Py.dict_get d "zipball_url") |},
     l ++ [ApiGet (release_url version); ApiGet (tags_url "100")]).
Proof.
  intros Hv Hrel Htags Hpre Hname. rewrite (resolve_source_explicit E _ Hv).
  unfold bind at 1. rewrite (try_release_none E _ _ _ _ Hrel).
  rewrite (bind_api_reply E _ _ _ _ Htags), <- app_assoc. simpl.
  unfold bind. by rewrite (scan_tags_first _ _ _ _ _ Hpre Hname).
Qed.

Lemma resolve_first_matching_tag_witness :
  _resolve_source Sample.tagged "v1.0.0" [] =
    (inr {| source_type := Label "git tag";
            tag_name := JStr "v1.0.0";
            zipball_url := Given (JStr "https://example.org/v1.zip") |},
     [ApiGet (release_url "v1.0.0"); ApiGet (tags_url "100")]).
Proof.
  apply (resolve_first_matching_tag Sample.tagged "v1.0.0" [] []
           [("name", JStr "v1.0.0"); ("zipball_url", JStr "https://example.org/v1.zip")]
           []); [discriminate|reflexivity..].
Defined.

(** X4. For an explicit version whose release endpoint answers with an
    object that has an archive link, that release is returned after this one
    request, and its tag name is the version asked for when the object has
    none of its own. *)
Theorem resolve_release_by_tag (E : env) (version : string)
    (d : list (string * json)) (l : requests) :
  version ≠ "latest" →
  api E (release_url version) = Reply (JDict d) →
  Py.truthy (Py.dict_get d "zipball_url") = true →
  _resolve_source E version l =
    (inr {| source_type := Label "release tag";
            tag_name := Py.or (Py.dict_get d "tag_name") (JStr version);
            zipball_url := Given (Py.dict_get d "zipball_url") |},
     l ++ [ApiGet (release_url version)])
  ∧ (Py.truthy (Py.dict_get d "tag_name") = false →
     (_resolve_source E version l).1 =
       inr {| source_type := Label "release tag";
              tag_name := JStr version;
              zipball_url := Given (Py.dict_get d "zipball_url") |}).
Proof.
  intros Hv Hrel Ht.
  assert (Hres : _resolve_source E version l =
    (inr {| source_type := Label "release tag";
            tag_name := Py.or (Py.dict_get d "tag_name") (JStr version);
            zipball_url := Given (Py.dict_get d "zipball_url") |},
     l ++ [ApiGet (release_url version)])).
  { rewrite (resolve_source_explicit E _ Hv). unfold bind at 1.
    by rewrite (try_release_found E _ _ _ d _ Hrel Ht). }
  split; [done|]. intros Hn. rewrite Hres. cbn [fst]. unfold Py.or.
  by rewrite Hn.
Qed.

Lemma resolve_release_by_tag_witness :
  (_resolve_source Sample2.by_tag "v2.0.0" []).1 =
    inr {| source_type := Label "release tag";
           tag_name := JStr "v2.0.0";
           zipball_url := Given (JStr "https://example.org/v2.zip") |}.
Proof.
  apply (resolve_release_by_tag Sample2.by_tag "v2.0.0"
           [("zipball_url", JStr "https://example.org/v2.zip")] []);
    [discriminate|reflexivity..].
Defined.

(** ** The command: failures after resolution *)

Section LateExits.
Context (E : env).

Lemma run_resolve_raised a s fs0 e log1 :
  Fs.mkdir_p (dest a) (fs s) = (inr tt, fs0) →
  _resolve_source E (version_of a) (log s) = (inl e, log1) →
  (∀ msg, e ≠ RuntimeError msg) →
  run E a s = (inl e, {| fs := fs0; log := log1; stdout := stdout s |}).
Proof.
  intros Hmk Hres He. unfold run, bind at 1, on_fs at 1. rewrite Hmk.
  unfold bind at 1, attempt at 1, on_net at 1. simpl. rewrite Hres.
  destruct e; try done. by destruct (He msg).
Qed.

Lemma run_unpack_failed a s fs0 src log1 e :
  Fs.mkdir_p (dest a) (fs s) = (inr tt, fs0) →
  _resolve_source E (version_of a) (log s) = (inr src, log1) →
  link_truthy (zipball_url src) = true →
  unpack E (zipball_url src) = inl e →
  run E a s =
    (match e with RuntimeError _ => inr 1%Z | _ => inl e end,
     {| fs := fs0;
        log := log1 ++ [Download (zipball_url src)];
        stdout := (stdout s ++ banner a src)
                    ++ match e with RuntimeError msg => [PInitFailed msg] | _ => [] end |}).
Proof.
  intros Hmk Hres Hlink Hunp. unfold run, bind at 1, on_fs at 1. rewrite Hmk.
  unfold bind at 1, attempt at 1, on_net at 1. simpl. rewrite Hres, Hlink.
  simpl. unfold bind at 1 2 3 4, print. simpl.
  unfold bind at 1, attempt at 1. rewrite download_and_extract_unpack, Hunp.
  simpl. destruct e; unfold bind, print, ret, banner; simpl;
    by rewrite <- ?app_assoc, ?app_nil_r.
Qed.

End LateExits.

(** X5. When the listing of the most recent tag holds something that is not
    an object, reading its name fails with [AttributeError]; the command
    does not catch it, so it ends with that exception instead of an exit
    code, after two requests and with nothing printed. *)
Theorem tag_listing_without_objects (E : env) (a : args) (s : state)
    (fs0 : gmap (list string) entry) (first : json) (rest : list json) :
  version_of a = "latest" →
  Fs.mkdir_p (dest a) (fs s) = (inr tt, fs0) →
  no_release (api E latest_url) = true →
  api E (tags_url "1") = Reply (JList (first :: rest)) →
  is_object first = false →
  run E a s =
    (inl AttributeError,
     {| fs := fs0;
        log := log s ++ [ApiGet latest_url; ApiGet (tags_url "1")];
        stdout := stdout s |}).
Proof.
  intros Hv Hmk Hrel Htags Hobj. apply run_resolve_raised; [done| |done].
  rewrite Hv, resolve_source_latest. unfold bind at 1.
  rewrite (try_release_none E _ _ _ _ Hrel).
  rewrite (bind_api_reply E _ _ _ _ Htags), <- app_assoc.
  by destruct first.
Qed.

Lemma tag_listing_without_objects_witness :
  (run Sample2.bare_names (Sample.into_home false) (Sample.start Sample.home)).1
    = inl AttributeError.
Proof.
  rewrite (tag_listing_without_objects Sample2.bare_names (Sample.into_home false)
             (Sample.start Sample.home)
             (Sample.prepared (Sample.into_home false) Sample.home)
             (JStr "v1.0.0") []).
  - reflexivity.
  - reflexivity.
  - apply mkdir_p_succeeds. vm_compute. reflexivity.
  - reflexivity.
  - reflexivity.
  - reflexivity.
Defined.

(** X6. When the archive request fails with an HTTP status or at the network
    level, the command returns 1 and prints the failure with the status and
    body, or with the reason; exactly one download was requested and the
    file system is as the creation of the destination left it. *)
Theorem download_failure_reported (E : env) (a : args) (s : state)
    (fs0 : gmap (list string) entry) (src : source) (log1 : requests)
    (msg : string) :
  Fs.mkdir_p (dest a) (fs s) = (inr tt, fs0) →
  _resolve_source E (version_of a) (log s) = (inr src, log1) →
  link_truthy (zipball_url src) = true →
  match fetch E (zipball_url src) with
  | DlHTTPError code body =>
      msg = "下载失败 HTTP " +:+ Str.decimal code +:+ ": " +:+ body
  | DlURLError reason => msg = "下载失败: " +:+ reason
  | _ => False
  end →
  run E a s =
    (inr 1%Z,
     {| fs := fs0;
        log := log1 ++ [Download (zipball_url src)];
        stdout := (stdout s ++ banner a src) ++ [PInitFailed msg] |}).
Proof.
  intros Hmk Hres Hlink Hf.
  rewrite (run_unpack_failed E a s fs0 src log1 (RuntimeError msg)); try done.
  unfold unpack. destruct (fetch E (zipball_url src)); try done; by subst msg.
Qed.

Lemma download_failure_reported_witness :
  (run Sample2.archive_down (Sample.into_home false) (Sample.start Sample.home)).1
    = inr 1%Z
  ∧ last (stdout (run Sample2.archive_down (Sample.into_home false)
                    (Sample.start Sample.home)).2)
    = Some (PInitFailed "下载失败 HTTP 503: Service Unavailable").
Proof.
  rewrite (download_failure_reported Sample2.archive_down (Sample.into_home false)
             (Sample.start Sample.home)
             (Sample.prepared (Sample.into_home false) Sample.home)
             Sample.release_source [ApiGet latest_url]
             "下载失败 HTTP 503: Service Unavailable").
  - split; reflexivity.
  - apply mkdir_p_succeeds. vm_compute. reflexivity.
  - vm_compute. reflexivity.
  - reflexivity.
  - reflexivity.
Defined.

(** X7. When the downloaded bytes are not a zip archive, opening them fails
    with [BadZipFile]; the command catches [RuntimeError] only, so it ends
    with that exception and no exit code, having printed the banner and
    left the destination as its creation left it. *)
Theorem bad_archive_not_caught (E : env) (a : args) (s : state)
    (fs0 : gmap (list string) entry) (src : source) (log1 : requests)
    (raw : list Byte.byte) :
  Fs.mkdir_p (dest a) (fs s) = (inr tt, fs0) →
  _resolve_source E (version_of a) (log s) = (inr src, log1) →
  link_truthy (zipball_url src) = true →
  fetch E (zipball_url src) = Body raw →
  unzip E raw = None →
  run E a s =
    (inl BadZipFile,
     {| fs := fs0;
        log := log1 ++ [Download (zipball_url src)];
        stdout := stdout s ++ banner a src |}).
Proof.
  intros Hmk Hres Hlink Hf Hz.
  rewrite (run_unpack_failed E a s fs0 src log1 BadZipFile); try done.
  - by rewrite app_nil_r.
  - unfold unpack, in_workspace, Fs.write_file, open_zip. rewrite Hf. simpl.
    rewrite lookup_singleton_ne by done. rewrite lookup_singleton_eq.
    by rewrite lookup_insert_eq, Hz.
Qed.

Lemma bad_archive_not_caught_witness :
  (run Sample2.not_a_zip (Sample.into_home false) (Sample.start Sample.home)).1
    = inl BadZipFile.
Proof.
  rewrite (bad_archive_not_caught Sample2.not_a_zip (Sample.into_home false)
             (Sample.start Sample.home)
             (Sample.prepared (Sample.into_home false) Sample.home)
             Sample.release_source [ApiGet latest_url] [Byte.x3c; Byte.x68]).
  - reflexivity.
  - apply mkdir_p_succeeds. vm_compute. reflexivity.
  - vm_compute. reflexivity.
  - reflexivity.
  - reflexivity.
  - reflexivity.
Defined.

(** X8. An archive in which every member name is empty or metadata is
    reported as empty before anything is extracted: the command returns 1
    with that message and the destination is as its creation left it. *)
Theorem empty_archive_reported (E : env) (a : args) (s : state)
    (fs0 : gmap (list string) entry) (src : source) (log1 : requests)
    (raw : list Byte.byte) (archive : list zentry) :
  Fs.mkdir_p (dest a) (fs s) = (inr tt, fs0) →
  _resolve_source E (version_of a) (log s) = (inr src, log1) →
  link_truthy (zipball_url src) = true →
  fetch E (zipball_url src) = Body raw →
  unzip E raw = Some archive →
  Forall skipped archive →
  run E a s =
    (inr 1%Z,
     {| fs := fs0;
        log := log1 ++ [Download (zipball_url src)];
        stdout := (stdout s ++ banner a src) ++ [PInitFailed "压缩包为空。"] |}).
Proof.
  intros Hmk Hres Hlink Hf Hz Hall.
  rewrite (run_unpack_failed E a s fs0 src log1 (RuntimeError "压缩包为空。"));
    try done.
  unfold unpack, in_workspace, Fs.write_file, open_zip. rewrite Hf. simpl.
  rewrite lookup_singleton_ne by done. rewrite lookup_singleton_eq.
  rewrite lookup_insert_eq, Hz. by rewrite (detect_root_empty archive Hall).
Qed.

Lemma empty_archive_reported_witness :
  (run Sample2.only_metadata (Sample.into_home false) (Sample.start Sample.home)).1
    = inr 1%Z.
Proof.
  rewrite (empty_archive_reported Sample2.only_metadata (Sample.into_home false)
             (Sample.start Sample.home)
             (Sample.prepared (Sample.into_home false) Sample.home)
             Sample.release_source [ApiGet latest_url] [Byte.x50; Byte.x4b]
             [ {| zname := "__MACOSX/._README.md"; zdata := [Byte.x00] |} ]).
  - reflexivity.
  - apply mkdir_p_succeeds. vm_compute. reflexivity.
  - vm_compute. reflexivity.
  - reflexivity.
  - reflexivity.
  - reflexivity.
  - apply Forall_cons. split; [right; reflexivity|apply Forall_nil_2].
Defined.

(** ** The archive extractor: the root name *)

Lemma before_slash_split (s : string) :
  ∃ tail, s = Str.before_slash s +:+ tail ∧ (tail = "" ∨ ∃ t, tail = String "/" t).
Proof.
  induction s as [|c s (tail & IH & Ht)]; simpl.
  - exists "". by split; [|left].
  - destruct (Ascii.eqb_spec c "/") as [->|Hc].
    + exists (String "/" s). split; [done|]. right. by exists s.
    + exists tail. split; [|done].
      change (String c s = String c (Str.before_slash s +:+ tail)). by f_equal.
Qed.

Lemma before_slash_no_slash (s : string) :
  Str.contains "/" (Str.before_slash s) = false.
Proof.
  induction s as [|c s IH]; [done|].
  cbn [Str.before_slash]. destruct (Ascii.eqb_spec c "/") as [->|Hc]; [done|].
  change (String.prefix "/" (String c (Str.before_slash s))
          || Str.contains "/" (Str.before_slash s) = false).
  rewrite IH, orb_false_r.
  change ((if ascii_dec "/" c then String.prefix "" (Str.before_slash s) else false)
          = false).
  destruct (ascii_dec "/" c) as [Heq|]; [|done]. by destruct Hc.
Qed.

Lemma detect_root_member (archive : list zentry) (root_name : string) :
  _detect_root_folder archive = inr root_name →
  ∃ pre z rest, archive = pre ++ z :: rest ∧ Forall skipped pre
    ∧ ¬ skipped z ∧ root_name = Str.before_slash (zname z).
Proof.
  induction archive as [|z archive IH]; [done|].
  destruct (decide (zname z = "")) as [He|He].
  { rewrite detect_root_skips by by left. intros (pre & z' & rest & -> & ? & ? & ?)%IH.
    exists (z :: pre), z', rest. repeat split; try done.
    apply Forall_cons. split; [by left|done]. }
  destruct (Str.startswith (zname z) "__MACOSX/") eqn:Hs.
  { rewrite detect_root_skips by by right. intros (pre & z' & rest & -> & ? & ? & ?)%IH.
    exists (z :: pre), z', rest. repeat split; try done.
    apply Forall_cons. split; [by right|done]. }
  rewrite detect_root_first by done. intros [= <-].
  exists [], z, archive. repeat split; try done.
  intros [?|?]; congruence.
Qed.

(** X9. The root name that [_detect_root_folder] returns is the text before
    the first slash of the first member whose name is neither empty nor
    metadata: every member before it is passed over, the name of that member
    is the root name followed by nothing or by a slash and the rest, and the
    root name holds no slash. *)
Theorem root_name_shape (archive : list zentry) (root_name : string) :
  _detect_root_folder archive = inr root_name →
  ∃ pre z rest tail,
    archive = pre ++ z :: rest
    ∧ Forall skipped pre ∧ ¬ skipped z
    ∧ zname z = root_name +:+ tail
    ∧ (tail = "" ∨ ∃ t, tail = String "/" t)
    ∧ Str.contains "/" root_name = false.
Proof.
  intros (pre & z & rest & -> & Hpre & Hz & ->)%detect_root_member.
  destruct (before_slash_split (zname z)) as (tail & Hsplit & Htail).
  exists pre, z, rest, tail. repeat split; try done.
  apply before_slash_no_slash.
Qed.

Lemma root_name_shape_witness :
  ∃ pre z rest tail,
    Sample.archive = pre ++ z :: rest
    ∧ Forall skipped pre ∧ ¬ skipped z
    ∧ zname z = "LazyFox-abc123" +:+ tail
    ∧ (tail = "" ∨ ∃ t, tail = String "/" t)
    ∧ Str.contains "/" "LazyFox-abc123" = false.
Proof. apply (root_name_shape Sample.archive "LazyFox-abc123"). reflexivity. Defined.

(** ** The archive extractor: what extraction leaves *)

Section Extraction.
Implicit Types (ws : gmap (list string) entry) (p cur rest : list string).

Lemma keeps_paths_refl ws : keeps_paths ws ws.
Proof. by intros p. Qed.

Lemma keeps_paths_trans (ws1 ws2 ws3 : gmap (list string) entry) :
  keeps_paths ws1 ws2 → keeps_paths ws2 ws3 → keeps_paths ws1 ws3.
Proof. intros H12 H23 p Hp. by apply H23, H12. Qed.

Lemma keeps_paths_insert ws p e : keeps_paths ws (<[p := e]> ws).
Proof.
  intros q Hq. destruct (decide (p = q)) as [<-|Hne].
  - by rewrite lookup_insert_eq.
  - by rewrite lookup_insert_ne.
Qed.

Lemma mkdirs_from_paths rest : ∀ cur ws r ws',
  Fs.mkdirs_from cur rest ws = (r, ws') → keeps_paths ws ws'.
Proof.
  induction rest as [|x rest IH]; intros cur ws r ws'; simpl.
  - destruct (ws !! cur) as [[|c]|]; intros [= _ <-];
      auto using keeps_paths_refl, keeps_paths_insert.
  - destruct (ws !! cur) as [[|c]|] eqn:Hl.
    + apply IH.
    + intros [= _ <-]. apply keeps_paths_refl.
    + intros H%IH. eapply keeps_paths_trans; [apply keeps_paths_insert|exact H].
Qed.

Lemma write_file_paths p (c : list Byte.byte) ws r ws' :
  Fs.write_file p c ws = (r, ws') → keeps_paths ws ws'.
Proof.
  unfold Fs.write_file.
  destruct (ws !! p) as [[|c']|]; [intros [= _ <-]; apply keeps_paths_refl|..];
    (destruct (ws !! Fs.parent p) as [[|c'']|]; intros [= _ <-];
     auto using keeps_paths_refl, keeps_paths_insert).
Qed.

Lemma mkdir_paths p ws r ws' :
  Fs.mkdir p ws = (r, ws') → keeps_paths ws ws'.
Proof.
  unfold Fs.mkdir. destruct (ws !! p); [intros [= _ <-]; apply keeps_paths_refl|].
  destruct (ws !! Fs.parent p) as [[|c]|]; intros [= _ <-];
    auto using keeps_paths_refl, keeps_paths_insert.
Qed.

Lemma extract_member_paths (z : zentry) ws r ws' :
  extract_member z ws = (r, ws') → keeps_paths ws ws'.
Proof.
  unfold extract_member, bind.
  destruct (Fs.exists_ ws (Fs.parent (arc_path (zname z)))).
  - simpl. destruct (Str.ends_with_slash (zname z)).
    + destruct (Fs.is_dir ws (arc_path (zname z)));
        [intros [= _ <-]; apply keeps_paths_refl|apply mkdir_paths].
    + apply write_file_paths.
  - destruct (Fs.mkdir_p _ ws) as [[e|[]] ws1] eqn:Hm;
      apply mkdirs_from_paths in Hm.
    + by intros [= _ <-].
    + destruct (Str.ends_with_slash (zname z)).
      * destruct (Fs.is_dir ws1 (arc_path (zname z))); [by intros [= _ <-]|].
        intros H%mkdir_paths. by eapply keeps_paths_trans.
      * intros H%write_file_paths. by eapply keeps_paths_trans.
Qed.

(** A member that was extracted is there afterwards. *)
Lemma extract_member_made (z : zentry) ws ws' :
  extract_member z ws = (inr tt, ws') → is_Some (ws' !! arc_path (zname z)).
Proof.
  assert (Hmk : ∀ ws1 ws2, Fs.mkdir (arc_path (zname z)) ws1 = (inr tt, ws2) →
                  is_Some (ws2 !! arc_path (zname z))).
  { intros ws1 ws2. unfold Fs.mkdir. destruct (ws1 !! _); [done|].
    destruct (ws1 !! Fs.parent _) as [[|c]|]; intros [= <-]; try done.
    by rewrite lookup_insert_eq. }
  assert (Hwr : ∀ ws1 ws2,
            Fs.write_file (arc_path (zname z)) (zdata z) ws1 = (inr tt, ws2) →
            is_Some (ws2 !! arc_path (zname z))).
  { intros ws1 ws2. unfold Fs.write_file.
    destruct (ws1 !! arc_path _) as [[|c']|]; [done|..];
      (destruct (ws1 !! Fs.parent _) as [[|c'']|]; intros [= <-]; try done;
       by rewrite lookup_insert_eq). }
  assert (Hdir : ∀ ws1, Fs.is_dir ws1 (arc_path (zname z)) = true →
                   is_Some (ws1 !! arc_path (zname z))).
  { intros ws1 H%is_dir_true. by rewrite H. }
  unfold extract_member, bind.
  destruct (Fs.exists_ ws (Fs.parent (arc_path (zname z)))).
  - simpl. destruct (Str.ends_with_slash (zname z)); [|apply Hwr].
    destruct (Fs.is_dir ws (arc_path (zname z))) eqn:Hd; [|apply Hmk].
    intros [= <-]. by apply Hdir.
  - destruct (Fs.mkdir_p _ ws) as [[e|[]] ws1]; [done|].
    destruct (Str.ends_with_slash (zname z)); [|apply Hwr].
    destruct (Fs.is_dir ws1 (arc_path (zname z))) eqn:Hd; [|apply Hmk].
    intros [= <-]. by apply Hdir.
Qed.

Lemma extractall_paths (archive : list zentry) : ∀ ws r ws',
  extractall archive ws = (r, ws') → keeps_paths ws ws'.
Proof.
  induction archive as [|z archive IH]; intros ws r ws'; simpl.
  - intros [= _ <-]. apply keeps_paths_refl.
  - unfold bind. destruct (extract_member z ws) as [[e|[]] ws1] eqn:Hm;
      apply extract_member_paths in Hm.
    + by intros [= _ <-].
    + intros H%IH. by eapply keeps_paths_trans.
Qed.

Lemma extractall_made (archive : list zentry) (z : zentry) : ∀ ws ws',
  z ∈ archive → extractall archive ws = (inr tt, ws') →
  is_Some (ws' !! arc_path (zname z)).
Proof.
  induction archive as [|z' archive IH]; intros ws ws' Hin; simpl.
  - by apply elem_of_nil in Hin.
  - unfold bind. destruct (extract_member z' ws) as [[e|[]] ws1] eqn:Hm; [done|].
    apply elem_of_cons in Hin as [->|Hin].
    + intros H%extractall_paths. apply H. by eapply extract_member_made.
    + by apply IH.
Qed.

Lemma split_slash_head (s : string) :
  ∃ tl, Str.split_slash s = Str.before_slash s :: tl.
Proof.
  induction s as [|c s [tl IH]]; simpl; [by exists []|].
  destruct (Ascii.eqb c "/"); [by eexists|]. rewrite IH. by eexists.
Qed.

Lemma arc_path_head (s : string) :
  Str.before_slash s ≠ "" → Str.before_slash s ≠ "." → Str.before_slash s ≠ ".." →
  ∃ tl, arc_path s = Str.before_slash s :: tl.
Proof.
  intros H1 H2 H3. unfold arc_path. destruct (split_slash_head s) as [tl ->].
  rewrite filter_cons_True by done. by eexists.
Qed.

End Extraction.

(** X10. After an extraction that succeeded, the place inside the workspace
    that the detected root name designates always exists: the member that
    gave the name was extracted under it.  The test that follows the
    extraction therefore never finds the source root missing. *)
Theorem root_exists_after_extraction (archive : list zentry)
    (ws ws' : gmap (list string) entry) (root_name : string) (p : list string) :
  Fs.wf ws → Fs.is_dir ws [] = true →
  _detect_root_folder archive = inr root_name →
  extractall archive ws = (inr tt, ws') →
  workspace_join root_name = Inside p →
  Fs.exists_ ws' p = true.
Proof.
  intros Hwf Hroot Hdet Hx Hjoin.
  assert (Hsome : is_Some (ws' !! p)); [|unfold Fs.exists_; by destruct Hsome as [? ->]].
  unfold workspace_join in Hjoin.
  destruct (decide (root_name = "" ∨ root_name = ".")) as [|Hn].
  { injection Hjoin as <-. apply (extractall_paths _ _ _ _ Hx).
    apply is_dir_true in Hroot. by rewrite Hroot. }
  destruct (decide (root_name = "..")); [done|]. injection Hjoin as <-.
  apply detect_root_member in Hdet as (pre & z & rest & -> & _ & _ & ->).
  destruct (arc_path_head (zname z)) as [tl Htl]; [naive_solver..|].
  destruct (extractall_made (pre ++ z :: rest) z ws ws') as [e He]; [|done|].
  { apply elem_of_app. right. by left. }
  rewrite Htl in He. destruct tl as [|x tl]; [by rewrite He|].
  rewrite (wf_above ws' (Str.before_slash (zname z) :: x :: tl)
             [Str.before_slash (zname z)] e); [done| |done|by exists (x :: tl)|done].
  by eapply extractall_wf.
Qed.

Lemma root_exists_after_extraction_witness :
  Fs.exists_ Sample.tree ["LazyFox-abc123"] = true.
Proof.
  apply (root_exists_after_extraction Sample.archive
           {[ [] := EDir; ["source.zip"] := EFile [Byte.x50; Byte.x4b] ]}
           Sample.tree "LazyFox-abc123").
  - apply (bool_decide_unpack (Fs.wf _)). vm_compute. exact I.
  - vm_compute. reflexivity.
  - reflexivity.
  - assert (H : ∀ x : (exn + unit) * gmap (list string) entry,
               is_ok x.1 = true → x = (inr tt, x.2)).
    { by intros [[e|[]] fs2]. }
    rewrite (H (extractall _ _)) by (vm_compute; reflexivity).
    f_equal.
  - reflexivity.
Defined.

(** ** The tree copier: what it leaves alone *)

Section CopyFrame.
Implicit Types (fs : gmap (list string) entry) (p q cur rest dest : list string).

(** [mkdirs_from] changes a file system only by adding entries on its way. *)
Lemma mkdirs_from_changes rest : ∀ cur fs r fs',
  Fs.mkdirs_from cur rest fs = (r, fs') →
  ∀ q, fs' !! q = fs !! q
       ∨ (fs !! q = None ∧ ∃ k, k `prefix_of` rest ∧ q = cur ++ k).
Proof.
  induction rest as [|x rest IH]; intros cur fs r fs'; simpl.
  - destruct (fs !! cur) as [[|c]|] eqn:Hl; intros [= _ <-] q; try by left.
    destruct (decide (cur = q)) as [<-|Hne].
    + right. split; [done|]. exists []. by rewrite app_nil_r.
    + left. by rewrite lookup_insert_ne.
  - assert (Hrec : ∀ fs1, Fs.mkdirs_from (cur ++ [x]) rest fs1 = (r, fs') →
              ∀ q, fs' !! q = fs1 !! q
                   ∨ (fs1 !! q = None ∧ ∃ k, k `prefix_of` x :: rest ∧ q = cur ++ k)).
    { intros fs1 H q. destruct (IH _ _ _ _ H q) as [?|(? & k & Hk & ->)]; [by left|].
      right. split; [done|]. exists (x :: k). split; [by apply prefix_cons|].
      by rewrite <- app_assoc. }
    destruct (fs !! cur) as [[|c]|] eqn:Hl.
    + apply Hrec.
    + intros [= _ <-] q. by left.
    + intros H q. destruct (Hrec _ H q) as [Hq|(Hq & Hk)].
      * destruct (decide (cur = q)) as [<-|Hne].
        -- right. split; [done|]. exists []. split; [apply prefix_nil|].
           by rewrite app_nil_r.
        -- left. by rewrite Hq, lookup_insert_ne.
      * right. split; [|done]. destruct (decide (cur = q)) as [<-|Hne].
        -- by rewrite lookup_insert_eq in Hq.
        -- by rewrite lookup_insert_ne in Hq.
Qed.

Lemma mkdir_p_changes p fs r fs' :
  Fs.mkdir_p p fs = (r, fs') →
  ∀ q, fs' !! q = fs !! q ∨ (fs !! q = None ∧ q `prefix_of` p).
Proof.
  intros H q. destruct (mkdirs_from_changes _ _ _ _ _ H q) as [?|(? & k & ? & ->)];
    [by left|by right].
Qed.

Lemma write_file_changes p (c : list Byte.byte) fs r fs' :
  Fs.write_file p c fs = (r, fs') → ∀ q, q ≠ p → fs' !! q = fs !! q.
Proof.
  unfold Fs.write_file.
  destruct (fs !! p) as [[|c']|]; [by intros [= _ <-]|..];
    (destruct (fs !! Fs.parent p) as [[|c'']|]; intros [= _ <-] q Hq; try done;
     by rewrite lookup_insert_ne).
Qed.


Lemma copy_loop_wf dest force (w : list (list string * entry)) :
  ∀ (cs : list (list string)) fs r fs',
    Fs.wf fs → copy_loop dest force w cs fs = (r, fs') → Fs.wf fs'.
Proof.
  induction w as [|[rel [|c]] w IH]; intros cs fs r fs' Hwf; simpl.
  - by intros [= _ <-].
  - unfold bind. destruct (Fs.mkdir_p (dest ++ rel) fs) as [[e|[]] fs1] eqn:Hm;
      apply mkdir_p_wf in Hm; try done.
    + by intros [= _ <-].
    + by apply IH.
  - destruct (Fs.exists_ fs (dest ++ rel) && negb force); [by apply IH|].
    unfold bind.
    destruct (Fs.mkdir_p (Fs.parent (dest ++ rel)) fs) as [[e|[]] fs1] eqn:Hm;
      apply mkdir_p_wf in Hm; try done.
    + by intros [= _ <-].
    + destruct (Fs.copy2 c (Fs.name rel) (dest ++ rel) fs1) as [[e|[]] fs2] eqn:Hc;
        apply write_file_wf in Hc; try done.
      * by intros [= _ <-].
      * by apply IH.
Qed.


(** With force the loop records no conflict. *)
Lemma copy_loop_force dest (w : list (list string * entry)) :
  ∀ (cs cs' : list (list string)) fs fs',
    copy_loop dest true w cs fs = (inr cs', fs') → cs' = cs.
Proof.
  induction w as [|[rel [|c]] w IH]; intros cs cs' fs fs'; simpl.
  - by intros [= <- _].
  - unfold bind. destruct (Fs.mkdir_p (dest ++ rel) fs) as [[e|[]] fs1]; [done|].
    apply IH.
  - rewrite andb_false_r. unfold bind.
    destruct (Fs.mkdir_p (Fs.parent (dest ++ rel)) fs) as [[e|[]] fs1]; [done|].
    destruct (Fs.copy2 c (Fs.name rel) (dest ++ rel) fs1) as [[e|[]] fs2]; [done|].
    apply IH.
Qed.

(** Without force the loop keeps every entry that is there, provided the
    walk holds no empty relative path. *)
Lemma copy_loop_keeps_all dest (w : list (list string * entry)) :
  Forall (λ pe, pe.1 ≠ []) w →
  ∀ (cs : list (list string)) fs r fs',
    copy_loop dest false w cs fs = (r, fs') → fs ⊆ fs'.
Proof.
  assert (Hmk : ∀ p fs r fs1, Fs.mkdir_p p fs = (r, fs1) → fs ⊆ fs1).
  { intros p fs r fs1 Hm. apply map_subseteq_spec. intros q e Hq.
    destruct (mkdir_p_changes _ _ _ _ Hm q) as [->|[Hn _]]; congruence. }
  induction 1 as [|[rel e] w Hrel _ IH]; intros cs fs r fs'; simpl.
  - by intros [= _ <-].
  - simpl in Hrel. destruct e as [|c].
    + unfold bind. destruct (Fs.mkdir_p (dest ++ rel) fs) as [[e|[]] fs1] eqn:Hm;
        apply Hmk in Hm.
      * by intros [= _ <-].
      * intros H%IH. by etrans.
    + rewrite andb_true_r. destruct (Fs.exists_ fs (dest ++ rel)) eqn:Hex; [apply IH|].
      unfold bind.
      destruct (Fs.mkdir_p (Fs.parent (dest ++ rel)) fs) as [[e|[]] fs1] eqn:Hm.
      { intros [= _ <-]. by eapply Hmk. }
      assert (Hfree : fs1 !! (dest ++ rel) = None).
      { destruct (mkdir_p_changes _ _ _ _ Hm (dest ++ rel)) as [->|[_ Hp]].
        - unfold Fs.exists_ in Hex. by destruct (fs !! (dest ++ rel)).
        - apply prefix_length in Hp. rewrite parent_app in Hp by done.
          rewrite (path_snoc rel Hrel) in Hp at 1.
          rewrite !length_app in Hp. simpl in Hp. lia. }
      destruct (Fs.copy2 c (Fs.name rel) (dest ++ rel) fs1) as [r2 fs2] eqn:Hc.
      assert (Hw : fs1 ⊆ fs2).
      { revert Hc. unfold Fs.copy2, Fs.is_dir. rewrite Hfree.
        unfold Fs.write_file. rewrite Hfree.
        destruct (fs1 !! Fs.parent (dest ++ rel)) as [[|c']|]; intros [= _ <-];
          try done. by apply insert_subseteq. }
      apply Hmk in Hm. destruct r2 as [e|[]].
      * intros [= _ <-]. by etrans.
      * intros H%IH. etrans; [exact Hm|]. by etrans.
Qed.

End CopyFrame.



(** X12. With force, the copier never raises the conflict error: no
    conflict is recorded, so that a failure, if any, is an error of the file
    system. *)
Theorem force_never_reports_conflicts (src : gmap (list string) entry)
    (root dest : list string) (fs : gmap (list string) entry) :
  match (_copy_tree src root dest true fs).1 with
  | inl e => os_error e = true
  | inr _ => (copy_loop dest true (Fs.rglob src root) [] fs).1 = inr []
  end.
Proof.
  unfold _copy_tree, bind.
  destruct (copy_loop dest true (Fs.rglob src root) [] fs) as [[e|cs] fs'] eqn:Hl.
  - by apply copy_loop_error in Hl.
  - by apply copy_loop_force in Hl as ->.
Qed.

(** X13. Without force, the copier never changes or removes anything that
    is already there, whatever the outcome: every path of the destination
    file system keeps its entry, and files are only added. *)
Theorem no_force_keeps_everything (src : gmap (list string) entry)
    (root dest : list string) (fs : gmap (list string) entry)
    (p : list string) (e : entry) :
  fs !! p = Some e →
  (_copy_tree src root dest false fs).2 !! p = Some e.
Proof.
  intros Hp.
  assert (Hsub : fs ⊆ (_copy_tree src root dest false fs).2).
  { assert (Hw : Forall (λ pe : list string * entry, pe.1 ≠ []) (Fs.rglob src root)).
    { apply Forall_forall. intros [rel e''] Hin. simpl.
      by apply rglob_nonempty in Hin. }
    unfold _copy_tree, bind.
    destruct (copy_loop dest false (Fs.rglob src root) [] fs) as [[e'|cs] fs'] eqn:Hl;
      apply (copy_loop_keeps_all _ _ Hw) in Hl; [done|by destruct cs]. }
  by eapply lookup_weaken.
Qed.

Lemma no_force_keeps_everything_witness :
  (_copy_tree Sample.tree Sample.tree_root ["home"] false Sample.blocked).2
    !! ["home"; "cli"] = Some (EFile [Byte.x78]).
Proof. apply no_force_keeps_everything. vm_compute. reflexivity. Defined.

(** X14. With or without force, the copier never removes a directory nor
    puts a file in its place: every directory is still a directory
    afterwards, whatever the outcome. *)
Theorem copy_never_replaces_directory (src : gmap (list string) entry)
    (root dest : list string) (force : bool) (fs : gmap (list string) entry)
    (p : list string) :
  fs !! p = Some EDir →
  (_copy_tree src root dest force fs).2 !! p = Some EDir.
Proof.
  intros Hp. eapply copy_tree_keeps; [|exact Hp]. apply surjective_pairing.
Qed.

Lemma copy_never_replaces_directory_witness :
  (_copy_tree Sample.tree Sample.tree_root ["home"] true Sample2.dir_in_the_way).2
    !! ["home"; "README.md"] = Some EDir.
Proof. apply copy_never_replaces_directory. vm_compute. reflexivity. Defined.

(** ** The tree copier: running it again *)

Section Rerun.
Context (src : gmap (list string) entry) (root dest : list string).
Context (fs1 : gmap (list string) entry).
Hypothesis Hsrc : Fs.wf src.
Hypothesis Hwf : Fs.wf fs1.
Hypothesis Hdest : Fs.is_dir fs1 dest = true.
Hypothesis Hdirs : ∀ rel, (rel, EDir) ∈ Fs.rglob src root →
  fs1 !! (dest ++ rel) = Some EDir.
Hypothesis Hfiles : ∀ rel c, (rel, EFile c) ∈ Fs.rglob src root →
  fs1 !! (dest ++ rel) = Some (EFile c).

(** Copying onto a destination that already holds the source changes
    nothing. *)
Lemma copy_onto_copy force :
  copy_loop dest force (Fs.rglob src root) [] fs1 =
    (inr (conflicts_of fs1 dest force (Fs.rglob src root)), fs1).
Proof.
  destruct (copy_walk_complete src root dest force fs1 Hsrc Hwf Hdest)
    as (fs2 & Hloop & Hinv).
  { unfold dirs_free. apply forallb_forall. intros [rel [|c]] Hin; [|done].
    simpl. apply list_elem_of_In, Hdirs in Hin. unfold Fs.is_file.
    by rewrite Hin. }
  { intros _. unfold files_free. apply forallb_forall. intros [rel [|c]] Hin; [done|].
    simpl. apply list_elem_of_In, Hfiles in Hin. unfold Fs.is_dir.
    by rewrite Hin. }
  rewrite Hloop. f_equal. apply map_eq. intros q.
  destruct (decide (Exists (λ pe, q = dest ++ pe.1) (Fs.rglob src root)))
    as [Hex|Hno].
  - apply Exists_exists in Hex as ([rel e] & Hin & ->). simpl.
    destruct e as [|c].
    + rewrite (inv_dir_seen _ _ _ _ _ _ Hinv rel Hin (walk_seen _ _ _ Hin)).
      by rewrite Hdirs.
    + rewrite (inv_file_seen _ _ _ _ _ _ Hinv rel c Hin (walk_seen _ _ _ Hin)).
      unfold copied. rewrite (Hfiles _ _ Hin). by destruct (_ && _).
  - apply (inv_frame _ _ _ _ _ _ Hinv). intros rel e Hin ->. apply Hno.
    apply Exists_exists. by exists (rel, e).
Qed.

End Rerun.

Section AfterForce.
Context (src : gmap (list string) entry) (root dest : list string).
Context (fs0 : gmap (list string) entry).
Hypothesis Hsrc : Fs.wf src.
Hypothesis Hwf : Fs.wf fs0.
Hypothesis Hdest : Fs.is_dir fs0 dest = true.
Hypothesis Hdirs : dirs_free fs0 dest (Fs.rglob src root) = true.
Hypothesis Hfiles : files_free fs0 dest (Fs.rglob src root) = true.

(** What a forced copy into a destination without clashes of kind leaves. *)
Lemma after_forced_copy :
  let fs1 := (_copy_tree src root dest true fs0).2 in
  Fs.wf fs1 ∧ Fs.is_dir fs1 dest = true
  ∧ (∀ rel, (rel, EDir) ∈ Fs.rglob src root → fs1 !! (dest ++ rel) = Some EDir)
  ∧ (∀ rel c, (rel, EFile c) ∈ Fs.rglob src root →
       fs1 !! (dest ++ rel) = Some (EFile c)).
Proof.
  destruct (copy_walk_complete src root dest true fs0 Hsrc Hwf Hdest Hdirs)
    as (fs' & Hloop & Hinv); [done|].
  pose proof (copy_tree_result _ _ _ _ _ _ Hloop) as Htree.
  rewrite conflicts_of_force in Htree. rewrite Htree. cbn [snd].
  split; [by eapply copy_loop_wf|]. split.
  { apply is_dir_true. eapply copy_loop_keeps; [exact Hloop|by apply is_dir_true]. }
  split.
  - intros rel Hin.
    apply (inv_dir_seen _ _ _ _ _ _ Hinv rel Hin (walk_seen _ _ _ Hin)).
  - intros rel c Hin.
    rewrite (inv_file_seen _ _ _ _ _ _ Hinv rel c Hin (walk_seen _ _ _ Hin)).
    unfold copied. by rewrite andb_false_r.
Qed.

End AfterForce.

(** X15. A forced copy is idempotent: run again on its own result, with the
    same source, it ends normally and leaves the file system as it is. *)
Theorem forced_copy_idempotent (src : gmap (list string) entry)
    (root dest : list string) (fs0 : gmap (list string) entry) :
  Fs.wf src → Fs.wf fs0 → Fs.is_dir fs0 dest = true →
  dirs_free fs0 dest (Fs.rglob src root) = true →
  files_free fs0 dest (Fs.rglob src root) = true →
  _copy_tree src root dest true (_copy_tree src root dest true fs0).2 =
    (inr tt, (_copy_tree src root dest true fs0).2).
Proof.
  intros Hsrc Hwf Hdest Hdirs Hfiles.
  destruct (after_forced_copy src root dest fs0 Hsrc Hwf Hdest Hdirs Hfiles)
    as (Hwf1 & Hdest1 & Hd1 & Hf1).
  pose proof (copy_onto_copy src root dest _ Hsrc Hwf1 Hdest1 Hd1 Hf1 true) as Hloop.
  rewrite (copy_tree_result _ _ _ _ _ _ Hloop). by rewrite conflicts_of_force.
Qed.

Lemma forced_copy_idempotent_witness :
  (_copy_tree Sample.tree Sample.tree_root ["home"] true
     (_copy_tree Sample.tree Sample.tree_root ["home"] true Sample.occupied).2).1
    = inr tt.
Proof.
  rewrite forced_copy_idempotent.
  - reflexivity.
  - apply (bool_decide_unpack (Fs.wf _)). vm_compute. exact I.
  - apply (bool_decide_unpack (Fs.wf _)). vm_compute. exact I.
  - vm_compute. reflexivity.
  - vm_compute. reflexivity.
  - vm_compute. reflexivity.
Defined.

(** X16. After a forced copy, a copy of the same source without force
    changes nothing and fails with the conflict report, in which every file
    of the source is listed (when the source has a file at all). *)
Theorem copy_again_without_force (src : gmap (list string) entry)
    (root dest : list string) (fs0 : gmap (list string) entry) :
  Fs.wf src → Fs.wf fs0 → Fs.is_dir fs0 dest = true →
  dirs_free fs0 dest (Fs.rglob src root) = true →
  files_free fs0 dest (Fs.rglob src root) = true →
  let fs1 := (_copy_tree src root dest true fs0).2 in
  let cs := conflicts_of fs1 dest false (Fs.rglob src root) in
  _copy_tree src root dest false fs1 =
    (match cs with [] => inr tt | _ => inl (RuntimeError (conflict_report cs)) end,
     fs1)
  ∧ ∀ rel c, (rel, EFile c) ∈ Fs.rglob src root → rel ∈ cs.
Proof.
  intros Hsrc Hwf Hdest Hdirs Hfiles fs1 cs.
  destruct (after_forced_copy src root dest fs0 Hsrc Hwf Hdest Hdirs Hfiles)
    as (Hwf1 & Hdest1 & Hd1 & Hf1). fold fs1 in Hwf1, Hdest1, Hd1, Hf1.
  pose proof (copy_onto_copy src root dest fs1 Hsrc Hwf1 Hdest1 Hd1 Hf1 false)
    as Hloop.
  split.
  { rewrite (copy_tree_result _ _ _ _ _ _ Hloop). fold cs. by destruct cs. }
  intros rel c Hin. apply elem_of_conflicts. exists c. split; [done|].
  unfold Fs.exists_. by rewrite (Hf1 _ _ Hin).
Qed.

Lemma copy_again_without_force_witness :
  ["cli"; "app.py"] ∈
    conflicts_of (_copy_tree Sample.tree Sample.tree_root ["home"] true Sample.home).2
      ["home"] false (Fs.rglob Sample.tree Sample.tree_root).
Proof.
  destruct (copy_again_without_force Sample.tree Sample.tree_root ["home"]
              Sample.home) as [_ H].
  - apply (bool_decide_unpack (Fs.wf _)). vm_compute. exact I.
  - apply (bool_decide_unpack (Fs.wf _)). vm_compute. exact I.
  - vm_compute. reflexivity.
  - vm_compute. reflexivity.
  - vm_compute. reflexivity.
  - apply (H _ [Byte.x69; Byte.x6d]). apply elem_of_rglob.
    split; [vm_compute; reflexivity|]. split; [discriminate|].
    vm_compute. reflexivity.
Defined.

(** ** The tree copier: what a normal end without force means *)

Section CopyComplete.
Implicit Types (fs : gmap (list string) entry) (p q dest rel : list string).

Lemma not_prefix_of_parent p : p ≠ [] → ¬ p `prefix_of` Fs.parent p.
Proof.
  intros Hne [k Hk]. apply path_snoc in Hne.
  apply (f_equal length) in Hk, Hne. rewrite length_app in Hk, Hne.
  simpl in Hne. lia.
Qed.

(** Without force, a file is written at its target, which was free. *)
Lemma copy_step_free dest rel (c : list Byte.byte) fs fs1 r :
  rel ≠ [] → Fs.exists_ fs (dest ++ rel) = false →
  Fs.mkdir_p (Fs.parent (dest ++ rel)) fs = (r, fs1) →
  Fs.copy2 c (Fs.name rel) (dest ++ rel) fs1 = Fs.write_file (dest ++ rel) c fs1
  ∧ fs1 !! (dest ++ rel) = None.
Proof.
  intros Hne Hex Hm.
  assert (Hnone : fs1 !! (dest ++ rel) = None).
  { unfold Fs.exists_ in Hex.
    destruct (mkdir_p_changes _ _ _ _ Hm (dest ++ rel)) as [->|[_ Hpre]].
    - by destruct (fs !! (dest ++ rel)).
    - apply not_prefix_of_parent in Hpre; [done|].
      intros [_ ?]%app_eq_nil. done. }
  split; [|done]. unfold Fs.copy2, Fs.is_dir. by rewrite Hnone.
Qed.

Lemma write_file_failed p (c : list Byte.byte) fs e fs' :
  Fs.write_file p c fs = (inl e, fs') → fs' = fs.
Proof.
  unfold Fs.write_file.
  destruct (fs !! p) as [[|?]|]; [by intros [= _ <-]|..];
    destruct (fs !! Fs.parent p) as [[|?]|]; by intros [= _ <-].
Qed.

Lemma write_file_done p (c : list Byte.byte) fs fs' :
  Fs.write_file p c fs = (inr tt, fs') → fs' !! p = Some (EFile c).
Proof.
  unfold Fs.write_file.
  destruct (fs !! p) as [[|?]|]; [done|..];
    destruct (fs !! Fs.parent p) as [[|?]|]; intros [= <-];
    by rewrite lookup_insert_eq.
Qed.

(** Without force, the walk leaves a regular file of the destination alone
    when no entry of the source goes to its path. *)
Lemma copy_loop_keeps_file dest (w : list (list string * entry)) :
  Forall (λ pe, pe.1 ≠ []) w →
  ∀ (cs : list (list string)) fs r fs' rel (c : list Byte.byte),
    rel ∉ w.*1 → fs !! (dest ++ rel) = Some (EFile c) →
    copy_loop dest false w cs fs = (r, fs') →
    fs' !! (dest ++ rel) = Some (EFile c).
Proof.
  assert (Hmk : ∀ p fs r fs1 q (c : list Byte.byte),
    Fs.mkdir_p p fs = (r, fs1) → fs !! q = Some (EFile c) →
    fs1 !! q = Some (EFile c)).
  { intros p fs r fs1 q c Hm Hq.
    destruct (mkdir_p_changes _ _ _ _ Hm q) as [->|[Hn _]]; [done|congruence]. }
  induction w as [|[r0 [|c0]] w IH]; intros Hall cs fs r fs' rel c Hnot Hf; simpl.
  - by intros [= _ <-].
  - apply Forall_cons in Hall as [_ Hall].
    unfold bind. destruct (Fs.mkdir_p (dest ++ r0) fs) as [[e|[]] fs1] eqn:Hm.
    + intros [= _ <-]. by eapply Hmk.
    + apply IH; [done| |by eapply Hmk]. intros ?. apply Hnot. by right.
  - apply Forall_cons in Hall as [Hr0 Hall]. simpl in Hr0.
    assert (Hne : r0 ≠ rel). { intros ->. apply Hnot. by left. }
    assert (Hw : rel ∉ w.*1). { intros ?. apply Hnot. by right. }
    rewrite andb_true_r.
    destruct (Fs.exists_ fs (dest ++ r0)) eqn:Hex; [by apply IH|].
    unfold bind.
    destruct (Fs.mkdir_p (Fs.parent (dest ++ r0)) fs) as [[e|[]] fs1] eqn:Hm.
    { intros [= _ <-]. by eapply Hmk. }
    assert (Hf1 : fs1 !! (dest ++ rel) = Some (EFile c)) by (by eapply Hmk).
    destruct (copy_step_free _ _ c0 _ _ _ Hr0 Hex Hm) as [-> _].
    destruct (Fs.write_file _ c0 fs1) as [[e|[]] fs2] eqn:Hwr.
    + apply write_file_failed in Hwr as ->. by intros [= _ <-].
    + apply IH; [done..|].
      rewrite (write_file_changes _ _ _ _ _ Hwr); [done|].
      intros Heq. by apply app_inv_head in Heq.
Qed.

(** Every directory of the walk is a directory of the destination when the
    walk ends normally. *)
Lemma copy_loop_dirs_made dest force (w : list (list string * entry)) :
  ∀ (cs cs' : list (list string)) fs fs' rel,
    copy_loop dest force w cs fs = (inr cs', fs') → (rel, EDir) ∈ w →
    fs' !! (dest ++ rel) = Some EDir.
Proof.
  induction w as [|[r0 [|c0]] w IH]; intros cs cs' fs fs' rel; simpl.
  - by intros _ ?%elem_of_nil.
  - unfold bind. destruct (Fs.mkdir_p (dest ++ r0) fs) as [[e|[]] fs1] eqn:Hm; [done|].
    intros Hl [[= <-]|Hin]%elem_of_cons; [|by eapply IH].
    eapply copy_loop_keeps; [exact Hl|]. apply is_dir_true. by eapply mkdir_p_made.
  - intros Hl [[=]|Hin]%elem_of_cons. revert Hl.
    destruct (_ && _); [by eauto|]. unfold bind.
    destruct (Fs.mkdir_p _ fs) as [[e|[]] fs1]; [done|].
    destruct (Fs.copy2 _ _ _ fs1) as [[e|[]] fs2]; [done|]. by eauto.
Qed.

(** Without force, a walk that ends normally has either recorded a file as
    a conflict or written it at its target. *)
Lemma copy_loop_complete dest (w : list (list string * entry)) :
  NoDup w.*1 → Forall (λ pe, pe.1 ≠ []) w →
  ∀ (cs cs' : list (list string)) fs fs',
    copy_loop dest false w cs fs = (inr cs', fs') →
    (∀ rel, rel ∈ cs → rel ∈ cs')
    ∧ ∀ rel (c : list Byte.byte), (rel, EFile c) ∈ w →
        rel ∈ cs' ∨ fs' !! (dest ++ rel) = Some (EFile c).
Proof.
  induction w as [|[r0 [|c0]] w IH]; intros Hnd Hall cs cs' fs fs'; simpl.
  - intros [= <- _]. split; [done|]. by intros rel c ?%elem_of_nil.
  - apply NoDup_cons in Hnd as [_ Hnd]. apply Forall_cons in Hall as [_ Hall].
    unfold bind. destruct (Fs.mkdir_p (dest ++ r0) fs) as [[e|[]] fs1] eqn:Hm; [done|].
    intros Hl. destruct (IH Hnd Hall _ _ _ _ Hl) as [Hcs Hf]. split; [done|].
    intros rel c [[=]|Hin]%elem_of_cons. by eauto.
  - apply NoDup_cons in Hnd as [Hfresh Hnd].
    apply Forall_cons in Hall as [Hr0 Hall]. simpl in Hr0.
    rewrite andb_true_r.
    destruct (Fs.exists_ fs (dest ++ r0)) eqn:Hex.
    + intros Hl. destruct (IH Hnd Hall _ _ _ _ Hl) as [Hcs Hf]. split.
      * intros rel Hrel. apply Hcs, elem_of_app. by left.
      * intros rel c [[= -> ->]|Hin]%elem_of_cons; [|by eauto].
        left. apply Hcs, elem_of_app. right. by apply list_elem_of_singleton.
    + unfold bind.
      destruct (Fs.mkdir_p (Fs.parent (dest ++ r0)) fs) as [[e|[]] fs1] eqn:Hm; [done|].
      destruct (copy_step_free _ _ c0 _ _ _ Hr0 Hex Hm) as [-> _].
      destruct (Fs.write_file _ c0 fs1) as [[e|[]] fs2] eqn:Hwr; [done|].
      intros Hl. destruct (IH Hnd Hall _ _ _ _ Hl) as [Hcs Hf]. split; [done|].
      intros rel c [[= -> ->]|Hin]%elem_of_cons; [|by eauto].
      right. eapply copy_loop_keeps_file; [exact Hall|exact Hfresh| |exact Hl].
      by eapply write_file_done.
Qed.

End CopyComplete.

(** X17. Without force, a normal end of the copier means a complete copy:
    every entry under the source root is then in the destination at the
    same relative path, a directory as a directory and a file with the
    content it has in the source. *)
Theorem normal_end_means_complete_copy (src : gmap (list string) entry)
    (root dest : list string) (fs fs' : gmap (list string) entry)
    (rel : list string) (e : entry) :
  _copy_tree src root dest false fs = (inr tt, fs') →
  (rel, e) ∈ Fs.rglob src root →
  fs' !! (dest ++ rel) = Some e.
Proof.
  unfold _copy_tree, bind.
  destruct (copy_loop dest false (Fs.rglob src root) [] fs) as [[e'|cs] fs1] eqn:Hl;
    [done|].
  destruct cs as [|c0 cs]; [|done]. intros [= <-] Hin. destruct e as [|c].
  - by eapply copy_loop_dirs_made.
  - destruct (copy_loop_complete dest (Fs.rglob src root)) with (1 := rglob_NoDup src root)
      (3 := Hl) as [_ Hf].
    { apply Forall_forall. intros [r e'] Hr. simpl. by apply rglob_nonempty in Hr. }
    destruct (Hf rel c Hin) as [?%elem_of_nil|?]; done.
Qed.

Lemma copy_tree_succeeds (src : gmap (list string) entry) (root dest : list string)
    (force : bool) (fs : gmap (list string) entry) :
  is_ok (_copy_tree src root dest force fs).1 = true →
  _copy_tree src root dest force fs =
    (inr tt, (_copy_tree src root dest force fs).2).
Proof. by destruct (_copy_tree src root dest force fs) as [[e|[]] fs']. Qed.

Lemma normal_end_means_complete_copy_witness :
  (_copy_tree Sample.tree Sample.tree_root ["home"] false Sample.home).2
    !! (["home"] ++ ["cli"; "app.py"]) = Some (EFile [Byte.x69; Byte.x6d]).
Proof.
  apply (normal_end_means_complete_copy Sample.tree Sample.tree_root ["home"]
           Sample.home).
  - apply copy_tree_succeeds. vm_compute. reflexivity.
  - apply elem_of_rglob.
    split; [vm_compute; reflexivity|]. split; [discriminate|].
    vm_compute. reflexivity.
Defined.

(** ** The command as a whole *)

Section Outcomes.
Context (E : env).

(** Every way in which the command ends. *)
Lemma run_outcomes (a : args) (s : state) :
  run E a s =
    match Fs.mkdir_p (dest a) (fs s) with
    | (inl e, fs1) => (inl e, {| fs := fs1; log := log s; stdout := stdout s |})
    | (inr _, fs0) =>
        match _resolve_source E (version_of a) (log s) with
        | (inl e, log1) =>
            ((caught PResolveFailed e).1,
             {| fs := fs0; log := log1;
                stdout := stdout s ++ (caught PResolveFailed e).2 |})
        | (inr src, log1) =>
            if link_truthy (zipball_url src) then
              let log2 := log1 ++ [Download (zipball_url src)] in
              match unpack E (zipball_url src) with
              | inl e =>
                  ((caught PInitFailed e).1,
                   {| fs := fs0; log := log2;
                      stdout := stdout s ++ banner a src ++ (caught PInitFailed e).2 |})
              | inr (tree, root) =>
                  match _copy_tree tree root (dest a) (force a) fs0 with
                  | (inl e, fs') =>
                      ((caught PInitFailed e).1,
                       {| fs := fs'; log := log2;
                          stdout := stdout s ++ banner a src
                                      ++ (caught PInitFailed e).2 |})
                  | (inr _, fs') =>
                      (inr 0%Z, {| fs := fs'; log := log2;
                                   stdout := stdout s ++ banner a src ++ [PDone] |})
                  end
              end
            else
              (inr 1%Z, {| fs := fs0; log := log1;
                           stdout := stdout s ++ [PNoZipball] |})
        end
    end.
Proof.
  destruct (Fs.mkdir_p (dest a) (fs s)) as [[e|[]] fs0] eqn:Hmk.
  { by apply run_mkdir_failed. }
  destruct (_resolve_source E (version_of a) (log s)) as [[e|src] log1] eqn:Hres.
  { destruct e; try (by apply run_resolve_failed);
      (rewrite (run_resolve_raised E a s fs0 _ log1 Hmk Hres); [|done]);
      simpl; by rewrite app_nil_r. }
  destruct (link_truthy (zipball_url src)) eqn:Hlink; [|by eapply run_no_link].
  destruct (unpack E (zipball_url src)) as [e|[tree root]] eqn:Hunp.
  { rewrite (run_unpack_failed E a s fs0 src log1 e Hmk Hres Hlink Hunp).
    destruct e; simpl; by rewrite <- ?app_assoc, ?app_nil_r. }
  rewrite (run_copy E a s fs0 log1 src tree root); [|by split].
  cbv zeta. destruct (_copy_tree tree root (dest a) (force a) fs0) as [[e|[]] fs'].
  - destruct e; simpl; by rewrite <- ?app_assoc, ?app_nil_r.
  - by rewrite <- app_assoc.
Qed.

End Outcomes.

Lemma resolve_api_upto (E : env) (version : string) :
  api_upto 3 (_resolve_source E version).
Proof.
  intros l. destruct (resolve_rest E version) as (K & -> & HK).
  unfold bind. pose proof (try_release_log E (first_url version)
    (if String.eqb version "latest" then "latest release" else "release tag")
    version l) as Hlog.
  destruct (try_release _ _ _ _ l) as [[e|early] l1]; simpl in Hlog; subst l1.
  - exists [ApiGet (first_url version)]. repeat split; simpl; lia.
  - destruct (HK early (l ++ [ApiGet (first_url version)])) as (k & Hk & Hall & Hlen).
    exists (ApiGet (first_url version) :: k). rewrite Hk, <- app_assoc.
    repeat split; [done|]. simpl. destruct (String.eqb version "latest"); lia.
Qed.




(** X19. Whatever happens, the command sends at most three metadata requests
    and then at most one download, in this order and nothing else; a
    download is requested only for an archive link that is usable. *)
Theorem requests_of_a_run (E : env) (a : args) (s : state) :
  ∃ k d, log (run E a s).2 = log s ++ k ++ d
    ∧ forallb is_api k = true ∧ length k ≤ 3
    ∧ (d = [] ∨ ∃ url, d = [Download url] ∧ link_truthy url = true).
Proof.
  rewrite run_outcomes.
  destruct (Fs.mkdir_p (dest a) (fs s)) as [[e|[]] fs0].
  { exists [], []. simpl. rewrite app_nil_r. repeat split; [lia|by left]. }
  destruct (resolve_api_upto E (version_of a) (log s)) as (k & Hk & Hall & Hlen).
  destruct (_resolve_source E (version_of a) (log s)) as [[e|src] log1];
    simpl in Hk; subst log1.
  { exists k, []. simpl. rewrite app_nil_r. repeat split; [done..|by left]. }
  destruct (link_truthy (zipball_url src)) eqn:Hlink.
  2:{ exists k, []. simpl. rewrite app_nil_r. repeat split; [done..|by left]. }
  cbv zeta.
  assert (Hd : ∃ url, [Download (zipball_url src)] = [Download url]
                      ∧ link_truthy url = true) by eauto.
  destruct (unpack E (zipball_url src)) as [e|[tree root]].
  { exists k, [Download (zipball_url src)]. simpl. rewrite <- app_assoc.
    repeat split; [done..|by right]. }
  destruct (_copy_tree tree root (dest a) (force a) fs0) as [[e|[]] fs'];
    exists k, [Download (zipball_url src)]; simpl; rewrite <- app_assoc;
    repeat split; try done; by right.
Qed.

(** X20. Without force, exit code 0 means that a source was resolved, that
    its archive was unpacked, and that the detected source root, when it is
    a directory, was copied as a whole: every entry below it is in the
    destination at the same relative path, a file with the content it has
    in the unpacked tree.  Nothing is said of members of the archive outside
    that root, nor of a root that is a regular file, below which the walk
    finds nothing. *)
Theorem exit_zero_means_root_copied (E : env) (a : args) (s s' : state) :
  force a = false →
  run E a s = (inr 0%Z, s') →
  ∃ src log1 tree root,
    _resolve_source E (version_of a) (log s) = (inr src, log1)
    ∧ link_truthy (zipball_url src) = true
    ∧ unpack E (zipball_url src) = inr (tree, root)
    ∧ (Fs.is_dir tree root = true →
       ∀ rel e, rel ≠ [] → tree !! (root ++ rel) = Some e →
                fs s' !! (dest a ++ rel) = Some e).
Proof.
  intros Hforce. rewrite run_outcomes.
  destruct (Fs.mkdir_p (dest a) (fs s)) as [[e|[]] fs0]; [done|].
  destruct (_resolve_source E (version_of a) (log s)) as [[e|src] log1].
  { by destruct e. }
  destruct (link_truthy (zipball_url src)) eqn:Hlink; [|done]. cbv zeta.
  destruct (unpack E (zipball_url src)) as [e|[tree root]] eqn:Hunp.
  { by destruct e. }
  rewrite Hforce.
  destruct (_copy_tree tree root (dest a) false fs0) as [[e|[]] fs'] eqn:Hcopy.
  { by destruct e. }
  intros [= <-]. exists src, log1, tree, root.
  split; [done|]. split; [done|]. split; [done|]. simpl.
  intros Hroot rel e Hne Hl.
  assert (Hin : (rel, e) ∈ Fs.rglob tree root) by (by apply elem_of_rglob).
  unfold _copy_tree, bind in Hcopy.
  destruct (copy_loop (dest a) false (Fs.rglob tree root) [] fs0)
    as [[e'|cs] fs1] eqn:Hloop; [done|].
  destruct cs as [|c0 cs]; [|done]. injection Hcopy as <-. destruct e as [|c].
  - by eapply copy_loop_dirs_made.
  - destruct (copy_loop_complete (dest a) (Fs.rglob tree root))
      with (1 := rglob_NoDup tree root) (3 := Hloop) as [_ Hf].
    { apply Forall_forall. intros [r e'] Hr. simpl. by apply rglob_nonempty in Hr. }
    destruct (Hf rel c Hin) as [?%elem_of_nil|?]; done.
Qed.

Lemma run_returns (E : env) (a : args) (s : state) (code : Z) :
  (run E a s).1 = inr code → run E a s = (inr code, (run E a s).2).
Proof. destruct (run E a s) as [r s']. simpl. by intros ->. Qed.

Lemma exit_zero_means_root_copied_witness :
  fs (run Sample.online (Sample.into_home false) (Sample.start Sample.home)).2
    !! ["home"; "cli"; "app.py"] = Some (EFile [Byte.x69; Byte.x6d]).
Proof.
  destruct (exit_zero_means_root_copied Sample.online (Sample.into_home false)
              (Sample.start Sample.home)
              (run Sample.online (Sample.into_home false)
                 (Sample.start Sample.home)).2)
    as (src & log1 & tree & root & Hres & _ & Hunp & H).
  - reflexivity.
  - apply run_returns. vm_compute. reflexivity.
  - assert (Hs : _resolve_source Sample.online
                   (version_of (Sample.into_home false))
                   (log (Sample.start Sample.home))
                 = (inr Sample.release_source, [ApiGet latest_url]))
      by (vm_compute; reflexivity).
    assert (src = Sample.release_source) as -> by congruence.
    assert (Hu : unpack Sample.online (zipball_url Sample.release_source)
                 = inr (Sample.tree, Sample.tree_root)).
    { unfold Sample.tree, Sample.tree_root. rewrite <- surjective_pairing.
      apply unpack_succeeds. vm_compute. reflexivity. }
    assert (tree = Sample.tree) as -> by congruence.
    assert (root = Sample.tree_root) as -> by congruence.
    apply (H ltac:(vm_compute; reflexivity) ["cli"; "app.py"]);
      [discriminate|]. vm_compute. reflexivity.
Defined.

(** ** The resolver: an explicit version, and a failing first request *)

(** X21. An explicit version is never replaced by something else: a source
    resolved for it is its release or the tag of that very name, never the
    latest tag or the default branch, and it was found with the release
    request alone or with the release request followed by the tag listing. *)
Theorem explicit_version_never_falls_back (E : env) (version : string)
    (l l' : requests) (src : source) :
  version ≠ "latest" →
  _resolve_source E version l = (inr src, l') →
  (source_type src = Label "release tag" ∧ l' = l ++ [ApiGet (release_url version)])
  ∨ (source_type src = Label "git tag" ∧ tag_name src = JStr version
     ∧ l' = l ++ [ApiGet (release_url version); ApiGet (tags_url "100")]).
Proof.
  intros Hv. rewrite (resolve_source_explicit E _ Hv). unfold bind at 1.
  pose proof (try_release_log E (release_url version) "release tag" version l) as Hlog.
  destruct (try_release _ _ _ _ l) as [[e|[found|]] l1] eqn:Ht; [done|..];
    simpl in Hlog; subst l1.
  - intros [= <- <-]. left. by apply try_release_some in Ht as [_ ->].
  - unfold bind at 1, _api_get. rewrite <- app_assoc. simpl.
    destruct (api E (tags_url "100")) as [tags| | |]; simpl; try done.
    unfold bind.
    assert (Hscan : ∀ items l0 r l1, scan_tags version items l0 = (r, l1) → l1 = l0).
    { induction items as [|item items IH]; intros l0 r l1; simpl.
      - by intros [= _ <-].
      - unfold bind. destruct item; simpl; try (by intros [= _ <-]).
        destruct (Py.eq_str _ _); [by intros [= _ <-]|]. apply IH. }
    destruct tags as [| | | |items|]; simpl; try done.
    destruct (scan_tags version items _) as [[e|[found|]] l1] eqn:Hs; try done.
    intros [= <- <-]. right. apply Hscan in Hs as Hl. subst l1.
    by apply scan_tags_some in Hs as [-> ->].
Qed.

Lemma explicit_version_never_falls_back_witness :
  (source_type Sample2.tag_source = Label "release tag"
   ∧ [ApiGet (release_url "v1.0.0"); ApiGet (tags_url "100")]
       = [] ++ [ApiGet (release_url "v1.0.0")])
  ∨ (source_type Sample2.tag_source = Label "git tag"
     ∧ tag_name Sample2.tag_source = JStr "v1.0.0"
     ∧ [ApiGet (release_url "v1.0.0"); ApiGet (tags_url "100")]
         = [] ++ [ApiGet (release_url "v1.0.0"); ApiGet (tags_url "100")]).
Proof.
  apply (explicit_version_never_falls_back Sample.tagged "v1.0.0").
  - discriminate.
  - vm_compute. reflexivity.
Defined.

Lemma try_release_fails (E : env) url kind fb msg l :
  match api E url with
  | HTTPError code body => msg = "HTTP " +:+ Str.decimal code +:+ ": " +:+ body
  | URLError reason => msg = reason
  | _ => False
  end →
  Str.contains "HTTP 404" msg = false →
  try_release E url kind fb l = (inl (RuntimeError msg), l ++ [ApiGet url]).
Proof.
  unfold try_release, catch, bind, _api_get.
  destruct (api E url) as [j|code body|reason|]; try done; intros <- Hc;
    by rewrite Hc.
Qed.

(** X22. A failure of the first request is final unless its text holds
    "HTTP 404": for an HTTP error or a network error whose message does not
    contain that text, no fallback is tried; the command prints the failure
    with this message and returns 1, after this one request and with the
    file system as the creation of the destination left it. *)
Theorem first_failure_is_final (E : env) (a : args) (s : state)
    (fs0 : gmap (list string) entry) (msg : string) :
  Fs.mkdir_p (dest a) (fs s) = (inr tt, fs0) →
  match api E (first_url (version_of a)) with
  | HTTPError code body => msg = "HTTP " +:+ Str.decimal code +:+ ": " +:+ body
  | URLError reason => msg = reason
  | _ => False
  end →
  Str.contains "HTTP 404" msg = false →
  run E a s =
    (inr 1%Z,
     {| fs := fs0;
        log := log s ++ [ApiGet (first_url (version_of a))];
        stdout := stdout s ++ [PResolveFailed msg] |}).
Proof.
  intros Hmk Hapi Hc. apply run_resolve_failed; [done|].
  destruct (resolve_rest E (version_of a)) as (K & -> & _).
  unfold bind. by rewrite (try_release_fails E _ _ _ msg _ Hapi Hc).
Qed.

Lemma first_failure_is_final_witness :
  (run Sample2.unreachable (Sample.into_home false) (Sample.start Sample.home)).1
    = inr 1%Z.
Proof.
  rewrite (first_failure_is_final Sample2.unreachable (Sample.into_home false)
             (Sample.start Sample.home)
             (Sample.prepared (Sample.into_home false) Sample.home)
             "connection refused").
  - reflexivity.
  - apply mkdir_p_succeeds. vm_compute. reflexivity.
  - vm_compute. reflexivity.
  - vm_compute. reflexivity.
Defined.
